(** * fqe/fqe_data.py: the sector wavefunction [FqeData]

    A shallow embedding of the [FqeData] class of OpenFermion-FQE and the
    properties its specification states about it.

    The coefficient array of the class is a numpy [complex128] matrix.  The
    properties below are algebraic identities of the contraction code, so
    the entries are taken in exact arithmetic: a complex number is a pair of
    canonical rationals.  Rounding is outside this development.

    Arrays are read through their index functions (an entry per index
    tuple); their shape comes from the index graph that owns them, as in the
    class, and every statement about an array ranges over that shape.

    Layout: the data model and the operations first (scalars, arrays, the
    bit primitives, the index graph, the contraction kernels, the class and
    the object store), then the facts about them. *)

From Stdlib Require Import ZArith NArith List Lia QArith Qcanon Ring Bool Arith.
From stdpp Require Import gmap strings.
Import ListNotations.

Set Implicit Arguments.
Local Open Scope nat_scope.

(* ===================================================================== *)
(** ** Scalars: exact complex numbers *)
(* ===================================================================== *)

Record complex : Type := mkC { re : Qc; im : Qc }.

Declare Scope complex_scope.
Delimit Scope complex_scope with C.
Bind Scope complex_scope with complex.

Definition C0 : complex := mkC 0 0.
Definition C1 : complex := mkC 1 0.
Definition Ci : complex := mkC 0 1.
Definition Cadd (a b : complex) : complex :=
  mkC (re a + re b) (im a + im b).
Definition Cmul (a b : complex) : complex :=
  mkC (re a * re b - im a * im b) (re a * im b + im a * re b).
Definition Copp (a : complex) : complex := mkC (- re a) (- im a).
Definition Csub (a b : complex) : complex := Cadd a (Copp b).
Definition Cconj (a : complex) : complex := mkC (re a) (- im a).

Notation "0" := C0 : complex_scope.
Notation "1" := C1 : complex_scope.
Infix "+" := Cadd : complex_scope.
Infix "*" := Cmul : complex_scope.
Infix "-" := Csub : complex_scope.
Notation "- a" := (Copp a) : complex_scope.

(** Python mixes integers into complex arithmetic ([coeff * parity]). *)
Definition C_of_Z (z : Z) : complex := mkC (Q2Qc (inject_Z z)) 0.
Definition C_of_nat (n : nat) : complex := C_of_Z (Z.of_nat n).
(** A rational literal [n/d] and a complex literal [a + b j]. *)
Definition Qc_of (n : Z) (d : positive) : Qc := Q2Qc (n # d).
Definition C_of (a b : Qc) : complex := mkC a b.

Definition Qc_eqb (a b : Qc) : bool := Qeq_bool (this a) (this b).
Definition Ceqb (a b : complex) : bool :=
  Qc_eqb (re a) (re b) && Qc_eqb (im a) (im b).

(** Finite sums: [sum_n n f] is [f 0 + ... + f (n-1)], accumulated from the
    left as a Python loop over [range(n)] does. *)
Fixpoint sum_n (n : nat) (f : nat -> complex) : complex :=
  match n with
  | O => 0
  | S k => sum_n k f + f k
  end.

Definition sum_list {A : Type} (l : list A) (f : A -> complex) : complex :=
  fold_left (fun acc a => acc + f a)%C l 0%C.

(** [for x in l: s = body(x, s)]. *)
Definition for_each {A S : Type} (l : list A) (body : A -> S -> S) (s : S) : S :=
  fold_left (fun acc a => body a acc) l s.

(** Python's [range(n)] and [range(a, b)]. *)
Definition range (n : nat) : list nat := seq 0 n.
Definition range2 (a b : nat) : list nat := seq a (b - a).

(* ===================================================================== *)
(** ** Arrays *)
(* ===================================================================== *)

Definition Array1 := nat -> complex.
Definition Array2 := nat -> nat -> complex.
Definition Array3 := nat -> nat -> nat -> complex.
Definition Array4 := nat -> nat -> nat -> nat -> complex.

Definition zeros2 : Array2 := fun _ _ => 0%C.
Definition zeros3 : Array3 := fun _ _ _ => 0%C.
Definition zeros4 : Array4 := fun _ _ _ _ => 0%C.

(** [a.T], [a.conj()], [a[r0:, c0:]] (the stop of a slice only bounds the
    shape), [a + b], [a * s], [-a]. *)
Definition transpose (a : Array2) : Array2 := fun p q => a q p.
Definition conj2 (a : Array2) : Array2 := fun p q => Cconj (a p q).
Definition slice2 (a : Array2) (r0 c0 : nat) : Array2 :=
  fun p q => a (r0 + p) (c0 + q).
Definition add2 (a b : Array2) : Array2 := fun p q => (a p q + b p q)%C.
Definition scale2 (a : Array2) (s : complex) : Array2 := fun p q => (a p q * s)%C.
Definition conj4 (a : Array4) : Array4 := fun i j p q => Cconj (a i j p q).

(** Equality of two arrays on a shape. *)
Definition eq_on2 (rows cols : nat) (a b : Array2) : Prop :=
  forall p q, p < rows -> q < cols -> a p q = b p q.

(** [numpy.tensordot(d, c)] of a rank-4 with a rank-2 array (the default
    [axes=2]): the last two axes of [d] against the two axes of [c]. *)
Definition tensordot42 (rows cols : nat) (d : Array4) (c : Array2) : Array2 :=
  fun i j => sum_n rows (fun p => sum_n cols (fun q => (d i j p q * c p q)%C)).

(** [numpy.tensordot(a, b, axes=((2, 3), (2, 3)))] of two rank-4 arrays. *)
Definition tensordot44 (rows cols : nat) (a b : Array4) : Array4 :=
  fun i j k l =>
    sum_n rows (fun p => sum_n cols (fun q => (a i j p q * b k l p q)%C)).

(** [numpy.tensordot(h, d, axes=1)] of a vector with a rank-3 array. *)
Definition tensordot13 (n : nat) (h : Array1) (d : Array3) : Array2 :=
  fun p q => sum_n n (fun i => (h i * d i p q)%C).

(** An operator tensor as the caller supplies it: a shape and the entries. *)
Record Tensor : Type := mkTensor {
  shape : list nat;
  data : list nat -> complex
}.

Definition matrix_of (t : Tensor) : Array2 := fun i j => data t [i; j].

(** [s] times the [n] by [n] identity. *)
Definition scaled_identity (n : nat) (s : complex) : Tensor :=
  mkTensor [n; n]
    (fun idx => match idx with
                | [i; j] => if i =? j then s else 0%C
                | _ => 0%C
                end).

Definition shape_eqb (a b : list nat) : bool := bool_decide (a = b).

(* ===================================================================== *)
(** ** Failure *)
(* ===================================================================== *)

Inductive error : Type :=
| AssertionError
| ValueError
| IndexError
| KeyError.

Inductive result (A : Type) : Type :=
| Ok (a : A)
| Err (e : error).
Arguments Ok {A} a.
Arguments Err {A} e.

Definition rbind {A B : Type} (m : result A) (k : A -> result B) : result B :=
  match m with
  | Ok a => k a
  | Err e => Err e
  end.

Definition assert_ (b : bool) : result unit :=
  if b then Ok tt else Err AssertionError.

Notation "'do' x <- m ; k" := (rbind m (fun x => k))
  (at level 10, x name, m at level 100, k at level 200).
Notation "'check' b ; k" := (rbind (assert_ b) (fun _ => k))
  (at level 10, b at level 100, k at level 200).

(* ===================================================================== *)
(** ** fqe.bitstring: occupation bitstrings *)
(* ===================================================================== *)

(** A determinant of one species is a Python integer read as a set of
    occupied orbitals. *)
Module bitstring.

(** Modelled from the spec: [fqe.bitstring.get_bit], not among the sources
    (bit-level primitives, §6: "get/set/clear a single bit").  The callers
    only test the result for truth. *)
Definition get_bit (s : N) (i : nat) : bool := N.testbit s (N.of_nat i).

(** Modelled from the spec: [fqe.bitstring.set_bit], not among the sources. *)
Definition set_bit (s : N) (i : nat) : N := N.setbit s (N.of_nat i).

(** Modelled from the spec: [fqe.bitstring.unset_bit], not among the
    sources. *)
Definition unset_bit (s : N) (i : nat) : N := N.clearbit s (N.of_nat i).

Fixpoint count_bits_pos (p : positive) : nat :=
  match p with
  | xH => 1
  | xO p' => count_bits_pos p'
  | xI p' => S (count_bits_pos p')
  end.

(** Modelled from the spec: the number of set bits of a bitstring, not among
    the sources. *)
Definition count_bits (s : N) : nat :=
  match s with
  | N0 => 0
  | Npos p => count_bits_pos p
  end.

(** Modelled from the spec: [fqe.bitstring.count_bits_above], not among the
    sources ("count-of-set-bits-above-a-position (for parity)", §6). *)
Definition count_bits_above (s : N) (i : nat) : nat :=
  count_bits (N.shiftr s (N.of_nat (S i))).

End bitstring.

(* ===================================================================== *)
(** ** fqe.fci_graph: the determinant index graph *)
(* ===================================================================== *)

(** An excitation map is a list of [(source, target, sign)]. *)
Definition Entry : Type := (nat * nat * Z)%type.
Definition ExcMap : Type := list Entry.

(** [(-1) ** parity]. *)
Definition sign_of (parity : nat) : Z := ((-1) ^ Z.of_nat parity)%Z.

Module FciGraph.
Import bitstring.

(** The identity of a sector: [(count_A, count_B, norb)] (§3). *)
Record t : Type := mk { nalpha : nat; nbeta : nat; norb : nat }.

(** Modelled from the spec: the string table of [FciGraph], whose code is
    not among the sources.  §3: a dense index in [[0, C(norb, count))],
    "bijective with an occupation bitstring of length norb"; the strings of a
    species are the [norb]-bit integers with [count] bits set, here in
    increasing order. *)
Definition strings (norb nele : nat) : list N :=
  List.filter (fun s => count_bits s =? nele) (map N.of_nat (seq 0 (2 ^ norb))).

Fixpoint find_index (strs : list N) (s : N) (k : nat) : option nat :=
  match strs with
  | [] => None
  | x :: rest => if N.eqb x s then Some k else find_index rest s (S k)
  end.

Definition strings_alpha (g : t) : list N := strings (norb g) (nalpha g).
Definition strings_beta (g : t) : list N := strings (norb g) (nbeta g).

(** Modelled from the spec: [FciGraph.lena], [FciGraph.lenb] ([lenA()],
    [lenB()] of §6). *)
Definition lena (g : t) : nat := length (strings_alpha g).
Definition lenb (g : t) : nat := length (strings_beta g).

(** Modelled from the spec: [FciGraph.string_alpha], [FciGraph.string_beta]
    ([string_of(index)] of §6). *)
Definition string_alpha (g : t) (idx : nat) : N := nth idx (strings_alpha g) 0%N.
Definition string_beta (g : t) (idx : nat) : N := nth idx (strings_beta g) 0%N.

(** Modelled from the spec: [FciGraph.index_alpha], [FciGraph.index_beta]
    ([index_of(bitstring)] of §6); a bitstring that is not a determinant of
    the sector has no index. *)
Definition index_alpha (g : t) (s : N) : result nat :=
  match find_index (strings_alpha g) s 0 with
  | Some k => Ok k
  | None => Err KeyError
  end.
Definition index_beta (g : t) (s : N) : result nat :=
  match find_index (strings_beta g) s 0 with
  | Some k => Ok k
  | None => Err KeyError
  end.

(** Modelled from the spec: the excitation map of one species for the
    orbital pair [(i, j)], built by [FciGraph] (not among the sources).  §3:
    "applying the single-excitation operator a†_i a_j ... maps amplitude at
    source to target scaled by sign".  A determinant is a source when [j] is
    occupied and [i] is free (or [i = j]); the sign counts the occupied
    orbitals above each toggled position, as [apply_individual_nbody] does. *)
Definition build_mapping (strs : list N) (i j : nat) : ExcMap :=
  flat_map
    (fun '(source, s) =>
       if get_bit s j && ((i =? j) || negb (get_bit s i)) then
         let s1 := unset_bit s j in
         let s2 := set_bit s1 i in
         match find_index strs s2 0 with
         | Some target =>
             [(source, target,
                sign_of (count_bits_above s j + count_bits_above s1 i))]
         | None => []
         end
       else [])
    (combine (seq 0 (length strs)) strs).

(** Modelled from the spec: [FciGraph.alpha_map], [FciGraph.beta_map]
    ([excitation_map(i,j)] per species, §6). *)
Definition alpha_map (g : t) (i j : nat) : ExcMap := build_mapping (strings_alpha g) i j.
Definition beta_map (g : t) (i j : nat) : ExcMap := build_mapping (strings_beta g) i j.

(** Modelled from the spec: [FciGraph._dexca], [FciGraph._dexcb], the tables
    the low-memory kernels read, not among the sources; they hold the same
    single excitations as the maps, for every orbital pair. *)
Definition _dexca (g : t) : nat -> nat -> ExcMap := alpha_map g.
Definition _dexcb (g : t) : nat -> nat -> ExcMap := beta_map g.

(** One block of [_get_block_mappings]: the two index ranges
    ([start], [stop]) and the maps of each species for the block. *)
Record block : Type := mkBlock {
  alpha_range : nat * nat;
  beta_range : nat * nat;
  alpha_maps : list (nat -> nat -> ExcMap);
  beta_maps : list (nat -> nat -> ExcMap)
}.

Fixpoint split_range (fuel start stop size : nat) : list (nat * nat) :=
  match fuel with
  | O => []
  | S fuel' =>
      if start <? stop then
        (start, Nat.min (start + size) stop)
          :: split_range fuel' (Nat.min (start + size) stop) stop size
      else []
  end.

Definition in_range (r : nat * nat) (x : nat) : bool :=
  (fst r <=? x) && (x <? snd r).

(** The entries of a map whose target falls in a range. *)
Definition restrict (r : nat * nat) (m : ExcMap) : ExcMap :=
  List.filter (fun e => in_range r (snd (fst e))) m.

(** Modelled from the spec: [FciGraph._get_block_mappings], not among the
    sources.  §4.1: the blocked variant "partitions the (lenA,lenB)
    coefficient array into index ranges and operates block-by-block".  The
    ranges of a species are consecutive, of at most [max_states] indices;
    component 0 of the maps of a block holds the entries of every orbital
    pair whose target lies in the block. *)
Definition _get_block_mappings (g : t) (max_states : nat) : list block :=
  flat_map
    (fun ar =>
       map (fun br =>
              mkBlock ar br
                [fun i j => restrict ar (alpha_map g i j)]
                [fun i j => restrict br (beta_map g i j)])
           (split_range (lenb g) 0 (lenb g) max_states))
    (split_range (lena g) 0 (lena g) max_states).

End FciGraph.

(* ===================================================================== *)
(** ** fqe.lib.fqe_data: the contraction kernels *)
(* ===================================================================== *)

Module lib.

(** [a[s, :]] when [alpha], [a[:, s]] otherwise. *)
Definition line (alpha : bool) (a : Array2) (s : nat) : Array1 :=
  if alpha then fun x => a s x else fun x => a x s.

(** [o[t, :] += v] when [alpha], [o[:, t] += v] otherwise. *)
Definition accumulate (alpha : bool) (t : nat) (v : Array1) (o : Array2) : Array2 :=
  if alpha
  then fun p q => if p =? t then (o p q + v q)%C else o p q
  else fun p q => if q =? t then (o p q + v p)%C else o p q.

(** Modelled from the spec: the compiled kernel [_make_dvec], not among the
    sources.  §4.1, [build_dvec]: "for every ordered orbital pair (i,j),
    scatter-accumulate coeff[source,:] * sign into D[i,j,target,:] using the
    species-A excitation map, and symmetrically coeff[:,source] * sign into
    D[i,j,:,target] using the species-B map".  The kernel receives the maps
    as a flat list and the D-vector with its leading axes flattened: slice
    [k] is filled through map [k]. *)
Definition _make_dvec (dvec : Array3) (coeff : Array2) (maps : list ExcMap)
    (lena lenb : nat) (alpha : bool) : Array3 :=
  fun k =>
    for_each (nth k maps [])
      (fun '(source, target, parity) d =>
         accumulate alpha target
           (fun x => (line alpha coeff source x * C_of_Z parity)%C) d)
      (dvec k).

(** Modelled from the spec: the compiled kernel [_make_coeff], not among the
    sources.  §4.1, [accumulate_from_dvec]: "scatters D[i,j,...] back through
    the transposed excitation maps (pair (j,i) in place of (i,j))"; the caller
    passes the maps of [(j, i)] for slice [(i, j)], and an entry adds the
    slice at its target, signed, to the output at its source, which gives
    the sum the caller documents: C_I = sum_J <I|a†_i a_j|J> D^J_ij. *)
Definition _make_coeff (dvec : Array3) (out : Array2) (maps : list ExcMap)
    (lena lenb : nat) (alpha : bool) : Array2 :=
  for_each (combine (seq 0 (length maps)) maps)
    (fun '(k, m) o =>
       for_each m
         (fun '(source, target, parity) o' =>
            accumulate alpha source
              (fun x => (line alpha (dvec k) target x * C_of_Z parity)%C) o')
         o)
    out.

(** Modelled from the spec: the compiled kernel [_make_dvec_part], not among
    the sources.  §4.1: the blocked variant is "functionally identical to the
    whole-array form": the part of the D-vector whose targets are the rows
    [alpha_range] and columns [beta_range], indexed from the start of the
    block.  With [alpha] the coefficients are read by rows; otherwise the
    caller passes the transposed coefficients, read by rows too. *)
Definition _make_dvec_part (coeff : Array2) (maps : nat -> nat -> ExcMap)
    (alpha_range beta_range : nat * nat) (norb lena lenb : nat)
    (alpha : bool) (out : option Array4) : Array4 :=
  let dvec := match out with Some d => d | None => zeros4 end in
  fun i j =>
    for_each (maps i j)
      (fun '(source, target, parity) d =>
         if alpha
         then accumulate true (target - fst alpha_range)
                (fun q => (coeff source (fst beta_range + q)%nat * C_of_Z parity)%C) d
         else accumulate false (target - fst beta_range)
                (fun p => (coeff source (fst alpha_range + p)%nat * C_of_Z parity)%C) d)
      (dvec i j).

(** Modelled from the spec: the compiled kernel [_lm_apply_array1], not among
    the sources.  §4.2, k=1: the single excitations of the species,
    contracted with the 1-body tensor: every entry of the table of the pair
    [(i, j)] adds [h1e[i, j] * sign] times the source line of the
    coefficients to the target line of the output.  The output is fresh
    unless [out] is given. *)
Definition _lm_apply_array1 (coeff : Array2) (h1e : Array2)
    (dexc : nat -> nat -> ExcMap) (lena lenb norb : nat) (alpha : bool)
    (out : option Array2) : Array2 :=
  let out0 := match out with Some o => o | None => zeros2 end in
  for_each (range norb)
    (fun i o =>
       for_each (range norb)
         (fun j o' =>
            for_each (dexc i j)
              (fun '(source, target, parity) o'' =>
                 accumulate alpha target
                   (fun x => (h1e i j * (line alpha coeff source x * C_of_Z parity))%C)
                   o'')
              o')
         o)
    out0.

End lib.

(* ===================================================================== *)
(** ** The interpreter's [hash] of a tuple of integers *)
(* ===================================================================== *)

(** [FqeData.__hash__] calls the builtin [hash] on a pair of Python
    integers.  This is CPython's function on a 64-bit build: an integer
    hashes to its value modulo [2^61 - 1] (never [-1]), a tuple folds the
    hashes of its items. *)
Module pyhash.
Local Open Scope Z_scope.

Definition modulus : Z := 2 ^ 61 - 1.
Definition u64 (x : Z) : Z := x mod 2 ^ 64.
Definition s64 (x : Z) : Z := if x <? 2 ^ 63 then x else x - 2 ^ 64.

Definition hash_int (n : Z) : Z :=
  let h := Z.sgn n * (Z.abs n mod modulus) in
  if h =? -1 then -2 else h.

Definition XXPRIME_1 : Z := 11400714785074694791.
Definition XXPRIME_2 : Z := 14029467366897019727.
Definition XXPRIME_5 : Z := 2870177450012600261.

Definition rotate31 (x : Z) : Z := u64 (Z.lor (Z.shiftl x 31) (Z.shiftr x 33)).

Definition hash_tuple (items : list Z) : Z :=
  let acc :=
    fold_left
      (fun acc item =>
         let lane := u64 (hash_int item) in
         u64 (rotate31 (u64 (acc + lane * XXPRIME_2)) * XXPRIME_1))
      items XXPRIME_5 in
  let acc :=
    u64 (acc + Z.lxor (Z.of_nat (length items)) (Z.lxor XXPRIME_5 3527539)) in
  if acc =? 2 ^ 64 - 1 then 1546275796 else s64 acc.

End pyhash.

(* ===================================================================== *)
(** ** The class [FqeData] *)
(* ===================================================================== *)

(** Modelled from the spec: [fqe.util.validate_config], not among the
    sources.  §7 (a): a configuration error for "counts exceeding norb",
    raised at construction; §3: the counts are not negative. *)
Definition validate_config (nalpha nbeta norb : Z) : result unit :=
  if ((nalpha <? 0) || (nbeta <? 0) || (norb <? 0))%Z then Err ValueError
  else if ((norb <? nalpha) || (norb <? nbeta))%Z then Err ValueError
  else Ok tt.

(** The attributes of an instance.  [_dtype] is [numpy.complex128]
    throughout and is not recorded. *)
Record FqeData : Type := mkFqeData {
  _core : FciGraph.t;
  _low_thresh : Q;
  _nele : Z;
  _m_s : Z;
  coeff : Array2
}.

(** the array of an instance, for where [coeff] names an argument *)
Definition coeff_of (self : FqeData) : Array2 := coeff self.

Definition with_coeff (self : FqeData) (c : Array2) : FqeData :=
  mkFqeData (_core self) (_low_thresh self) (_nele self) (_m_s self) c.

Definition with_low_thresh (self : FqeData) (x : Q) : FqeData :=
  mkFqeData (_core self) x (_nele self) (_m_s self) (coeff self).

(** [FqeData.__init__]. *)
Definition __init__ (nalpha nbeta norb : Z) (fcigraph : option FciGraph.t)
  : result FqeData :=
  do _ <- validate_config nalpha nbeta norb;
  let mismatch :=
    match fcigraph with
    | None => false
    | Some g =>
        negb (nalpha =? Z.of_nat (FciGraph.nalpha g))%Z
        || negb (nbeta =? Z.of_nat (FciGraph.nbeta g))%Z
        || negb (norb =? Z.of_nat (FciGraph.norb g))%Z
    end in
  if mismatch then Err ValueError
  else
    let core :=
      match fcigraph with
      | None => FciGraph.mk (Z.to_nat nalpha) (Z.to_nat nbeta) (Z.to_nat norb)
      | Some g => g
      end in
    Ok (mkFqeData core (3 # 10)
          (Z.of_nat (FciGraph.nalpha core) + Z.of_nat (FciGraph.nbeta core))%Z
          (Z.of_nat (FciGraph.nalpha core) - Z.of_nat (FciGraph.nbeta core))%Z
          zeros2).

Definition get_fcigraph (self : FqeData) : FciGraph.t := _core self.
Definition lena (self : FqeData) : nat := FciGraph.lena (_core self).
Definition lenb (self : FqeData) : nat := FciGraph.lenb (_core self).
Definition nalpha (self : FqeData) : nat := FciGraph.nalpha (_core self).
Definition nbeta (self : FqeData) : nat := FciGraph.nbeta (_core self).
Definition norb (self : FqeData) : nat := FciGraph.norb (_core self).
Definition n_electrons (self : FqeData) : Z := _nele self.
Definition alpha_map (self : FqeData) (iorb jorb : nat) : ExcMap :=
  FciGraph.alpha_map (_core self) iorb jorb.
Definition beta_map (self : FqeData) (iorb jorb : nat) : ExcMap :=
  FciGraph.beta_map (_core self) iorb jorb.

(** [FqeData.__hash__]. *)
Definition __hash__ (self : FqeData) : Z :=
  pyhash.hash_tuple [_nele self; _m_s self].

(** The squared Frobenius norm of the coefficients; [norm] is its square
    root, and is 1 exactly when this is. *)
Definition norm_sq (self : FqeData) : complex :=
  sum_n (lena self) (fun p =>
    sum_n (lenb self) (fun q => (coeff self p q * Cconj (coeff self p q))%C)).

(** *** D-vectors *)

(** [[f(i, j) for i in range(norb) for j in range(norb)]]. *)
Definition pair_list {A : Type} (norb : nat) (f : nat -> nat -> A) : list A :=
  flat_map (fun i => map (fun j => f i j) (range norb)) (range norb).

(** The kernels see the two orbital axes of a D-vector as one. *)
Definition flatten_pairs (norb : nat) (d : Array4) : Array3 :=
  fun k => d (k / norb) (k mod norb).
Definition unflatten_pairs (norb : nat) (d : Array3) : Array4 :=
  fun i j => d (i * norb + j).

(** [FqeData._calculate_dvec_spatial_with_coeff]. *)
Definition _calculate_dvec_spatial_with_coeff (self : FqeData) (coeff : Array2)
  : Array4 :=
  let norb := norb self in
  let dvec := flatten_pairs norb zeros4 in
  let dvec :=
    lib._make_dvec dvec coeff (pair_list norb (fun i j => alpha_map self i j))
      (lena self) (lenb self) true in
  let dvec :=
    lib._make_dvec dvec coeff (pair_list norb (fun i j => beta_map self i j))
      (lena self) (lenb self) false in
  unflatten_pairs norb dvec.

(** [FqeData.calculate_dvec_spatial]. *)
Definition calculate_dvec_spatial (self : FqeData) : Array4 :=
  _calculate_dvec_spatial_with_coeff self (coeff self).

(** [FqeData._calculate_dvec_spin_with_coeff_fixed_j]. *)
Definition _calculate_dvec_spin_with_coeff_fixed_j (self : FqeData)
    (coeff : Array2) (jorb : nat) : result Array3 :=
  let norb := norb self in
  check (jorb <? norb * 2);
  let dvec := zeros3 in
  let maps :=
    if jorb <? norb
    then map (fun i => alpha_map self i jorb) (range norb)
    else map (fun i => beta_map self i (jorb - norb)) (range norb) in
  Ok (lib._make_dvec dvec coeff maps (lena self) (lenb self) (jorb <? norb)).

(** [FqeData.calculate_dvec_spin_fixed_j]. *)
Definition calculate_dvec_spin_fixed_j (self : FqeData) (jorb : nat)
  : result Array3 :=
  _calculate_dvec_spin_with_coeff_fixed_j self (coeff self) jorb.

(** [FqeData._calculate_coeff_spatial_with_dvec]. *)
Definition _calculate_coeff_spatial_with_dvec (self : FqeData) (dvec : Array4)
  : Array2 :=
  let norb := norb self in
  let out := zeros2 in
  let alpha_maps := pair_list norb (fun i j => alpha_map self j i) in
  let beta_maps := pair_list norb (fun i j => beta_map self j i) in
  let out :=
    lib._make_coeff (flatten_pairs norb dvec) out alpha_maps
      (lena self) (lenb self) true in
  let out :=
    lib._make_coeff (flatten_pairs norb dvec) out beta_maps
      (lena self) (lenb self) false in
  out.

(** *** 1-body operators *)

(** [numpy.any(h1e[:, j])] for a matrix of [rows] rows. *)
Definition any_column (rows : nat) (h1e : Array2) (j : nat) : bool :=
  existsb (fun i => negb (Ceqb (h1e i j) 0%C)) (range rows).

(** The scan for a single populated column:
<<
    for j in range(n):
        if numpy.any(h1e[:, j]):
            ncol += 1
            jorb = j
        if ncol > 1:
            break
>> *)
Fixpoint scan_columns (populated : nat -> bool) (js : list nat)
    (ncol jorb : nat) : nat * nat :=
  match js with
  | [] => (ncol, jorb)
  | j :: rest =>
      let '(ncol', jorb') := if populated j then (S ncol, j) else (ncol, jorb) in
      if 1 <? ncol' then (ncol', jorb')
      else scan_columns populated rest ncol' jorb'
  end.

(** [FqeData._apply_array_spatial1]; both branches on [ncol] run the dense
    code, as in the source. *)
Definition _apply_array_spatial1 (self : FqeData) (h1e : Tensor) : result Array2 :=
  check (shape_eqb (shape h1e) [norb self; norb self]);
  let h := matrix_of h1e in
  let '(ncol, jorb) :=
    scan_columns (any_column (norb self) h) (range (norb self)) 0 0 in
  let dense_apply_array_spatial1 :=
    let out :=
      lib._lm_apply_array1 (coeff self) h (FciGraph._dexca (_core self))
        (lena self) (lenb self) (norb self) true None in
    add2 out
      (transpose
         (lib._lm_apply_array1 (transpose (coeff self)) h
            (FciGraph._dexcb (_core self))
            (lenb self) (lena self) (norb self) true None)) in
  if 1 <? ncol then Ok dense_apply_array_spatial1
  else Ok dense_apply_array_spatial1.

(** [FqeData._apply_array_spin1]. *)
Definition _apply_array_spin1 (self : FqeData) (h1e : Tensor) : result Array2 :=
  let norb := norb self in
  check (shape_eqb (shape h1e) [norb * 2; norb * 2]);
  let h := matrix_of h1e in
  let '(ncol, jorb) :=
    scan_columns (any_column (norb * 2) h) (range (norb * 2)) 0 0 in
  let dense_apply_array_spin1_lm :=
    let out :=
      lib._lm_apply_array1 (coeff self) h (FciGraph._dexca (_core self))
        (lena self) (lenb self) norb true None in
    lib._lm_apply_array1 (coeff self) (slice2 h norb norb)
      (FciGraph._dexcb (_core self))
      (lena self) (lenb self) norb false (Some out) in
  if 1 <? ncol then Ok dense_apply_array_spin1_lm
  else
    do dvec <- calculate_dvec_spin_fixed_j self jorb;
    let h1eview : Array1 :=
      if jorb <? norb then fun i => h i jorb
      else fun i => h (norb + i) jorb in
    Ok (tensordot13 norb h1eview dvec).

(** *** Reduced density matrices *)

Definition no_maps : nat -> nat -> ExcMap := fun _ _ => [].

(** The D-vector of a block: the alpha part, then the beta part added into
    it ([out=dvec]). *)
Definition dvec_of_block (coeff_a coeff_b : Array2) (blk : FciGraph.block)
    (norb lena lenb : nat) : Array4 :=
  let alpha_range := FciGraph.alpha_range blk in
  let beta_range := FciGraph.beta_range blk in
  let dvec :=
    lib._make_dvec_part coeff_a (nth 0 (FciGraph.alpha_maps blk) no_maps)
      alpha_range beta_range norb lena lenb true None in
  lib._make_dvec_part coeff_b (nth 0 (FciGraph.beta_maps blk) no_maps)
    alpha_range beta_range norb lena lenb false (Some dvec).

Definition range_len (r : nat * nat) : nat := snd r - fst r.

(** [FqeData._rdm1_blocked]; the source returns the matrix in a 1-tuple. *)
Definition _rdm1_blocked (self : FqeData) (bradata : option FqeData)
    (max_states : nat) : Array2 :=
  let bradata := match bradata with None => self | Some b => b end in
  let mappings := FciGraph._get_block_mappings (_core bradata) max_states in
  let norb := norb bradata in
  let coeff_a := coeff bradata in
  let coeff_b := transpose (coeff bradata) in
  let coeffconj := conj2 (coeff self) in
  let rdm := zeros2 in
  let rdm :=
    for_each mappings
      (fun blk rdm =>
         let alpha_range := FciGraph.alpha_range blk in
         let beta_range := FciGraph.beta_range blk in
         let dvec :=
           dvec_of_block coeff_a coeff_b blk norb (lena self) (lenb self) in
         add2 rdm
           (tensordot42 (range_len alpha_range) (range_len beta_range) dvec
              (slice2 coeffconj (fst alpha_range) (fst beta_range))))
      rdm in
  transpose (conj2 rdm).

(** [FqeData.rdm1]. *)
Definition rdm1 (self : FqeData) (bradata : option FqeData) : Array2 :=
  _rdm1_blocked self bradata 100.

(** [rdm2[:, i, i, :] += rdm1[:, :]]. *)
Definition add_on_inner_diagonal (i : nat) (rdm1 : Array2) (rdm2 : Array4)
  : Array4 :=
  fun a b c d =>
    if (b =? i) && (c =? i) then (rdm2 a b c d + rdm1 a d)%C else rdm2 a b c d.

(** [FqeData._rdm12_halffilling_blocked]. *)
Definition _rdm12_halffilling_blocked (self : FqeData)
    (bradata : option FqeData) (max_states : nat) : Array2 * Array4 :=
  let self_norb := norb self in
  let bradata := match bradata with None => self | Some b => b end in
  let mappings := FciGraph._get_block_mappings (_core self) max_states in
  let norb := norb bradata in
  let coeff_a := coeff self in
  let coeff_b := transpose (coeff self) in
  let bcoeff_a := coeff bradata in
  let bcoeff_b := transpose (coeff bradata) in
  let rdm1 := zeros2 in
  let rdm2 := zeros4 in
  let '(rdm1, rdm2) :=
    for_each mappings
      (fun blk '(rdm1, rdm2) =>
         let alpha_range := FciGraph.alpha_range blk in
         let beta_range := FciGraph.beta_range blk in
         let rows := range_len alpha_range in
         let cols := range_len beta_range in
         let dvec :=
           dvec_of_block coeff_a coeff_b blk norb (lena self) (lenb self) in
         let dvec2 :=
           dvec_of_block bcoeff_a bcoeff_b blk norb (lena self) (lenb self) in
         let dvec2conj := conj4 dvec2 in
         (add2 rdm1
            (tensordot42 rows cols dvec2conj
               (slice2 (coeff self) (fst alpha_range) (fst beta_range))),
          (fun i j k l =>
             (rdm2 i j k l + tensordot44 rows cols dvec2conj dvec i j k l)%C)))
      (rdm1, rdm2) in
  (* rdm2 = -rdm2.transpose(1, 2, 0, 3) *)
  let rdm2 : Array4 := fun a b c d => (- rdm2 c a b d)%C in
  let rdm2 :=
    for_each (range self_norb)
      (fun i rdm2 => add_on_inner_diagonal i rdm1 rdm2) rdm2 in
  (transpose rdm1, rdm2).

(** [FqeData._rdm12_halffilling]. *)
Definition _rdm12_halffilling (self : FqeData) (bradata : option FqeData)
  : Array2 * Array4 :=
  _rdm12_halffilling_blocked self bradata 100.

(** The test of the two dispatchers:
    [nalpha < norb * thresh and nbeta < norb * thresh]. *)
Definition Qltb (x y : Q) : bool := negb (Qle_bool y x).
Definition Q_of_nat (n : nat) : Q := inject_Z (Z.of_nat n).

Definition below_threshold (self : FqeData) : bool :=
  let thresh := _low_thresh self in
  Qltb (Q_of_nat (nalpha self)) (Q_of_nat (norb self) * thresh)
  && Qltb (Q_of_nat (nbeta self)) (Q_of_nat (norb self) * thresh).

(** *** The routines of the 2-, 3- and 4-body paths

    These routines run on the compiled kernels
    [_lm_apply_array12_same_spin_opt], [_lm_apply_array12_diff_spin_opt],
    [_apply_array12_lowfillingab], [_apply_array12_lowfillingab2] and on the
    transition maps of [FciGraph.find_mapping], none of which is among the
    sources.  They are taken as they are called: each reads the instance and
    the tensors and returns a new array, or fails; none assigns to
    [self.coeff].  The statements of the dispatch and of the in-place
    update below hold for whatever they compute. *)
Class Contractions : Type := {
  _apply_array_spatial12_lowfilling : FqeData -> Tensor -> Tensor -> result Array2;
  _apply_array_spatial12_halffilling : FqeData -> Tensor -> Tensor -> result Array2;
  _apply_array_spin12_lowfilling : FqeData -> Tensor -> Tensor -> result Array2;
  _apply_array_spin12_halffilling : FqeData -> Tensor -> Tensor -> result Array2;
  (** the bodies of the 3- and 4-body routines after their assertion *)
  contract_spatial123 : FqeData -> Tensor -> Tensor -> Tensor -> result Array2;
  contract_spin123 : FqeData -> Tensor -> Tensor -> Tensor -> result Array2;
  contract_spatial1234 :
    FqeData -> Tensor -> Tensor -> Tensor -> Tensor -> result Array2;
  contract_spin1234 :
    FqeData -> Tensor -> Tensor -> Tensor -> Tensor -> result Array2;
  _rdm12_lowfilling : FqeData -> option FqeData -> result (Array2 * Array4)
}.

Section Dispatch.
Context {K : Contractions}.

(** [FqeData._apply_array_spatial12].  On the low-filling branch the source
    first registers the graphs of the neighbouring sectors in a
    [FciGraphSet], which prepares the transition maps that the low-filling
    routine looks up; it has no other effect. *)
Definition _apply_array_spatial12 (self : FqeData) (h1e h2e : Tensor)
  : result Array2 :=
  let norb := norb self in
  check (shape_eqb (shape h1e) [norb; norb]);
  check (shape_eqb (shape h2e) [norb; norb; norb; norb]);
  if below_threshold self
  then _apply_array_spatial12_lowfilling self h1e h2e
  else _apply_array_spatial12_halffilling self h1e h2e.

(** [FqeData._apply_array_spin12]. *)
Definition _apply_array_spin12 (self : FqeData) (h1e h2e : Tensor)
  : result Array2 :=
  let norb := norb self in
  check (shape_eqb (shape h1e) [norb * 2; norb * 2]);
  check (shape_eqb (shape h2e) [norb * 2; norb * 2; norb * 2; norb * 2]);
  if below_threshold self
  then _apply_array_spin12_lowfilling self h1e h2e
  else _apply_array_spin12_halffilling self h1e h2e.

(** [FqeData._apply_array_spatial123], called with a fresh D-vector. *)
Definition _apply_array_spatial123 (self : FqeData) (h1e h2e h3e : Tensor)
  : result Array2 :=
  check (shape_eqb (shape h3e) (repeat (norb self) 6));
  contract_spatial123 self h1e h2e h3e.

(** [FqeData._apply_array_spin123], called with a fresh D-vector. *)
Definition _apply_array_spin123 (self : FqeData) (h1e h2e h3e : Tensor)
  : result Array2 :=
  check (shape_eqb (shape h3e) (repeat (norb self * 2) 6));
  contract_spin123 self h1e h2e h3e.

(** [FqeData._apply_array_spatial1234]. *)
Definition _apply_array_spatial1234 (self : FqeData) (h1e h2e h3e h4e : Tensor)
  : result Array2 :=
  check (shape_eqb (shape h4e) (repeat (norb self) 8));
  contract_spatial1234 self h1e h2e h3e h4e.

(** [FqeData._apply_array_spin1234]. *)
Definition _apply_array_spin1234 (self : FqeData) (h1e h2e h3e h4e : Tensor)
  : result Array2 :=
  check (shape_eqb (shape h4e) (repeat (norb self * 2) 8));
  contract_spin1234 self h1e h2e h3e h4e.

(** [FqeData.rdm12]. *)
Definition rdm12 (self : FqeData) (bradata : option FqeData)
  : result (Array2 * Array4) :=
  if below_threshold self
  then _rdm12_lowfilling self bradata
  else Ok (_rdm12_halffilling self bradata).

End Dispatch.

(** *** Methods that assign to the instance

    A method runs on the instance and leaves it in a state, whether it
    returns or raises. *)
Definition method (A : Type) : Type := FqeData -> result A * FqeData.

Definition m_ret {A : Type} (a : A) : method A := fun s => (Ok a, s).
Definition m_bind {A B : Type} (m : method A) (k : A -> method B) : method B :=
  fun s =>
    match m s with
    | (Ok a, s') => k a s'
    | (Err e, s') => (Err e, s')
    end.
(** the instance as it is now *)
Definition get_self : method FqeData := fun s => (Ok s, s).
(** [self.coeff = c] *)
Definition set_coeff (c : Array2) : method unit := fun s => (Ok tt, with_coeff s c).
(** a computation that only reads *)
Definition lift {A : Type} (r : result A) : method A := fun s => (r, s).

Notation "'DO' x <- m ; k" := (m_bind m (fun x => k))
  (at level 10, x name, m at level 100, k at level 200).
Notation "'CHECK' b ; k" := (m_bind (lift (assert_ b)) (fun _ => k))
  (at level 10, b at level 100, k at level 200).

(** [array[k]] and [t.shape[k]]. *)
Definition item {A : Type} (l : list A) (k : nat) : result A :=
  match nth_error l k with
  | Some a => Ok a
  | None => Err IndexError
  end.
Definition dim (t : Tensor) (k : nat) : result nat := item (shape t) k.

Section Apply.
Context {K : Contractions}.

(** [FqeData.apply_inplace]. *)
Definition apply_inplace (array : list Tensor) : method unit :=
  let len_arr := length array in
  CHECK ((len_arr <? 5) && (0 <? len_arr));
  DO self <- get_self;
  DO a0 <- lift (item array 0);
  DO d0 <- lift (dim a0 0);
  let spatial := d0 =? norb self in
  if len_arr =? 1 then
    if spatial then
      DO c <- lift (_apply_array_spatial1 self a0); set_coeff c
    else
      DO c <- lift (_apply_array_spin1 self a0); set_coeff c
  else if len_arr =? 2 then
    DO a1 <- lift (item array 1);
    if spatial then
      DO c <- lift (_apply_array_spatial12 self a0 a1); set_coeff c
    else
      DO c <- lift (_apply_array_spin12 self a0 a1); set_coeff c
  else if len_arr =? 3 then
    DO a1 <- lift (item array 1);
    DO a2 <- lift (item array 2);
    if spatial then
      DO c <- lift (_apply_array_spatial123 self a0 a1 a2); set_coeff c
    else
      DO c <- lift (_apply_array_spin123 self a0 a1 a2); set_coeff c
  else if len_arr =? 4 then
    DO a1 <- lift (item array 1);
    DO a2 <- lift (item array 2);
    DO a3 <- lift (item array 3);
    if spatial then
      DO c <- lift (_apply_array_spatial1234 self a0 a1 a2 a3); set_coeff c
    else
      DO c <- lift (_apply_array_spin1234 self a0 a1 a2 a3); set_coeff c
  else m_ret tt.

End Apply.

(** [new.coeff[:, :] = src[:, :]] on a shape. *)
Definition assign_all (rows cols : nat) (dst src : Array2) : Array2 :=
  fun p q => if (p <? rows) && (q <? cols) then src p q else dst p q.

(** [FqeData.__copy__], on values. *)
Definition __copy__ (self : FqeData) : result FqeData :=
  do new_data <-
    __init__ (Z.of_nat (FciGraph.nalpha (_core self)))
      (Z.of_nat (FciGraph.nbeta (_core self)))
      (Z.of_nat (FciGraph.norb (_core self))) (Some (_core self));
  let new_data := with_low_thresh new_data (_low_thresh self) in
  Ok (with_coeff new_data
        (assign_all (lena new_data) (lenb new_data) (coeff new_data) (coeff self))).

(** [FqeData.__deepcopy__], on values. *)
Definition __deepcopy__ (self : FqeData) : result FqeData :=
  do new_data <-
    __init__ (Z.of_nat (FciGraph.nalpha (_core self)))
      (Z.of_nat (FciGraph.nbeta (_core self)))
      (Z.of_nat (FciGraph.norb (_core self))) (Some (_core self));
  let new_data := with_low_thresh new_data (_low_thresh self) in
  Ok (with_coeff new_data (coeff self)).

(** [FqeData.apply]: the value of the returned instance. *)
Definition apply {K : Contractions} (self : FqeData) (array : list Tensor)
  : result FqeData :=
  do out <- __deepcopy__ self;
  match apply_inplace array out with
  | (Ok _, out') => Ok out'
  | (Err e, _) => Err e
  end.

(** *** Individual excitation strings *)

(** The two toggling loops of [make_mapping_each]:
<<
    for i in reversed(ops):
        parity += count_bits_above(current, i)
        current = toggle(current, i)
>> *)
Definition toggle_all (toggle : N -> nat -> N) (ops : list nat)
    (state : nat * N) : nat * N :=
  for_each (rev ops)
    (fun i '(parity, current) =>
       (parity + bitstring.count_bits_above current i, toggle current i))
    state.

(** The occupation test of [make_mapping_each] on one determinant. *)
Definition string_applies (dag undag : list nat) (current : N) : bool :=
  forallb (fun i => bitstring.get_bit current i) undag
  && forallb
       (fun i => existsb (Nat.eqb i) undag || negb (bitstring.get_bit current i))
       dag.

(** The inner function [make_mapping_each] of [apply_individual_nbody]; it
    returns the list it appends to. *)
Definition make_mapping_each (self : FqeData) (alpha : bool)
    (daga undaga dagb undagb : list nat) : result ExcMap :=
  let '(dag, undag) := if alpha then (daga, undaga) else (dagb, undagb) in
  for_each (range (if alpha then lena self else lenb self))
    (fun index acc =>
       do map_so_far <- acc;
       let current :=
         if alpha then FciGraph.string_alpha (_core self) index
         else FciGraph.string_beta (_core self) index in
       if string_applies dag undag current then
         let '(parity, current) :=
           toggle_all bitstring.set_bit dag
             (toggle_all bitstring.unset_bit undag (0, current)) in
         do target <-
           (if alpha then FciGraph.index_alpha (_core self) current
            else FciGraph.index_beta (_core self) current);
         Ok (map_so_far ++ [(index, target, sign_of parity)])
       else Ok map_so_far)
    (Ok []).

(** [a[p, q] = v]. *)
Definition set2 (a : Array2) (p q : nat) (v : complex) : Array2 :=
  fun p' q' => if (p' =? p) && (q' =? q) then v else a p' q'.

(** [FqeData.apply_individual_nbody].  The assignment through the index
    vector [targetb_vec] stores the entries of the right-hand side one by
    one. *)
Definition apply_individual_nbody (self : FqeData) (coeff : complex)
    (daga undaga dagb undagb : list nat) : result FqeData :=
  let self_coeff := coeff_of self in
  check ((length daga =? length undaga) && (length dagb =? length undagb));
  do alphamap <- make_mapping_each self true daga undaga dagb undagb;
  do betamap <- make_mapping_each self false daga undaga dagb undagb;
  do out <- __deepcopy__ self;
  let out := with_coeff out zeros2 in
  if (length alphamap =? 0) || (length betamap =? 0) then Ok out
  else
    Ok (with_coeff out
          (for_each alphamap
             (fun '(sourcea, targeta, paritya) oc =>
                for_each betamap
                  (fun '(sourceb, targetb, parityb) oc' =>
                     set2 oc' targeta targetb
                       (coeff * C_of_Z paritya
                        * (self_coeff sourcea sourceb * C_of_Z parityb))%C)
                  oc)
             (coeff_of out))).

(** *** Scaling and adding *)

(** numpy's rule for [a += b]: [b] is stretched along every axis where it
    has length 1, any other difference of shape is a [ValueError]. *)
Definition broadcast_to (rows cols brows bcols : nat) (b : Array2)
  : result Array2 :=
  if ((brows =? rows) || (brows =? 1)) && ((bcols =? cols) || (bcols =? 1))
  then Ok (fun p q =>
             b (if brows =? rows then p else 0) (if bcols =? cols then q else 0))
  else Err ValueError.

(** [FqeData.ax_plus_y]. *)
Definition ax_plus_y (sval : complex) (other : FqeData) : method unit :=
  DO self <- get_self;
  CHECK (__hash__ self =? __hash__ other)%Z;
  DO rhs <-
    lift (broadcast_to (lena self) (lenb self) (lena other) (lenb other)
            (scale2 (coeff other) sval));
  set_coeff (add2 (coeff self) rhs).

(* ===================================================================== *)
(** ** Instances as objects *)
(* ===================================================================== *)

(** An attribute of an instance holds a reference.  The store maps a
    reference to the object it names: an index graph, an array, or an
    instance of [FqeData] with its two references. *)
Module store.

Definition ref : Type := nat.

Record instance : Type := mkInstance {
  core_ref : ref;
  low_thresh : Q;
  nele : Z;
  m_s : Z;
  coeff_ref : ref
}.

Inductive object : Type :=
| Graph (g : FciGraph.t)
| NdArray (a : Array2)
| Instance (o : instance).

Abbreviation heap := (gmap ref object).

(** A new object gets a reference that names nothing yet. *)
Definition alloc (h : heap) (o : object) : ref * heap :=
  let l := fresh (dom h) in (l, <[l := o]> h).

Definition get_instance (h : heap) (l : ref) : result instance :=
  match h !! l with
  | Some (Instance o) => Ok o
  | _ => Err KeyError
  end.
Definition get_graph (h : heap) (l : ref) : result FciGraph.t :=
  match h !! l with
  | Some (Graph g) => Ok g
  | _ => Err KeyError
  end.
Definition get_array (h : heap) (l : ref) : result Array2 :=
  match h !! l with
  | Some (NdArray a) => Ok a
  | _ => Err KeyError
  end.

(** The instance named by [self], with its graph and coefficients read
    through its references. *)
Definition value_of (h : heap) (self : ref) : result FqeData :=
  do o <- get_instance h self;
  do g <- get_graph h (core_ref o);
  do a <- get_array h (coeff_ref o);
  Ok (mkFqeData g (low_thresh o) (nele o) (m_s o) a).

(** [FqeData(nalpha, nbeta, norb, fcigraph)]: a supplied graph is kept by
    reference, a missing one is built; the coefficients are a new array of
    zeros. *)
Definition new (nalpha nbeta norb : Z) (fcigraph : option ref) (h : heap)
  : result (ref * heap) :=
  do given <-
    match fcigraph with
    | None => Ok None
    | Some l => do g <- get_graph h l; Ok (Some g)
    end;
  do v <- __init__ nalpha nbeta norb given;
  let '(core, h) :=
    match fcigraph with
    | None => alloc h (Graph (_core v))
    | Some l => (l, h)
    end in
  let '(arr, h) := alloc h (NdArray (coeff v)) in
  let '(self, h) :=
    alloc h (Instance (mkInstance core (_low_thresh v) (_nele v) (_m_s v) arr)) in
  Ok (self, h).

(** [FqeData.get_fcigraph]: the graph object itself. *)
Definition get_fcigraph (self : ref) (h : heap) : result ref :=
  do o <- get_instance h self; Ok (core_ref o).

Definition set_low_thresh (o : instance) (x : Q) : instance :=
  mkInstance (core_ref o) x (nele o) (m_s o) (coeff_ref o).
Definition set_coeff_ref (o : instance) (l : ref) : instance :=
  mkInstance (core_ref o) (low_thresh o) (nele o) (m_s o) l.

(** [FqeData.__copy__]. *)
Definition __copy__ (self : ref) (h : heap) : result (ref * heap) :=
  do o <- get_instance h self;
  do g <- get_graph h (core_ref o);
  do src <- get_array h (coeff_ref o);
  do made <-
    new (Z.of_nat (FciGraph.nalpha g)) (Z.of_nat (FciGraph.nbeta g))
      (Z.of_nat (FciGraph.norb g)) (Some (core_ref o)) h;
  let '(new_data, h) := made in
  do n <- get_instance h new_data;
  (* new_data._low_thresh = self._low_thresh *)
  let n := set_low_thresh n (low_thresh o) in
  let h := <[new_data := Instance n]> h in
  (* new_data.coeff[:, :] = self.coeff[:, :] *)
  do dst <- get_array h (coeff_ref n);
  let h :=
    <[coeff_ref n :=
        NdArray (assign_all (FciGraph.lena g) (FciGraph.lenb g) dst src)]> h in
  Ok (new_data, h).

(** [FqeData.__deepcopy__]. *)
Definition __deepcopy__ (self : ref) (h : heap) : result (ref * heap) :=
  do o <- get_instance h self;
  do g <- get_graph h (core_ref o);
  do src <- get_array h (coeff_ref o);
  do made <-
    new (Z.of_nat (FciGraph.nalpha g)) (Z.of_nat (FciGraph.nbeta g))
      (Z.of_nat (FciGraph.norb g)) (Some (core_ref o)) h;
  let '(new_data, h) := made in
  do n <- get_instance h new_data;
  let n := set_low_thresh n (low_thresh o) in
  let h := <[new_data := Instance n]> h in
  (* new_data.coeff = self.coeff.copy() *)
  let '(arr, h) := alloc h (NdArray src) in
  let h := <[new_data := Instance (set_coeff_ref n arr)]> h in
  Ok (new_data, h).

(** [FqeData.apply_inplace] on an object: the method runs on the instance
    as the store holds it; an assignment to [self.coeff] binds the attribute
    to the array the routine returned. *)
Definition apply_inplace {K : Contractions} (self : ref) (array : list Tensor)
    (h : heap) : result (unit * heap) :=
  do o <- get_instance h self;
  do v <- value_of h self;
  match apply_inplace array v with
  | (Ok _, v') =>
      let '(arr, h) := alloc h (NdArray (coeff v')) in
      Ok (tt, <[self := Instance (set_coeff_ref o arr)]> h)
  | (Err e, _) => Err e
  end.

(** [FqeData.apply]. *)
Definition apply {K : Contractions} (self : ref) (array : list Tensor)
    (h : heap) : result (ref * heap) :=
  do copied <- __deepcopy__ self h;
  let '(out, h) := copied in
  do applied <- apply_inplace out array h;
  Ok (out, snd applied).

(** [FqeData.fill]: [self.coeff.fill(value)] writes into the array object. *)
Definition fill (self : ref) (value : complex) (h : heap) : result (unit * heap) :=
  do o <- get_instance h self;
  do a <- get_array h (coeff_ref o);
  Ok (tt, <[coeff_ref o := NdArray (fun _ _ => value)]> h).

(** [self.coeff[p, q] = value], the write of [FqeData.__setitem__] once the
    two indices are known. *)
Definition setitem (self : ref) (p q : nat) (value : complex) (h : heap)
  : result (unit * heap) :=
  do o <- get_instance h self;
  do a <- get_array h (coeff_ref o);
  Ok (tt, <[coeff_ref o := NdArray (set2 a p q value)]> h).

(** The coefficients of an instance as they are read now. *)
Definition coeff (self : ref) (h : heap) : result Array2 :=
  do o <- get_instance h self; get_array h (coeff_ref o).

End store.

(* ===================================================================== *)
(** ** Sectors and states used below *)
(* ===================================================================== *)

(** The configurations the constructor accepts. *)
Definition valid_config (g : FciGraph.t) : Prop :=
  FciGraph.nalpha g <= FciGraph.norb g /\ FciGraph.nbeta g <= FciGraph.norb g.

(** The trace of a matrix and the partial trace [sum_i rdm2[:, i, i, :]]. *)
Definition trace (n : nat) (a : Array2) : complex := sum_n n (fun i => a i i).
Definition partial_trace (n : nat) (rdm2 : Array4) : Array2 :=
  fun a d => sum_n n (fun i => rdm2 a i i d).

(** An array given by its rows. *)
Definition array_of_rows (rows : list (list complex)) : Array2 :=
  fun p q => nth q (nth p rows []) 0%C.

(** A fresh instance of a sector whose coefficients were set from data. *)
Definition state_of (nalpha nbeta norb : nat) (rows : list (list complex))
  : FqeData :=
  mkFqeData (FciGraph.mk nalpha nbeta norb) (3 # 10)
    (Z.of_nat nalpha + Z.of_nat nbeta) (Z.of_nat nalpha - Z.of_nat nbeta)
    (array_of_rows rows).

(** Two orbitals, one electron of each species, the Hartree-Fock
    determinant: [coeff[0, 0] = 1]. *)
Definition hartree_fock_2 : FqeData :=
  state_of 1 1 2 [[1%C; 0%C]; [0%C; 0%C]].

(** Two orbitals, one alpha electron, amplitudes [3/5] and [4j/5]: a
    normalized state with a complex 1-RDM. *)
Definition one_electron_complex : FqeData :=
  state_of 1 0 2 [[C_of (Qc_of 3 5) 0]; [C_of 0 (Qc_of 4 5)]].

(** Two orbitals, one alpha electron, amplitudes 3 and 5. *)
Definition one_electron_35 : FqeData :=
  state_of 1 0 2 [[C_of_Z 3]; [C_of_Z 5]].

(** The instance a call returned, [self] where it raised. *)
Definition returned (r : result FqeData) (self : FqeData) : FqeData :=
  match r with
  | Ok out => out
  | Err _ => self
  end.

(** [one_electron_35] after the string that moves the alpha electron from
    orbital 0 to orbital 1, with the coefficient 2, and that state after
    the inverse string with the coefficient 7. *)
Definition moved_35 : FqeData :=
  returned (apply_individual_nbody one_electron_35 (C_of_Z 2) [1] [0] [] [])
    one_electron_35.
Definition moved_back_35 : FqeData :=
  returned (apply_individual_nbody moved_35 (C_of_Z 7) [0] [1] [] []) moved_35.

(** The store after [FqeData(1, 1, 2)] on an empty one, with the reference
    of the new instance. *)
Definition fresh_store : store.ref * store.heap :=
  match store.new 1 1 2 None ∅ with
  | Ok made => made
  | Err _ => (0, ∅)
  end.

(** The D-vector with every slice [(i, j)] weighted by the entry [h[i, j]]
    of a 1-body operator: the terms that [numpy.tensordot(h1e, dvec, axes=2)]
    adds up. *)
Definition weight_pairs (h : Array2) (d : Array4) : Array4 :=
  fun i j p q => (h i j * d i j p q)%C.

Definition identity_matrix : Array2 := fun i j => if i =? j then 1%C else 0%C.

(** The round trip of §8: the D-vector of the coefficients, contracted with
    a 1-body operator, folded back by [_calculate_coeff_spatial_with_dvec]. *)
Definition dvec_round_trip (self : FqeData) (h : Array2) : Array2 :=
  _calculate_coeff_spatial_with_dvec self
    (weight_pairs h (calculate_dvec_spatial self)).

(** The orbitals occupied in both strings of a determinant pair. *)
Definition doubly_occupied (self : FqeData) (p q : nat) : nat :=
  length
    (List.filter
       (fun i =>
          bitstring.get_bit (FciGraph.string_alpha (_core self) p) i
          && bitstring.get_bit (FciGraph.string_beta (_core self) q) i)
       (range (norb self))).

(** What [make_mapping_each] computes on one determinant: the string the
    toggling loops leave, and the sign they accumulate. *)
Definition string_image (dag undag : list nat) (s : N) : N :=
  snd (toggle_all bitstring.set_bit dag
         (toggle_all bitstring.unset_bit undag (0, s))).
Definition string_sign (dag undag : list nat) (s : N) : Z :=
  sign_of (fst (toggle_all bitstring.set_bit dag
                  (toggle_all bitstring.unset_bit undag (0, s)))).

(** The determinant pairs on which an excitation string acts. *)
Definition on_support (self : FqeData) (daga undaga dagb undagb : list nat)
    (p q : nat) : bool :=
  string_applies daga undaga (FciGraph.string_alpha (_core self) p)
  && string_applies dagb undagb (FciGraph.string_beta (_core self) q).

(** The sign the two maps of a call give a determinant pair. *)
Definition pair_sign (self : FqeData) (daga undaga dagb undagb : list nat)
    (p q : nat) : complex :=
  (C_of_Z (string_sign daga undaga (FciGraph.string_alpha (_core self) p))
   * C_of_Z (string_sign dagb undagb (FciGraph.string_beta (_core self) q)))%C.

(** The sign the maps of the inverse string give the image of a pair. *)
Definition pair_sign_back (self : FqeData) (daga undaga dagb undagb : list nat)
    (p q : nat) : complex :=
  (C_of_Z (string_sign undaga daga
             (string_image daga undaga (FciGraph.string_alpha (_core self) p)))
   * C_of_Z (string_sign undagb dagb
               (string_image dagb undagb (FciGraph.string_beta (_core self) q))))%C.

(** What the constructor establishes and every method keeps. *)
Definition class_invariant (self : FqeData) : Prop :=
  valid_config (_core self)
  /\ _nele self = (Z.of_nat (nalpha self) + Z.of_nat (nbeta self))%Z
  /\ _m_s self = (Z.of_nat (nalpha self) - Z.of_nat (nbeta self))%Z.

(** [c] is what the routine for the tensors [array] returns on [self]. *)
Definition routine_output {K : Contractions} (self : FqeData)
    (array : list Tensor) (c : Array2) : Prop :=
  match array with
  | [h1e] =>
      _apply_array_spatial1 self h1e = Ok c \/ _apply_array_spin1 self h1e = Ok c
  | [h1e; h2e] =>
      _apply_array_spatial12 self h1e h2e = Ok c
      \/ _apply_array_spin12 self h1e h2e = Ok c
  | [h1e; h2e; h3e] =>
      _apply_array_spatial123 self h1e h2e h3e = Ok c
      \/ _apply_array_spin123 self h1e h2e h3e = Ok c
  | [h1e; h2e; h3e; h4e] =>
      _apply_array_spatial1234 self h1e h2e h3e h4e = Ok c
      \/ _apply_array_spin1234 self h1e h2e h3e h4e = Ok c
  | _ => False
  end.

(** Both occupations strictly below 0.3 times the orbital count. *)
Definition low_filling (self : FqeData) : Prop :=
  (Q_of_nat (nalpha self) < (3 # 10) * Q_of_nat (norb self))%Q
  /\ (Q_of_nat (nbeta self) < (3 # 10) * Q_of_nat (norb self))%Q.

(** An instance in the store, with its graph and its coefficients. *)
Definition allocated (h : store.heap) (self : store.ref) : Prop :=
  exists o g a,
    h !! self = Some (store.Instance o)
    /\ h !! store.core_ref o = Some (store.Graph g)
    /\ h !! store.coeff_ref o = Some (store.NdArray a)
    /\ valid_config g.

(** [new], made from [self] in [h], shares the graph object of [self] and
    nothing else: both return the same graph object, [self] reads the
    coefficients it had, and writing the coefficients of [new], all at once
    or one entry, leaves those of [self] as they were. *)
Definition shares_graph_only (h : store.heap) (self new : store.ref)
    (h' : store.heap) : Prop :=
  exists a g,
    store.coeff self h = Ok a
    /\ store.get_fcigraph self h' = Ok g
    /\ store.get_fcigraph new h' = Ok g
    /\ store.coeff self h' = Ok a
    /\ (forall v, exists h'',
          store.fill new v h' = Ok (tt, h'')
          /\ store.coeff new h'' = Ok (fun _ _ => v)
          /\ store.coeff self h'' = Ok a)
    /\ (forall p q v, exists h'',
          store.setitem new p q v h' = Ok (tt, h'')
          /\ store.coeff self h'' = Ok a).

(** The coefficients of [new] in [h'] are those of [self] in [h], on the
    shape of the sector. *)
Definition same_coefficients (h : store.heap) (self new : store.ref)
    (h' : store.heap) : Prop :=
  exists v a',
    store.value_of h self = Ok v
    /\ store.coeff new h' = Ok a'
    /\ eq_on2 (lena v) (lenb v) a' (coeff v).

(** An instance of the routines that are not modelled, for running the
    modelled code on a concrete state: each one fails. *)
Definition not_available : Contractions :=
  Build_Contractions
    (fun _ _ _ => Err ValueError) (fun _ _ _ => Err ValueError)
    (fun _ _ _ => Err ValueError) (fun _ _ _ => Err ValueError)
    (fun _ _ _ _ => Err ValueError) (fun _ _ _ _ => Err ValueError)
    (fun _ _ _ _ _ => Err ValueError) (fun _ _ _ _ _ => Err ValueError)
    (fun _ _ => Err ValueError).

(* ===================================================================== *)
(** ** Notions the statements use *)
(* ===================================================================== *)

(** The three components of an entry of a map. *)
Definition source_of (e : Entry) : nat := fst (fst e).
Definition target_of (e : Entry) : nat := snd (fst e).
Definition parity_of (e : Entry) : Z := snd e.

(** The D-vector of the coefficients [c]: the single excitation of the pair
    [(i, j)] applied to [c], for both species (§3). *)
Definition dvec_entry (c : Array2) (amap bmap : nat -> nat -> ExcMap)
    (i j P Q : nat) : complex :=
  (sum_list (amap i j) (fun e =>
     if P =? target_of e then c (source_of e) Q * C_of_Z (parity_of e) else 0)
   + sum_list (bmap i j) (fun e =>
       if Q =? target_of e then c P (source_of e) * C_of_Z (parity_of e) else 0))%C.

(** Membership in a list of orbitals, as [i in undag] tests it. *)
Definition mem (i : nat) (l : list nat) : bool := existsb (Nat.eqb i) l.

(** One turn of the loop of [make_mapping_each] over the determinants. *)
Definition mapping_step (strs : list N) (dag undag : list nat) (index : nat)
    (acc : result ExcMap) : result ExcMap :=
  do map_so_far <- acc;
  if string_applies dag undag (nth index strs 0%N) then
    match FciGraph.find_index strs (string_image dag undag (nth index strs 0%N)) 0 with
    | Some target =>
        Ok (map_so_far
              ++ [(index, target, string_sign dag undag (nth index strs 0%N))])
    | None => Err KeyError
    end
  else Ok map_so_far.

(** What a map holds: every determinant on which the string acts, once,
    with its image and its sign. *)
Definition mapping_of (strs : list N) (dag undag : list nat) (k : nat)
    (m : ExcMap) : Prop :=
  (forall idx, idx < k ->
     string_applies dag undag (nth idx strs 0%N) = true ->
     exists t,
       FciGraph.find_index strs (string_image dag undag (nth idx strs 0%N)) 0
       = Some t
       /\ In (idx, t, string_sign dag undag (nth idx strs 0%N)) m)
  /\ (forall e, In e m ->
        source_of e < k
        /\ string_applies dag undag (nth (source_of e) strs 0%N) = true
        /\ FciGraph.find_index strs
             (string_image dag undag (nth (source_of e) strs 0%N)) 0
           = Some (target_of e)
        /\ parity_of e = string_sign dag undag (nth (source_of e) strs 0%N)).

(** The entry of a map that is the last to write a target. *)
Definition last_with_target (m : ExcMap) (t : nat) : option Entry :=
  List.find (fun e => target_of e =? t) (rev m).

(* ===================================================================== *)
(** ** Three properties as the specification words them *)
(* ===================================================================== *)

(** §8: "[apply] with the identity 1-body operator (scaled by s) must return
    coefficients equal to s·(original), for both spatial and spin-orbital
    conventions". *)
Definition spec_apply_identity : Prop :=
  forall (K : Contractions) (self : FqeData) (s : complex) (n : nat),
    valid_config (_core self) ->
    n = norb self \/ n = 2 * norb self ->
    exists out,
      apply self [scaled_identity n s] = Ok out
      /\ eq_on2 (lena self) (lenb self) (coeff out)
           (fun p q => (s * coeff self p q)%C).

(** §8: "[build_dvec] followed by its adjoint [accumulate_from_dvec],
    contracted with the identity operator, reproduces the original
    coefficients exactly": with the identity as the weights of the orbital
    pairs, or with the D-vector folded back as it is. *)
Definition spec_round_trip : Prop :=
  forall self : FqeData,
    valid_config (_core self) ->
    eq_on2 (lena self) (lenb self)
      (dvec_round_trip self identity_matrix) (coeff self)
    \/ eq_on2 (lena self) (lenb self)
         (_calculate_coeff_spatial_with_dvec self (calculate_dvec_spatial self))
         (coeff self).

(** §8: "[apply_individual_nbody] composed with its own inverse string
    (swap creation/annihilation lists) returns the original wavefunction up
    to the product of the two operation's scalar coefficients and signs". *)
Definition spec_inverse_string : Prop :=
  forall (self out1 out2 : FqeData) (c1 c2 : complex)
         (daga undaga dagb undagb : list nat),
    apply_individual_nbody self c1 daga undaga dagb undagb = Ok out1 ->
    apply_individual_nbody out1 c2 undaga daga undagb dagb = Ok out2 ->
    forall p q, p < lena self -> q < lenb self ->
      exists sign : Z,
        (sign = 1 \/ sign = -1)%Z
        /\ coeff out2 p q = (c1 * c2 * C_of_Z sign * coeff self p q)%C.

(* ===================================================================== *)
(** ** More of the class [FqeData] *)
(* ===================================================================== *)

(** Modelled from the spec: [fqe.bitstring.integer_index], not among the
    sources ("occupied-orbital iteration over a bitstring", §6): the
    positions of the set bits of a bitstring, in increasing order. *)
Definition integer_index (s : N) : list nat :=
  List.filter (bitstring.get_bit s) (range (N.to_nat (N.size s))).

(** *** Access by determinant *)

(** [FqeData.__getitem__]: the key is a pair of bitstrings. *)
Definition __getitem__ (self : FqeData) (key : N * N) : result complex :=
  do inda <- FciGraph.index_alpha (_core self) (fst key);
  do indb <- FciGraph.index_beta (_core self) (snd key);
  Ok (coeff self inda indb).

(** [FqeData.__setitem__]. *)
Definition __setitem__ (key : N * N) (value : complex) : method unit :=
  DO self <- get_self;
  DO inda <- lift (FciGraph.index_alpha (_core self) (fst key));
  DO indb <- lift (FciGraph.index_beta (_core self) (snd key));
  set_coeff (set2 (coeff self) inda indb value).

(** [FqeData.generator], as the list of the triples it yields. *)
Definition generator (self : FqeData) : list (N * N * complex) :=
  flat_map
    (fun inda =>
       let alpha_str := FciGraph.string_alpha (_core self) inda in
       map (fun indb =>
              let beta_str := FciGraph.string_beta (_core self) indb in
              (alpha_str, beta_str, coeff self inda indb))
         (range (FciGraph.lenb (_core self))))
    (range (FciGraph.lena (_core self))).

(** *** Diagonal operators *)

(** A one-dimensional array: its [size] and its entries. *)
Record Vector : Type := mkVector { vsize : nat; ventry : nat -> complex }.

(** One of the two loops of [apply_diagonal_inplace] that collect, for every
    determinant of a species, the sum of the entries of [array] at its
    occupied orbitals, shifted by [ptr]:
<<
    for cnf in range(n):
        diag_ele = 0.0
        for ind in integer_index(string(cnf)):
            diag_ele += array[ptr + ind]
        sums.append(diag_ele)
>> *)
Definition diagonal_sums (array : Vector) (ptr : nat) (string_of : nat -> N)
    (n : nat) : list complex :=
  for_each (range n)
    (fun cnf sums =>
       let diag_ele :=
         for_each (integer_index (string_of cnf))
           (fun ind diag_ele => (diag_ele + ventry array (ptr + ind))%C) 0%C in
       sums ++ [diag_ele])
    [].

(** [FqeData.apply_diagonal_inplace]. *)
Definition apply_diagonal_inplace (array : Vector) : method unit :=
  DO self <- get_self;
  DO beta_ptr <-
    lift (if vsize array =? 2 * norb self then Ok (norb self)
          else if negb (vsize array =? norb self) then Err ValueError
          else Ok 0);
  let alpha :=
    diagonal_sums array 0 (FciGraph.string_alpha (_core self))
      (FciGraph.lena (_core self)) in
  let beta :=
    diagonal_sums array beta_ptr (FciGraph.string_beta (_core self))
      (FciGraph.lenb (_core self)) in
  set_coeff
    (for_each (range (FciGraph.lena (_core self)))
       (fun alp_cnf c =>
          for_each (range (FciGraph.lenb (_core self)))
            (fun bet_cnf c' =>
               set2 c' alp_cnf bet_cnf
                 (c' alp_cnf bet_cnf
                  * (nth alp_cnf alpha 0 + nth bet_cnf beta 0))%C)
            c)
       (coeff self)).

(** The diagonal matrix of a vector, as a 1-body tensor. *)
Definition diagonal_tensor (n : nat) (d : nat -> complex) : Tensor :=
  mkTensor [n; n]
    (fun idx => match idx with
                | [i; j] => if i =? j then d i else 0%C
                | _ => 0%C
                end).

(** *** The spin operator *)

(** [d[i, j, t, :] += v] when [alpha], [d[i, j, :, t] += v] otherwise. *)
Definition add_line4 (d : Array4) (i j : nat) (alpha : bool) (t : nat)
    (v : Array1) : Array4 :=
  fun i' j' =>
    if (i' =? i) && (j' =? j) then lib.accumulate alpha t v (d i' j')
    else d i' j'.

(** [FqeData.apply_inplace_s2]. *)
Definition apply_inplace_s2 : method unit :=
  DO self <- get_self;
  let norb := norb self in
  let orig := coeff self in
  let s_z :=
    (C_of_Z (Z.of_nat (nalpha self) - Z.of_nat (nbeta self))
     * C_of (Qc_of 1 2) 0)%C in
  let scaled :=
    scale2 (coeff self) (s_z + s_z * s_z + C_of_nat (nbeta self))%C in
  if negb (nalpha self =? norb) && negb (nbeta self =? 0) then
    let dvec :=
      for_each (range norb)
        (fun i d =>
           for_each (range norb)
             (fun j d' =>
                for_each (alpha_map self i j)
                  (fun '(source, target, parity) d'' =>
                     add_line4 d'' i j true target
                       (fun x => (orig source x * C_of_Z parity)%C))
                  d')
             d)
        zeros4 in
    set_coeff
      (for_each (range norb)
         (fun i c =>
            for_each (range norb)
              (fun j c' =>
                 for_each (beta_map self j i)
                   (fun '(source, target, parity) c'' =>
                      lib.accumulate false source
                        (fun x => (- (dvec j i x target * C_of_Z parity))%C)
                        c'')
                   c')
              c)
         scaled)
  else set_coeff scaled.

(** *** More D-vectors *)

(** [FqeData._calculate_dvec_spin_with_coeff]. *)
Definition _calculate_dvec_spin_with_coeff (self : FqeData) (coeff : Array2)
  : Array4 * Array4 :=
  let norb := norb self in
  let dveca := flatten_pairs norb zeros4 in
  let dvecb := flatten_pairs norb zeros4 in
  let alpha_maps := pair_list norb (fun i j => alpha_map self i j) in
  let beta_maps := pair_list norb (fun i j => beta_map self i j) in
  let dveca :=
    lib._make_dvec dveca coeff alpha_maps (lena self) (lenb self) true in
  let dvecb :=
    lib._make_dvec dvecb coeff beta_maps (lena self) (lenb self) false in
  (unflatten_pairs norb dveca, unflatten_pairs norb dvecb).

(** [FqeData.calculate_dvec_spin]. *)
Definition calculate_dvec_spin (self : FqeData) : Array4 * Array4 :=
  _calculate_dvec_spin_with_coeff self (coeff self).

(** [FqeData._calculate_dvec_spatial_with_coeff_fixed_j]; [jorb] is any
    Python integer. *)
Definition _calculate_dvec_spatial_with_coeff_fixed_j (self : FqeData)
    (coeff : Array2) (jorb : Z) : result Array3 :=
  let norb := norb self in
  check ((jorb <? Z.of_nat norb)%Z && (0 <=? jorb)%Z);
  let dvec := zeros3 in
  let alpha_maps := map (fun i => alpha_map self i (Z.to_nat jorb)) (range norb) in
  let beta_maps := map (fun i => beta_map self i (Z.to_nat jorb)) (range norb) in
  let dvec :=
    lib._make_dvec dvec coeff alpha_maps (lena self) (lenb self) true in
  let dvec :=
    lib._make_dvec dvec coeff beta_maps (lena self) (lenb self) false in
  Ok dvec.

(** [FqeData.calculate_dvec_spatial_fixed_j]. *)
Definition calculate_dvec_spatial_fixed_j (self : FqeData) (jorb : Z)
  : result Array3 :=
  _calculate_dvec_spatial_with_coeff_fixed_j self (coeff self) jorb.

(** [d[k, t, :] += v] when [alpha], [d[k, :, t] += v] otherwise. *)
Definition add_line3 (d : Array3) (k : nat) (alpha : bool) (t : nat)
    (v : Array1) : Array3 :=
  fun k' => if k' =? k then lib.accumulate alpha t v (d k') else d k'.

(** [FqeData.calculate_dvec_spatial_compressed]. *)
Definition calculate_dvec_spatial_compressed (self : FqeData) : Array3 :=
  let norb := norb self in
  for_each (range norb)
    (fun i dvec =>
       for_each (range norb)
         (fun j dvec' =>
            let ijn := Nat.min i j + Nat.max i j * (Nat.max i j + 1) / 2 in
            let dvec'' :=
              for_each (alpha_map self i j)
                (fun '(source, target, parity) d =>
                   add_line3 d ijn true target
                     (fun x => (coeff self source x * C_of_Z parity)%C))
                dvec' in
            for_each (beta_map self i j)
              (fun '(source, target, parity) d =>
                 add_line3 d ijn false target
                   (fun x => (coeff self x source * C_of_Z parity)%C))
              dvec'')
         dvec)
    zeros3.

(** [FqeData.get_spin_opdm]. *)
Definition get_spin_opdm (self : FqeData) : Array2 * Array2 :=
  let '(dveca, dvecb) := calculate_dvec_spin self in
  let alpha_opdm :=
    tensordot42 (lena self) (lenb self) dveca (conj2 (coeff self)) in
  let beta_opdm :=
    tensordot42 (lena self) (lenb self) dvecb (conj2 (coeff self)) in
  (alpha_opdm, beta_opdm).

(** *** Whole-array updates *)

(** [FqeData.conj]; the name [conj] is taken by the pairing of two proofs. *)
Definition conj_ : method unit :=
  DO self <- get_self; set_coeff (conj2 (coeff self)).

(** [FqeData.scale]. *)
Definition scale (sval : complex) : method unit :=
  DO self <- get_self; set_coeff (scale2 (coeff self) sval).

(** [FqeData.fill]. *)
Definition fill (value : complex) : method unit :=
  set_coeff (fun _ _ => value).

(** The [raw_data] of [set_wfn]: [None] is the default [numpy.empty(0)], of
    shape [(0,)]; otherwise a two-dimensional array with its two lengths, as
    the docstring asks for. *)
Definition RawData : Type := option (nat * nat * Array2).

Definition strategy_eqb (a b : option string) : bool :=
  match a, b with
  | None, None => true
  | Some x, Some y => String.eqb x y
  | _, _ => false
  end.

(** [strategy in l]. *)
Definition strategy_in (s : option string)
    (l : list (option string)) : bool :=
  existsb (strategy_eqb s) l.

Definition raise {A : Type} (e : error) : method A := lift (Err e).

(** [FqeData.set_wfn].  [rand_wfn] stands for the array that
    [fqe.util.rand_wfn] (not among the sources) returns for the call. *)
Definition set_wfn (strategy : option string) (raw_data : RawData)
    (rand_wfn : nat -> nat -> Array2) : method unit :=
  DO self <- get_self;
  let strategy_args :=
    [Some "ones"; Some "zero"; Some "random"; Some "from_data";
     Some "hartree-fock"]%string in
  let no_data := match raw_data with None => true | Some _ => false end in
  if strategy_eqb strategy None && no_data then raise ValueError
  else if strategy_eqb strategy (Some "from_data"%string) && no_data
  then raise ValueError
  else if negb no_data
          && negb (strategy_in strategy [Some "from_data"%string; None])
  then raise ValueError
  else if negb (strategy_in strategy strategy_args) then raise ValueError
  else
    DO _ <-
      (match raw_data with
       | Some (rows, cols, _) =>
           if strategy_eqb strategy (Some "from_data"%string)
              && (negb (rows =? lena self) || negb (cols =? lenb self))
           then raise ValueError else m_ret tt
       | None => m_ret tt
       end);
    if strategy_eqb strategy (Some "ones"%string) then fill 1%C
    else if strategy_eqb strategy (Some "zero"%string) then fill 0%C
    else if strategy_eqb strategy (Some "random"%string) then
      set_coeff
        (assign_all (lena self) (lenb self) (coeff self)
           (rand_wfn (lena self) (lenb self)))
    else if strategy_eqb strategy (Some "from_data"%string) then
      match raw_data with
      | Some (_, _, a) => set_coeff a
      | None => m_ret tt
      end
    else if strategy_eqb strategy (Some "hartree-fock"%string) then
      DO _ <- fill 0%C;
      DO self' <- get_self;
      (* self.coeff[0, 0] = 1. *)
      if (0 <? lena self') && (0 <? lenb self')
      then set_coeff (set2 (coeff self') 0 0 1%C)
      else raise IndexError
    else m_ret tt.

(** The instance [FqeData(1, 1, 2)] as the constructor leaves it. *)
Definition hartree_fock_2_zero : FqeData :=
  mkFqeData (FciGraph.mk 1 1 2) (3 # 10) 2 0 zeros2.

(** The sum of the entries of a vector at the orbitals, among the first
    [n], that a bitstring occupies. *)
Definition occupation_sum (d : nat -> complex) (n : nat) (s : N) : complex :=
  sum_n n (fun i => if bitstring.get_bit s i then d i else 0%C).

(** The index of the unordered orbital pair [{i, j}] in the compressed
    D-vector: [min(i, j) + max(i, j) * (max(i, j) + 1) // 2]. *)
Definition pair_index (i j : nat) : nat :=
  Nat.min i j + Nat.max i j * (Nat.max i j + 1) / 2.

(** One orbital holding one electron of each species, with the single
    amplitude 5: a sector of one determinant pair with the electron number
    and the spin projection of [hartree_fock_2]. *)
Definition single_pair_5 : FqeData := state_of 1 1 1 [[C_of_Z 5]].

(** [one_electron_35] after the string that creates and annihilates the
    alpha orbital 0, with the coefficient 2. *)
Definition number_35 : FqeData :=
  returned (apply_individual_nbody one_electron_35 (C_of_Z 2) [0] [0] [] [])
    one_electron_35.

(** Whether the single excitation that moves an electron from orbital [j]
    to orbital [i] takes the determinant of index [s] of a string table to
    the determinant of index [t]. *)
Definition connects (strs : list N) (i j s t : nat) : bool :=
  let x := nth s strs 0%N in
  bitstring.get_bit x j && ((i =? j) || negb (bitstring.get_bit x i))
  && N.eqb (nth t strs 0%N) (bitstring.set_bit (bitstring.unset_bit x j) i).

(** The sign of that excitation on the bitstring [x]. *)
Definition excitation_sign (x : N) (i j : nat) : Z :=
  sign_of (bitstring.count_bits_above x j
           + bitstring.count_bits_above (bitstring.unset_bit x j) i).

(* ===================================================================== *)
(** * Facts *)
(* ===================================================================== *)

(** ** Scalars *)

Lemma Qc_eqb_eq (a b : Qc) : Qc_eqb a b = true <-> a = b.
Proof.
  unfold Qc_eqb. rewrite Qeq_bool_iff. split.
  - apply Qc_is_canon.
  - intros ->. reflexivity.
Qed.

Lemma Ceqb_eq (a b : complex) : Ceqb a b = true <-> a = b.
Proof.
  unfold Ceqb. rewrite andb_true_iff, !Qc_eqb_eq.
  destruct a as [ar ai], b as [br bi]; simpl. split.
  - intros [-> ->]. reflexivity.
  - intros H. inversion H. auto.
Qed.

Lemma Ceqb_refl (a : complex) : Ceqb a a = true.
Proof. apply Ceqb_eq. reflexivity. Qed.

Lemma Ceqb_neq (a b : complex) : Ceqb a b = false <-> a <> b.
Proof.
  split.
  - intros H E. apply Ceqb_eq in E. congruence.
  - intros H. destruct (Ceqb a b) eqn:E; [apply Ceqb_eq in E; contradiction | reflexivity].
Qed.

Lemma complex_ring : ring_theory C0 C1 Cadd Cmul Csub Copp eq.
Proof.
  constructor; intros;
    repeat match goal with x : complex |- _ => destruct x end;
    unfold Cadd, Cmul, Csub, Copp, C0, C1; simpl; try reflexivity;
    f_equal; ring.
Qed.

Add Ring complex_ring_inst : complex_ring.

Lemma Cconj_add (a b : complex) : Cconj (a + b) = (Cconj a + Cconj b)%C.
Proof. destruct a, b. unfold Cconj, Cadd. simpl. f_equal. ring. Qed.

Lemma Cconj_mul (a b : complex) : Cconj (a * b) = (Cconj a * Cconj b)%C.
Proof. destruct a, b. unfold Cconj, Cmul. simpl. f_equal; ring. Qed.

Lemma Cconj_0 : Cconj 0 = 0%C.
Proof. unfold Cconj, C0. simpl. f_equal. Qed.

Lemma Cconj_involutive (a : complex) : Cconj (Cconj a) = a.
Proof. destruct a. unfold Cconj. simpl. f_equal. ring. Qed.

Lemma Cconj_of_Z (z : Z) : Cconj (C_of_Z z) = C_of_Z z.
Proof. unfold Cconj, C_of_Z. simpl. f_equal. Qed.

Lemma C_of_Z_0 : C_of_Z 0 = 0%C.
Proof. apply Ceqb_eq. reflexivity. Qed.

Lemma C_of_Z_1 : C_of_Z 1 = 1%C.
Proof. apply Ceqb_eq. reflexivity. Qed.

Lemma C_of_Z_add (a b : Z) : C_of_Z (a + b) = (C_of_Z a + C_of_Z b)%C.
Proof.
  unfold C_of_Z, Cadd. simpl. f_equal.
  apply Qc_is_canon. unfold Qcplus, Q2Qc. cbn [this].
  rewrite !Qred_correct, inject_Z_plus. reflexivity.
Qed.

Lemma C_of_nat_S (n : nat) : C_of_nat (S n) = (C_of_nat n + 1)%C.
Proof.
  unfold C_of_nat. rewrite Nat2Z.inj_succ, <- Z.add_1_r, C_of_Z_add, C_of_Z_1.
  reflexivity.
Qed.

Lemma C_of_nat_add (a b : nat) : C_of_nat (a + b) = (C_of_nat a + C_of_nat b)%C.
Proof. unfold C_of_nat. rewrite Nat2Z.inj_add. apply C_of_Z_add. Qed.

Lemma sign_of_double (a : nat) : sign_of (a + a) = 1%Z.
Proof.
  unfold sign_of. rewrite Nat2Z.inj_add, Z.pow_add_r by lia.
  rewrite <- Z.pow_mul_l. apply Z.pow_1_l. lia.
Qed.

(** ** Sums *)

Lemma sum_n_ext (n : nat) (f g : nat -> complex) :
  (forall i, i < n -> f i = g i) -> sum_n n f = sum_n n g.
Proof.
  induction n as [|n IH]; intros H; simpl; [reflexivity|].
  rewrite IH by (intros; apply H; lia). rewrite H by lia. reflexivity.
Qed.

Lemma sum_n_zero (n : nat) : sum_n n (fun _ => 0%C) = 0%C.
Proof. induction n as [|n IH]; simpl; [reflexivity|]. rewrite IH. ring. Qed.

Lemma sum_n_add (n : nat) (f g : nat -> complex) :
  sum_n n (fun i => (f i + g i)%C) = (sum_n n f + sum_n n g)%C.
Proof. induction n as [|n IH]; simpl; [ring|]. rewrite IH. ring. Qed.

Lemma sum_n_scale (n : nat) (c : complex) (f : nat -> complex) :
  sum_n n (fun i => (c * f i)%C) = (c * sum_n n f)%C.
Proof. induction n as [|n IH]; simpl; [ring|]. rewrite IH. ring. Qed.

Lemma sum_n_conj (n : nat) (f : nat -> complex) :
  Cconj (sum_n n f) = sum_n n (fun i => Cconj (f i)).
Proof.
  induction n as [|n IH]; simpl; [apply Cconj_0|].
  rewrite Cconj_add, IH. reflexivity.
Qed.

Lemma sum_n_swap (n m : nat) (f : nat -> nat -> complex) :
  sum_n n (fun i => sum_n m (fun j => f i j))
  = sum_n m (fun j => sum_n n (fun i => f i j)).
Proof.
  induction n as [|n IH]; simpl.
  - rewrite sum_n_zero. reflexivity.
  - rewrite IH, <- sum_n_add. reflexivity.
Qed.

(** A sum with a single live index. *)
Lemma sum_n_single (n t : nat) (g : nat -> complex) :
  sum_n n (fun p => if t =? p then g p else 0%C)
  = if t <? n then g t else 0%C.
Proof.
  induction n as [|n IH]; simpl; [reflexivity|].
  rewrite IH. destruct (Nat.eqb_spec t n) as [->|Hne].
  - rewrite Nat.ltb_irrefl. replace (n <? S n) with true by (symmetry; apply Nat.ltb_lt; lia). ring.
  - destruct (Nat.ltb_spec t n), (Nat.ltb_spec t (S n)); try lia; ring.
Qed.

(** Counting the indices that pass a test. *)
Lemma C_of_nat_0 : C_of_nat 0 = 0%C.
Proof. apply Ceqb_eq. reflexivity. Qed.

Lemma C_of_nat_1 : C_of_nat 1 = 1%C.
Proof. apply Ceqb_eq. reflexivity. Qed.

Lemma sum_n_count (n : nat) (b : nat -> bool) (x : complex) :
  sum_n n (fun i => if b i then x else 0%C)
  = (C_of_nat (length (List.filter b (range n))) * x)%C.
Proof.
  unfold range. induction n as [|n IH].
  - cbn [sum_n seq List.filter length]. rewrite C_of_nat_0. ring.
  - cbn [sum_n]. rewrite IH, seq_S, List.filter_app, length_app.
    cbn [List.filter Nat.add]. destruct (b n); cbn [length].
    + rewrite C_of_nat_add, C_of_nat_1. ring.
    + rewrite Nat.add_0_r. ring.
Qed.

(** A sum over [m * n] indices is a double sum. *)
Lemma sum_n_shift (a n : nat) (f : nat -> complex) :
  sum_n (a + n) f = (sum_n a f + sum_n n (fun j => f (a + j)%nat))%C.
Proof.
  induction n as [|n IH].
  - rewrite Nat.add_0_r. cbn [sum_n]. ring.
  - rewrite Nat.add_succ_r. cbn [sum_n]. rewrite IH. ring.
Qed.

Lemma sum_n_mul (m n : nat) (f : nat -> complex) :
  sum_n (m * n) f = sum_n m (fun i => sum_n n (fun j => f (i * n + j))).
Proof.
  induction m as [|m IH]; [reflexivity|].
  cbn [sum_n]. rewrite <- IH.
  replace (S m * n) with (m * n + n) by lia.
  apply sum_n_shift.
Qed.

Lemma for_each_ext {A S : Type} (l : list A) (f g : A -> S -> S) (s : S) :
  (forall a s', f a s' = g a s') -> for_each l f s = for_each l g s.
Proof.
  intros H. unfold for_each. revert s.
  induction l as [|a l IH]; intros s; simpl; [reflexivity|].
  rewrite H. apply IH.
Qed.

Lemma for_each_app {A S : Type} (l1 l2 : list A) (f : A -> S -> S) (s : S) :
  for_each (l1 ++ l2) f s = for_each l2 f (for_each l1 f s).
Proof. unfold for_each. apply fold_left_app. Qed.

Lemma sum_list_from {A : Type} (l : list A) (f : A -> complex) (acc : complex) :
  fold_left (fun acc a => (acc + f a)%C) l acc = (acc + sum_list l f)%C.
Proof.
  unfold sum_list. revert acc.
  induction l as [|a l IH]; intros acc; simpl; [ring|].
  rewrite IH, (IH (0 + f a)%C). ring.
Qed.

Lemma sum_list_nil {A : Type} (f : A -> complex) : sum_list [] f = 0%C.
Proof. reflexivity. Qed.

Lemma sum_list_cons {A : Type} (a : A) (l : list A) (f : A -> complex) :
  sum_list (a :: l) f = (f a + sum_list l f)%C.
Proof. unfold sum_list at 1. simpl. rewrite sum_list_from. ring. Qed.

Lemma sum_list_app {A : Type} (l1 l2 : list A) (f : A -> complex) :
  sum_list (l1 ++ l2) f = (sum_list l1 f + sum_list l2 f)%C.
Proof.
  induction l1 as [|a l1 IH]; simpl.
  - rewrite sum_list_nil. ring.
  - rewrite !sum_list_cons, IH. ring.
Qed.

Lemma sum_list_ext {A : Type} (l : list A) (f g : A -> complex) :
  (forall a, In a l -> f a = g a) -> sum_list l f = sum_list l g.
Proof.
  induction l as [|a l IH]; intros H; [reflexivity|].
  rewrite !sum_list_cons, IH, H; [reflexivity | now left | intros; apply H; now right].
Qed.

Lemma sum_list_zero {A : Type} (l : list A) (f : A -> complex) :
  (forall a, In a l -> f a = 0%C) -> sum_list l f = 0%C.
Proof.
  induction l as [|a l IH]; intros H; [reflexivity|].
  rewrite sum_list_cons, IH, H; [ring | now left | intros; apply H; now right].
Qed.

Lemma sum_list_add {A : Type} (l : list A) (f g : A -> complex) :
  sum_list l (fun a => (f a + g a)%C) = (sum_list l f + sum_list l g)%C.
Proof.
  induction l as [|a l IH]; [rewrite !sum_list_nil; ring|].
  rewrite !sum_list_cons, IH. ring.
Qed.

Lemma sum_list_scale {A : Type} (l : list A) (c : complex) (f : A -> complex) :
  sum_list l (fun a => (c * f a)%C) = (c * sum_list l f)%C.
Proof.
  induction l as [|a l IH]; [rewrite !sum_list_nil; ring|].
  rewrite !sum_list_cons, IH. ring.
Qed.

Lemma sum_list_flat_map {A B : Type} (g : A -> list B) (l : list A)
    (f : B -> complex) :
  sum_list (flat_map g l) f = sum_list l (fun a => sum_list (g a) f).
Proof.
  induction l as [|a l IH]; [reflexivity|].
  simpl. rewrite sum_list_app, sum_list_cons, IH. reflexivity.
Qed.

Lemma sum_list_map {A B : Type} (g : A -> B) (l : list A) (f : B -> complex) :
  sum_list (map g l) f = sum_list l (fun a => f (g a)).
Proof.
  induction l as [|a l IH]; [reflexivity|].
  simpl. rewrite !sum_list_cons, IH. reflexivity.
Qed.

Lemma sum_list_filter {A : Type} (b : A -> bool) (l : list A) (f : A -> complex) :
  sum_list (List.filter b l) f = sum_list l (fun a => if b a then f a else 0%C).
Proof.
  induction l as [|a l IH]; [reflexivity|].
  simpl. rewrite sum_list_cons. destruct (b a).
  - rewrite sum_list_cons, IH. reflexivity.
  - rewrite IH. ring.
Qed.

Lemma sum_list_seq (a n : nat) (f : nat -> complex) :
  sum_list (seq a n) f = sum_n n (fun i => f (a + i)).
Proof.
  revert a. induction n as [|n IH]; intros a; [reflexivity|].
  rewrite seq_S, sum_list_app, IH, sum_list_cons, sum_list_nil.
  cbn [sum_n]. ring.
Qed.

Lemma sum_list_range (n : nat) (f : nat -> complex) :
  sum_list (range n) f = sum_n n f.
Proof. unfold range. rewrite sum_list_seq. reflexivity. Qed.

Lemma sum_n_front (n : nat) (g : nat -> complex) :
  sum_n (S n) g = (g 0%nat + sum_n n (fun k => g (S k)))%C.
Proof.
  induction n as [|n IH]; [cbn; ring|].
  change (sum_n (S (S n)) g) with (sum_n (S n) g + g (S n))%C.
  rewrite IH. cbn [sum_n]. ring.
Qed.

(** A sum over an enumerated list. *)
Lemma sum_list_enumerate {A : Type} (d : A) (l : list A) (a : nat)
    (F : nat * A -> complex) :
  sum_list (combine (seq a (length l)) l) F
  = sum_n (length l) (fun k => F ((a + k)%nat, nth k l d)).
Proof.
  revert a. induction l as [|x l IH]; intros a; [reflexivity|].
  cbn [length seq combine]. rewrite sum_list_cons, IH, sum_n_front.
  cbn [nth]. rewrite Nat.add_0_r. f_equal.
  apply sum_n_ext. intros k _. rewrite Nat.add_succ_r. reflexivity.
Qed.

(** ** The kernels as sums *)

(** Scattering through a list adds, at every entry, the signed lines whose
    target is the entry's row (or column). *)
Lemma for_each_accumulate {E : Type} (alpha : bool) (m : list E)
    (tg : E -> nat) (val : E -> Array1) (out : Array2) (p q : nat) :
  for_each m (fun e o => lib.accumulate alpha (tg e) (val e) o) out p q
  = (out p q
     + sum_list m (fun e =>
         if (if alpha then p else q) =? tg e
         then val e (if alpha then q else p) else 0))%C.
Proof.
  revert out. induction m as [|e m IH]; intros out.
  - cbn [for_each fold_left]. rewrite sum_list_nil. ring.
  - change (for_each (e :: m) ?f out) with (for_each m f (lib.accumulate alpha (tg e) (val e) out)).
    rewrite IH, sum_list_cons. unfold lib.accumulate.
    destruct alpha.
    + destruct (p =? tg e); ring.
    + destruct (q =? tg e); ring.
Qed.

Lemma for_each_add2 {E : Type} (l : list E) (G : E -> Array2) (r : Array2)
    (i j : nat) :
  for_each l (fun x acc => add2 acc (G x)) r i j
  = (r i j + sum_list l (fun x => G x i j))%C.
Proof.
  revert r. induction l as [|x l IH]; intros r.
  - cbn [for_each fold_left]. rewrite sum_list_nil. ring.
  - change (for_each (x :: l) ?f r) with (for_each l f (add2 r (G x))).
    rewrite IH, sum_list_cons. unfold add2. ring.
Qed.

(** ** Bitstrings *)

Section Bits.
Import bitstring.

Lemma set_unset_bit (s : N) (i : nat) :
  get_bit s i = true -> set_bit (unset_bit s i) i = s.
Proof.
  unfold get_bit, set_bit, unset_bit. intros H.
  apply N.bits_inj. intros k.
  rewrite N.setbit_eqb, N.clearbit_eqb.
  destruct (N.eqb_spec (N.of_nat i) k) as [<-|Hne]; simpl.
  - symmetry. exact H.
  - apply andb_true_r.
Qed.

Lemma count_bits_above_unset (s : N) (i : nat) :
  count_bits_above (unset_bit s i) i = count_bits_above s i.
Proof.
  unfold count_bits_above, unset_bit. f_equal.
  apply N.bits_inj. intros k.
  rewrite !N.shiftr_spec by apply N.le_0_l.
  rewrite N.clearbit_eqb.
  destruct (N.eqb_spec (N.of_nat i) (k + N.of_nat (S i))) as [E|_]; [lia|].
  apply andb_true_r.
Qed.

Lemma count_bits_div2 (s : N) :
  count_bits s = (if N.testbit s 0 then 1 else 0) + count_bits (N.div2 s).
Proof. destruct s as [|[p|p|]]; reflexivity. Qed.

Lemma get_bit_S (s : N) (k : nat) : get_bit s (S k) = get_bit (N.div2 s) k.
Proof.
  unfold get_bit. rewrite N.div2_spec, N.shiftr_spec by apply N.le_0_l.
  f_equal. lia.
Qed.

(** The occupied orbitals among the first [n] are all the set bits of a
    string of [n] bits. *)
Lemma count_occupied (n : nat) (s : N) :
  (s < 2 ^ N.of_nat n)%N ->
  length (List.filter (get_bit s) (range n)) = count_bits s.
Proof.
  unfold range. revert s. induction n as [|n IH]; intros s Hs.
  - assert (s = 0%N) as -> by (simpl in Hs; lia). reflexivity.
  - cbn [seq List.filter]. rewrite <- seq_shift, count_bits_div2.
    assert (Hd : (N.div2 s < 2 ^ N.of_nat n)%N).
    { rewrite N.div2_div. apply N.Div0.div_lt_upper_bound.
      rewrite Nat2N.inj_succ, N.pow_succ_r' in Hs. lia. }
    assert (Hf : length (List.filter (get_bit s) (map S (seq 0 n)))
                 = length (List.filter (get_bit (N.div2 s)) (seq 0 n))).
    { clear. induction (seq 0 n) as [|x l IHl]; [reflexivity|].
      cbn [map List.filter]. rewrite get_bit_S.
      destruct (get_bit (N.div2 s) x); cbn [length]; rewrite IHl; reflexivity. }
    unfold get_bit at 1. change (N.of_nat 0) with 0%N.
    destruct (N.testbit s 0); cbn [length]; rewrite Hf, IH by exact Hd; reflexivity.
Qed.

End Bits.

(** ** The index graph *)

Lemma strings_NoDup (norb nele : nat) : List.NoDup (FciGraph.strings norb nele).
Proof.
  unfold FciGraph.strings. apply List.NoDup_filter.
  apply Finite.Injective_map_NoDup; [|apply seq_NoDup].
  intros x y H. apply Nat2N.inj. exact H.
Qed.

Lemma strings_spec (norb nele : nat) (s : N) :
  In s (FciGraph.strings norb nele) ->
  bitstring.count_bits s = nele /\ (s < 2 ^ N.of_nat norb)%N.
Proof.
  unfold FciGraph.strings. rewrite filter_In, in_map_iff.
  intros [[k [<- Hk]] Hc]. apply in_seq in Hk. split.
  - apply Nat.eqb_eq. exact Hc.
  - replace (2 ^ N.of_nat norb)%N with (N.of_nat (2 ^ norb)); [lia|].
    rewrite Nat2N.inj_pow. reflexivity.
Qed.

(** Every determinant of a sector has [nele] of its [norb] orbitals
    occupied. *)
Lemma strings_occupation (norb nele p : nat) :
  p < length (FciGraph.strings norb nele) ->
  length (List.filter (bitstring.get_bit (nth p (FciGraph.strings norb nele) 0%N))
            (range norb)) = nele.
Proof.
  intros Hp.
  destruct (strings_spec norb nele (nth p (FciGraph.strings norb nele) 0%N))
    as [Hc Hb]; [apply nth_In; exact Hp|].
  rewrite count_occupied by exact Hb. exact Hc.
Qed.

Lemma find_index_nth (strs : list N) (p k : nat) :
  List.NoDup strs -> p < length strs ->
  FciGraph.find_index strs (nth p strs 0%N) k = Some (k + p).
Proof.
  revert p k. induction strs as [|x l IH]; intros p k Hnd Hp; [simpl in Hp; lia|].
  inversion Hnd as [|? ? Hx Hl]; subst.
  destruct p as [|p]; cbn [nth FciGraph.find_index].
  - rewrite N.eqb_refl. f_equal. lia.
  - destruct (N.eqb_spec x (nth p l 0%N)) as [E|_].
    + exfalso. apply Hx. rewrite E. apply nth_In. simpl in Hp. lia.
    + rewrite IH by (auto; simpl in Hp; lia). f_equal. lia.
Qed.

(** The map of the pair [(i, i)] sends every determinant that has [i]
    occupied to itself, with sign [+1]. *)
Lemma build_mapping_diagonal (strs : list N) (i : nat) (F : Entry -> complex) :
  List.NoDup strs ->
  sum_list (FciGraph.build_mapping strs i i) F
  = sum_n (length strs) (fun p =>
      if bitstring.get_bit (nth p strs 0%N) i then F (p, p, 1%Z) else 0%C).
Proof.
  intros Hnd. unfold FciGraph.build_mapping.
  rewrite sum_list_flat_map, (sum_list_enumerate 0%N).
  apply sum_n_ext. intros p Hp. cbn [Nat.add].
  rewrite Nat.eqb_refl, orb_true_l, andb_true_r.
  destruct (bitstring.get_bit (nth p strs 0%N) i) eqn:Hb; [|reflexivity].
  rewrite set_unset_bit by exact Hb.
  rewrite find_index_nth by assumption. cbn [Nat.add].
  rewrite count_bits_above_unset, sign_of_double.
  rewrite sum_list_cons, sum_list_nil. ring.
Qed.

(** ** The 1-body contraction *)

Lemma accumulate_at (alpha : bool) (t : nat) (v : Array1) (o : Array2)
    (p q : nat) :
  lib.accumulate alpha t v o p q
  = (o p q
     + (if (if alpha then p else q) =? t then v (if alpha then q else p)
        else 0))%C.
Proof.
  unfold lib.accumulate. destruct alpha.
  - destruct (p =? t); ring.
  - destruct (q =? t); ring.
Qed.

(** A loop whose every turn adds a term to an entry adds their sum. *)
Lemma for_each_sum {E : Type} (l : list E) (body : E -> Array2 -> Array2)
    (G : E -> complex) (out : Array2) (p q : nat) :
  (forall e o, body e o p q = (o p q + G e)%C) ->
  for_each l body out p q = (out p q + sum_list l G)%C.
Proof.
  intros H. revert out. induction l as [|e l IH]; intros out.
  - cbn [for_each fold_left]. rewrite sum_list_nil. ring.
  - change (for_each (e :: l) body out) with (for_each l body (body e out)).
    rewrite IH, H, sum_list_cons. ring.
Qed.


Lemma _lm_apply_array1_sum (coeff h1e : Array2) (dexc : nat -> nat -> ExcMap)
    (lena lenb norb : nat) (alpha : bool) (out : option Array2) (p q : nat) :
  lib._lm_apply_array1 coeff h1e dexc lena lenb norb alpha out p q
  = ((match out with Some o => o | None => zeros2 end) p q
     + sum_n norb (fun i => sum_n norb (fun j =>
         sum_list (dexc i j) (fun e =>
           if (if alpha then p else q) =? target_of e
           then h1e i j
                * (lib.line alpha coeff (source_of e) (if alpha then q else p)
                   * C_of_Z (parity_of e))
           else 0))))%C.
Proof.
  unfold lib._lm_apply_array1.
  rewrite <- sum_list_range.
  apply for_each_sum. intros i o.
  rewrite <- sum_list_range.
  apply for_each_sum. intros j o'.
  apply for_each_sum. intros [[s t] par] o''.
  rewrite accumulate_at. reflexivity.
Qed.

(** The contraction of the single excitations of a species with [s] times
    the identity multiplies a line by [s] times its occupation. *)
Lemma identity_contraction (strs : list N) (n t : nat) (s : complex)
    (h : Array2) (X : nat -> complex) :
  List.NoDup strs -> t < length strs ->
  (forall i j, i < n -> j < n -> h i j = if i =? j then s else 0%C) ->
  sum_n n (fun i => sum_n n (fun j =>
    sum_list (FciGraph.build_mapping strs i j) (fun e =>
      if t =? target_of e
      then (h i j * (X (source_of e) * C_of_Z (parity_of e)))%C
      else 0%C)))
  = (s * C_of_nat (length (List.filter (bitstring.get_bit (nth t strs 0%N)) (range n)))
     * X t)%C.
Proof.
  intros Hnd Ht Hh.
  transitivity
    (sum_n n (fun i =>
       if bitstring.get_bit (nth t strs 0%N) i then (s * X t)%C else 0%C)).
  - apply sum_n_ext. intros i Hi.
    transitivity
      (sum_n n (fun j =>
         if i =? j
         then (if bitstring.get_bit (nth t strs 0%N) j then (s * X t)%C else 0%C)
         else 0%C)).
    + apply sum_n_ext. intros j Hj.
      rewrite Hh by assumption.
      destruct (Nat.eqb_spec i j) as [<-|Hne].
      * rewrite build_mapping_diagonal by exact Hnd.
        unfold target_of, source_of, parity_of. cbn [fst snd].
        rewrite sum_n_ext
          with (g := fun p => if t =? p
                              then (if bitstring.get_bit (nth p strs 0%N) i
                                    then (s * X p)%C else 0%C)
                              else 0%C).
        -- rewrite sum_n_single.
           replace (t <? length strs) with true
             by (symmetry; apply Nat.ltb_lt; exact Ht).
           reflexivity.
        -- intros p _. rewrite C_of_Z_1.
           destruct (bitstring.get_bit (nth p strs 0%N) i), (t =? p);
             try reflexivity; ring.
      * apply sum_list_zero. intros e _.
        destruct (t =? target_of e); [ring | reflexivity].
    + rewrite sum_n_single.
      replace (i <? n) with true by (symmetry; apply Nat.ltb_lt; exact Hi).
      reflexivity.
  - rewrite sum_n_count. ring.
Qed.

Lemma scaled_identity_entry (n : nat) (s : complex) (i j : nat) :
  matrix_of (scaled_identity n s) i j = if i =? j then s else 0%C.
Proof. reflexivity. Qed.

Lemma shape_eqb_refl (a : list nat) : shape_eqb a a = true.
Proof. unfold shape_eqb. apply bool_decide_eq_true_2. reflexivity. Qed.

(** The dense 1-body code on [s] times the identity, for one species read by
    rows. *)
Lemma _lm_apply_array1_identity (g_strs : list N) (n nele : nat)
    (coeff h : Array2) (s : complex) (la lb : nat) (alpha : bool)
    (out : option Array2) (p q : nat) :
  g_strs = FciGraph.strings n nele ->
  (forall i j, i < n -> j < n -> h i j = if i =? j then s else 0%C) ->
  (if alpha then p else q) < length g_strs ->
  lib._lm_apply_array1 coeff h (FciGraph.build_mapping g_strs) la lb n alpha out p q
  = ((match out with Some o => o | None => zeros2 end) p q
     + s * C_of_nat nele * coeff p q)%C.
Proof.
  intros -> Hh Ht.
  rewrite _lm_apply_array1_sum. f_equal.
  rewrite (@identity_contraction (FciGraph.strings n nele) n
             (if alpha then p else q) s h
             (fun x => lib.line alpha coeff x (if alpha then q else p)))
    by (auto using strings_NoDup).
  rewrite strings_occupation by exact Ht.
  destruct alpha; reflexivity.
Qed.

Lemma _apply_array_spatial1_identity (self : FqeData) (s : complex) :
  exists c,
    _apply_array_spatial1 self (scaled_identity (norb self) s) = Ok c
    /\ eq_on2 (lena self) (lenb self) c
         (fun p q => (s * C_of_nat (nalpha self + nbeta self) * coeff self p q)%C).
Proof.
  unfold _apply_array_spatial1. cbn [shape scaled_identity].
  rewrite shape_eqb_refl. cbn [assert_ rbind].
  destruct (scan_columns _ _ 0 0) as [ncol jorb].
  eexists. split; [destruct (1 <? ncol); reflexivity|].
  intros p q Hp Hq. unfold add2, transpose, FciGraph._dexca, FciGraph._dexcb,
    FciGraph.alpha_map, FciGraph.beta_map.
  rewrite (@_lm_apply_array1_identity _ (norb self) (nalpha self) _ _ s)
    by (try reflexivity; auto using scaled_identity_entry).
  rewrite (@_lm_apply_array1_identity _ (norb self) (nbeta self) _ _ s)
    by (try reflexivity; auto using scaled_identity_entry).
  unfold zeros2. rewrite C_of_nat_add. ring.
Qed.

Lemma any_column_identity (n : nat) (s : complex) (j : nat) :
  any_column n (matrix_of (scaled_identity n s)) j
  = (j <? n) && negb (Ceqb s 0%C).
Proof.
  unfold any_column.
  destruct (Ceqb s 0%C) eqn:Hs.
  - rewrite andb_false_r. apply not_true_is_false. intros H.
    apply existsb_exists in H. destruct H as [i [_ Hi]]. cbv beta in Hi.
    rewrite scaled_identity_entry in Hi.
    destruct (i =? j); [rewrite Hs in Hi | rewrite Ceqb_refl in Hi]; discriminate.
  - rewrite andb_true_r. destruct (Nat.ltb_spec j n) as [Hj|Hj].
    + apply existsb_exists. exists j. split.
      * apply in_seq. lia.
      * rewrite scaled_identity_entry, Nat.eqb_refl, Hs. reflexivity.
    + apply not_true_is_false. intros H.
      apply existsb_exists in H. destruct H as [i [Hi Hc]]. cbv beta in Hc.
      apply in_seq in Hi. rewrite scaled_identity_entry in Hc.
      destruct (Nat.eqb_spec i j) as [->|_]; [lia|].
      rewrite Ceqb_refl in Hc. discriminate.
Qed.

(** Two populated columns end the scan. *)
Lemma scan_columns_identity (n : nat) (s : complex) :
  2 <= n -> s <> 0%C ->
  scan_columns (any_column n (matrix_of (scaled_identity n s))) (range n) 0 0
  = (2, 1).
Proof.
  intros Hn Hs. apply Ceqb_neq in Hs.
  destruct n as [|[|n]]; try lia.
  unfold range. cbn [seq scan_columns].
  rewrite !any_column_identity, Hs. reflexivity.
Qed.

Lemma scan_columns_none (populated : nat -> bool) (js : list nat)
    (ncol jorb : nat) :
  (forall j, populated j = false) -> ncol <= 1 ->
  scan_columns populated js ncol jorb = (ncol, jorb).
Proof.
  intros H Hn. induction js as [|j js IH]; [reflexivity|].
  cbn [scan_columns]. rewrite H.
  replace (1 <? ncol) with false by (symmetry; apply Nat.ltb_ge; exact Hn).
  exact IH.
Qed.

Lemma _apply_array_spin1_identity (self : FqeData) (s : complex) :
  0 < norb self ->
  exists c,
    _apply_array_spin1 self (scaled_identity (2 * norb self) s) = Ok c
    /\ eq_on2 (lena self) (lenb self) c
         (fun p q => (s * C_of_nat (nalpha self + nbeta self) * coeff self p q)%C).
Proof.
  intros Hn. unfold _apply_array_spin1.
  replace (norb self * 2) with (2 * norb self) by lia.
  cbn [shape scaled_identity].
  rewrite shape_eqb_refl. cbn [assert_ rbind].
  change (mkTensor [2 * norb self; 2 * norb self] _)
    with (scaled_identity (2 * norb self) s).
  destruct (Ceqb s 0%C) eqn:Hs.
  - (* the zero operator: no populated column, the fixed-column code *)
    apply Ceqb_eq in Hs. subst s.
    rewrite scan_columns_none
      by (try lia; intros j; rewrite any_column_identity, Ceqb_refl;
          apply andb_false_r).
    cbv beta iota. change (1 <? 0) with false. cbv beta iota.
    unfold calculate_dvec_spin_fixed_j, _calculate_dvec_spin_with_coeff_fixed_j.
    replace (0 <? norb self * 2) with true by (symmetry; apply Nat.ltb_lt; lia).
    cbn [assert_ rbind].
    eexists. split; [reflexivity|].
    intros p q _ _. unfold tensordot13.
    replace (0 <? norb self) with true by (symmetry; apply Nat.ltb_lt; lia).
    rewrite sum_n_ext with (g := fun _ => 0%C).
    + rewrite sum_n_zero. ring.
    + intros i _. rewrite scaled_identity_entry.
      destruct (i =? 0); ring.
  - apply Ceqb_neq in Hs.
    rewrite scan_columns_identity by (auto; lia).
    cbv beta iota. change (1 <? 2) with true. cbv beta iota.
    eexists. split; [reflexivity|].
    intros p q Hp Hq. unfold FciGraph._dexca, FciGraph._dexcb,
      FciGraph.alpha_map, FciGraph.beta_map.
    rewrite (@_lm_apply_array1_identity _ (norb self) (nbeta self) _ _ s);
      [| reflexivity | | exact Hq].
    + cbn match.
      rewrite (@_lm_apply_array1_identity _ (norb self) (nalpha self) _ _ s);
        [| reflexivity | | exact Hp].
      * unfold zeros2. rewrite C_of_nat_add. ring.
      * intros i j Hi Hj. apply scaled_identity_entry.
    + intros i j Hi Hj. unfold slice2. rewrite scaled_identity_entry.
      destruct (Nat.eqb_spec i j) as [->|Hne].
      * rewrite Nat.eqb_refl. reflexivity.
      * replace (norb self + i =? norb self + j) with false
          by (symmetry; apply Nat.eqb_neq; lia).
        reflexivity.
Qed.

(** ** [apply] with [s] times the identity *)

Lemma validate_config_valid (g : FciGraph.t) :
  valid_config g ->
  validate_config (Z.of_nat (FciGraph.nalpha g)) (Z.of_nat (FciGraph.nbeta g))
    (Z.of_nat (FciGraph.norb g)) = Ok tt.
Proof.
  intros [Ha Hb]. unfold validate_config.
  repeat match goal with
         | |- context [(?a <? ?b)%Z] =>
             let E := fresh in destruct (Z.ltb_spec a b) as [E|E]; try lia
         end.
  reflexivity.
Qed.

Lemma __init___same_graph (g : FciGraph.t) :
  valid_config g ->
  __init__ (Z.of_nat (FciGraph.nalpha g)) (Z.of_nat (FciGraph.nbeta g))
    (Z.of_nat (FciGraph.norb g)) (Some g)
  = Ok (mkFqeData g (3 # 10)
          (Z.of_nat (FciGraph.nalpha g) + Z.of_nat (FciGraph.nbeta g))
          (Z.of_nat (FciGraph.nalpha g) - Z.of_nat (FciGraph.nbeta g))
          zeros2).
Proof.
  intros Hv. unfold __init__. rewrite validate_config_valid by exact Hv.
  cbn [rbind]. rewrite !Z.eqb_refl. reflexivity.
Qed.

Lemma __deepcopy___value (self : FqeData) :
  valid_config (_core self) ->
  __deepcopy__ self
  = Ok (mkFqeData (_core self) (_low_thresh self)
          (Z.of_nat (nalpha self) + Z.of_nat (nbeta self))
          (Z.of_nat (nalpha self) - Z.of_nat (nbeta self))
          (coeff self)).
Proof.
  intros Hv. unfold __deepcopy__. rewrite __init___same_graph by exact Hv.
  reflexivity.
Qed.

(** The single-tensor branch of [apply_inplace]. *)
Lemma apply_inplace_1body {K : Contractions} (self : FqeData) (h1e : Tensor)
    (d0 : nat) (rest : list nat) :
  shape h1e = d0 :: rest ->
  apply_inplace [h1e] self
  = match (if d0 =? norb self then _apply_array_spatial1 self h1e
           else _apply_array_spin1 self h1e) with
    | Ok c => (Ok tt, with_coeff self c)
    | Err e => (Err e, self)
    end.
Proof.
  intros Hs. unfold apply_inplace, m_bind, lift, get_self, set_coeff, dim, item.
  cbn [length Nat.ltb Nat.leb andb assert_ nth_error Nat.eqb].
  rewrite Hs. cbn [nth_error].
  destruct (d0 =? norb self).
  - destruct (_apply_array_spatial1 self h1e); reflexivity.
  - destruct (_apply_array_spin1 self h1e); reflexivity.
Qed.

Lemma apply_scaled_identity_value {K : Contractions} (self : FqeData)
    (s : complex) (n : nat) :
  valid_config (_core self) ->
  n = norb self \/ n = 2 * norb self ->
  exists out,
    apply self [scaled_identity n s] = Ok out
    /\ _core out = _core self
    /\ eq_on2 (lena self) (lenb self) (coeff out)
         (fun p q =>
            (s * C_of_nat (nalpha self + nbeta self) * coeff self p q)%C).
Proof.
  intros Hv Hn. unfold apply. rewrite __deepcopy___value by exact Hv.
  cbn [rbind].
  set (out := mkFqeData _ _ _ _ _).
  assert (Hspatial :
    exists c, _apply_array_spatial1 out (scaled_identity (norb out) s) = Ok c
      /\ eq_on2 (lena self) (lenb self) c
           (fun p q =>
              (s * C_of_nat (nalpha self + nbeta self) * coeff self p q)%C))
    by apply (_apply_array_spatial1_identity out s).
  rewrite (@apply_inplace_1body K out (scaled_identity n s) n [n]) by reflexivity.
  change (norb out) with (norb self) in *.
  destruct (Nat.eq_dec n (norb self)) as [->|Hne].
  - rewrite Nat.eqb_refl.
    destruct Hspatial as [c [-> Hc]].
    eexists. repeat split. exact Hc.
  - assert (Hpos : 0 < norb self /\ n = 2 * norb self) by lia.
    destruct Hpos as [Hpos ->].
    replace (2 * norb self =? norb self) with false
      by (symmetry; apply Nat.eqb_neq; lia).
    destruct (_apply_array_spin1_identity out s Hpos) as [c [Hc1 Hc2]].
    change (norb out) with (norb self) in Hc1. rewrite Hc1.
    eexists. repeat split. exact Hc2.
Qed.

(** ** D-vectors *)


Lemma diagonal_action (strs : list N) (i t : nat) (X : nat -> complex) :
  List.NoDup strs -> t < length strs ->
  sum_list (FciGraph.build_mapping strs i i) (fun e =>
    if t =? target_of e then (X (source_of e) * C_of_Z (parity_of e))%C else 0%C)
  = if bitstring.get_bit (nth t strs 0%N) i then X t else 0%C.
Proof.
  intros Hnd Ht. rewrite build_mapping_diagonal by exact Hnd.
  unfold target_of, source_of, parity_of. cbn [fst snd].
  rewrite sum_n_ext
    with (g := fun p => if t =? p
                        then (if bitstring.get_bit (nth p strs 0%N) i
                              then X p else 0%C)
                        else 0%C).
  - rewrite sum_n_single.
    replace (t <? length strs) with true by (symmetry; apply Nat.ltb_lt; exact Ht).
    reflexivity.
  - intros p _. rewrite C_of_Z_1.
    destruct (bitstring.get_bit (nth p strs 0%N) i), (t =? p);
      try reflexivity; ring.
Qed.

(** On the diagonal pair [(i, i)] the D-vector is the coefficient times the
    occupation of orbital [i] in the two strings. *)
Lemma dvec_entry_diagonal (g : FciGraph.t) (c : Array2) (i P Q : nat) :
  P < FciGraph.lena g -> Q < FciGraph.lenb g ->
  dvec_entry c (FciGraph.alpha_map g) (FciGraph.beta_map g) i i P Q
  = ((if bitstring.get_bit (FciGraph.string_alpha g P) i then c P Q else 0)
     + (if bitstring.get_bit (FciGraph.string_beta g Q) i then c P Q else 0))%C.
Proof.
  intros HP HQ. unfold dvec_entry, FciGraph.alpha_map, FciGraph.beta_map.
  rewrite (@diagonal_action _ i P (fun x => c x Q))
    by (first [apply strings_NoDup | exact HP]).
  rewrite (@diagonal_action _ i Q (fun x => c P x))
    by (first [apply strings_NoDup | exact HQ]).
  reflexivity.
Qed.

(** ** Blocks *)

Lemma split_range_bounds (fuel start stop size : nat) (r : nat * nat) :
  0 < size ->
  In r (FciGraph.split_range fuel start stop size) ->
  start <= fst r /\ fst r < snd r /\ snd r <= stop.
Proof.
  intros Hs. revert start. induction fuel as [|fuel IH]; intros start Hin.
  - destruct Hin.
  - cbn [FciGraph.split_range] in Hin.
    destruct (Nat.ltb_spec start stop) as [Hlt|Hge]; [|destruct Hin].
    destruct Hin as [<-|Hin].
    + cbn [fst snd]. lia.
    + apply IH in Hin. lia.
Qed.

(** The ranges of a species tile its indices. *)
Lemma split_range_sum (fuel start stop size : nat) (f : nat -> complex) :
  0 < size -> stop - start <= fuel ->
  sum_list (FciGraph.split_range fuel start stop size)
    (fun r => sum_n (range_len r) (fun p => f (fst r + p)%nat))
  = sum_n (stop - start) (fun p => f (start + p)%nat).
Proof.
  intros Hs. revert start. induction fuel as [|fuel IH]; intros start Hf.
  - replace (stop - start) with 0 by lia. reflexivity.
  - cbn [FciGraph.split_range].
    destruct (Nat.ltb_spec start stop) as [Hlt|Hge].
    + rewrite sum_list_cons, IH by lia.
      unfold range_len. cbn [fst snd].
      set (e := Nat.min (start + size) stop).
      replace (stop - start) with ((e - start) + (stop - e)) by lia.
      rewrite sum_n_shift. f_equal.
      apply sum_n_ext. intros j _. f_equal. lia.
    + replace (stop - start) with 0 by lia. reflexivity.
Qed.

Lemma sum_list_sum_n {A : Type} (l : list A) (n : nat)
    (f : A -> nat -> complex) :
  sum_list l (fun x => sum_n n (fun p => f x p))
  = sum_n n (fun p => sum_list l (fun x => f x p)).
Proof.
  induction l as [|x l IH].
  - rewrite sum_list_nil. symmetry. apply sum_n_zero.
  - rewrite sum_list_cons, IH, <- sum_n_add.
    apply sum_n_ext. intros p _. rewrite sum_list_cons. reflexivity.
Qed.

(** The D-vector of a block is the block of the D-vector. *)
Lemma dvec_of_block_entry (g : FciGraph.t) (c : Array2) (ar br : nat * nat)
    (norb la lb i j p q : nat) :
  p < range_len ar -> q < range_len br ->
  dvec_of_block c (transpose c)
    (FciGraph.mkBlock ar br
       [fun i j => FciGraph.restrict ar (FciGraph.alpha_map g i j)]
       [fun i j => FciGraph.restrict br (FciGraph.beta_map g i j)])
    norb la lb i j p q
  = dvec_entry c (FciGraph.alpha_map g) (FciGraph.beta_map g) i j
      (fst ar + p) (fst br + q).
Proof.
  unfold range_len. intros Hp Hq.
  unfold dvec_of_block, lib._make_dvec_part.
  cbn [FciGraph.alpha_range FciGraph.beta_range FciGraph.alpha_maps
       FciGraph.beta_maps nth].
  rewrite for_each_sum
    with (G := fun e =>
                 if q =? target_of e - fst br
                 then (transpose c (source_of e) (fst ar + p)%nat
                       * C_of_Z (parity_of e))%C
                 else 0%C)
    by (intros [[s t] par] o; rewrite accumulate_at; reflexivity).
  rewrite for_each_sum
    with (G := fun e =>
                 if p =? target_of e - fst ar
                 then (c (source_of e) (fst br + q)%nat * C_of_Z (parity_of e))%C
                 else 0%C)
    by (intros [[s t] par] o; rewrite accumulate_at; reflexivity).
  unfold zeros4, dvec_entry, FciGraph.restrict. rewrite !sum_list_filter.
  match goal with |- (0 + ?a + ?b = ?x + ?y)%C => transitivity (a + b)%C; [ring|] end.
  f_equal.
  - apply sum_list_ext. intros [[s t] par] _.
    unfold target_of, source_of, parity_of, FciGraph.in_range. cbn [fst snd].
    destruct (Nat.leb_spec (fst ar) t), (Nat.ltb_spec t (snd ar)),
      (Nat.eqb_spec p (t - fst ar)), (Nat.eqb_spec (fst ar + p) t);
      cbn [andb]; try reflexivity; lia.
  - apply sum_list_ext. intros [[s t] par] _.
    unfold target_of, source_of, parity_of, FciGraph.in_range, transpose.
    cbn [fst snd].
    destruct (Nat.leb_spec (fst br) t), (Nat.ltb_spec t (snd br)),
      (Nat.eqb_spec q (t - fst br)), (Nat.eqb_spec (fst br + q) t);
      cbn [andb]; try reflexivity; lia.
Qed.

(** A sum over the blocks of a graph is a sum over the whole array. *)
Lemma block_sum (g : FciGraph.t) (max_states : nat)
    (T : FciGraph.block -> complex) (F : nat -> nat -> complex) :
  0 < max_states ->
  (forall ar br,
     T (FciGraph.mkBlock ar br
          [fun i j => FciGraph.restrict ar (FciGraph.alpha_map g i j)]
          [fun i j => FciGraph.restrict br (FciGraph.beta_map g i j)])
     = sum_n (range_len ar) (fun p =>
         sum_n (range_len br) (fun q => F (fst ar + p)%nat (fst br + q)%nat))) ->
  sum_list (FciGraph._get_block_mappings g max_states) T
  = sum_n (FciGraph.lena g) (fun P => sum_n (FciGraph.lenb g) (fun Q => F P Q)).
Proof.
  intros Hm HT. unfold FciGraph._get_block_mappings.
  rewrite sum_list_flat_map.
  rewrite sum_list_ext
    with (g := fun ar =>
                 sum_n (range_len ar) (fun p =>
                   sum_n (FciGraph.lenb g) (fun Q => F (fst ar + p)%nat Q))).
  - rewrite (@split_range_sum _ 0 (FciGraph.lena g) max_states
               (fun P => sum_n (FciGraph.lenb g) (fun Q => F P Q)))
      by (auto; lia).
    rewrite Nat.sub_0_r. reflexivity.
  - intros ar _. rewrite sum_list_map.
    rewrite sum_list_ext
      with (g := fun br =>
                   sum_n (range_len ar) (fun p =>
                     sum_n (range_len br) (fun q =>
                       F (fst ar + p)%nat (fst br + q)%nat)))
      by (intros br _; apply HT).
    rewrite sum_list_sum_n. apply sum_n_ext. intros p _.
    rewrite (@split_range_sum _ 0 (FciGraph.lenb g) max_states
               (fun Q => F (fst ar + p)%nat Q))
      by (auto; lia).
    rewrite Nat.sub_0_r. reflexivity.
Qed.

(** ** The 1-RDM *)

Lemma _rdm1_blocked_entry (self : FqeData) (max_states i j : nat) :
  0 < max_states ->
  _rdm1_blocked self None max_states i j
  = Cconj
      (sum_n (lena self) (fun P => sum_n (lenb self) (fun Q =>
         (dvec_entry (coeff self) (alpha_map self) (beta_map self) j i P Q
          * Cconj (coeff self P Q))%C))).
Proof.
  intros Hm. unfold _rdm1_blocked. cbv zeta.
  unfold transpose at 1. unfold conj2 at 1.
  rewrite for_each_add2. unfold zeros2 at 1.
  f_equal.
  match goal with |- (0 + ?a)%C = _ => transitivity a; [ring|] end.
  apply block_sum; [exact Hm|].
  intros ar br. unfold tensordot42.
  cbn [FciGraph.alpha_range FciGraph.beta_range].
  apply sum_n_ext. intros p Hp. apply sum_n_ext. intros q Hq.
  rewrite dvec_of_block_entry by assumption.
  reflexivity.
Qed.

Lemma rdm1_trace_value (self : FqeData) :
  trace (norb self) (rdm1 self None)
  = (C_of_nat (nalpha self + nbeta self) * Cconj (norm_sq self))%C.
Proof.
  unfold trace, rdm1.
  pose (w := fun P Q => (coeff self P Q * Cconj (coeff self P Q))%C).
  pose (occ_a := fun P i =>
          bitstring.get_bit (FciGraph.string_alpha (_core self) P) i).
  pose (occ_b := fun Q i =>
          bitstring.get_bit (FciGraph.string_beta (_core self) Q) i).
  rewrite sum_n_ext
    with (g := fun i =>
       Cconj (sum_n (lena self) (fun P => sum_n (lenb self) (fun Q =>
         ((if occ_a P i then w P Q else 0)
          + (if occ_b Q i then w P Q else 0))%C)))).
  - rewrite <- sum_n_conj, sum_n_swap.
    rewrite sum_n_ext
      with (g := fun P => sum_n (lenb self) (fun Q =>
                   (C_of_nat (nalpha self + nbeta self) * w P Q)%C)).
    + unfold norm_sq. fold w.
      rewrite sum_n_ext
        with (g := fun P =>
                (C_of_nat (nalpha self + nbeta self)
                 * sum_n (lenb self) (fun Q => w P Q))%C)
        by (intros P _; apply sum_n_scale).
      rewrite sum_n_scale, Cconj_mul. unfold C_of_nat.
      rewrite Cconj_of_Z. reflexivity.
    + intros P HP. rewrite sum_n_swap. apply sum_n_ext. intros Q HQ.
      rewrite sum_n_add, !sum_n_count.
      unfold occ_a, occ_b, FciGraph.string_alpha, FciGraph.string_beta,
        FciGraph.strings_alpha, FciGraph.strings_beta.
      rewrite !strings_occupation by assumption.
      rewrite C_of_nat_add. unfold nalpha, nbeta. ring.
  - intros i Hi. rewrite _rdm1_blocked_entry by lia. f_equal.
    apply sum_n_ext. intros P HP. apply sum_n_ext. intros Q HQ.
    unfold alpha_map, beta_map. rewrite dvec_entry_diagonal by assumption.
    unfold occ_a, occ_b, w.
    destruct (bitstring.get_bit _ i), (bitstring.get_bit _ i); ring.
Qed.

(** ** The round trip through the D-vector *)

Lemma flat_map_rows_length {A : Type} (f : nat -> nat -> A) (js rws : list nat) :
  length (flat_map (fun i => map (fun j => f i j) js) rws)
  = length rws * length js.
Proof.
  induction rws as [|x rws IH]; [reflexivity|].
  cbn [flat_map length]. rewrite length_app, length_map, IH. lia.
Qed.

Lemma flat_map_rows_nth {A : Type} (f : nat -> nat -> A) (js rws : list nat)
    (a b : nat) (d : A) :
  a < length rws -> b < length js ->
  nth (a * length js + b) (flat_map (fun i => map (fun j => f i j) js) rws) d
  = f (nth a rws 0) (nth b js 0).
Proof.
  revert a. induction rws as [|x rws IH]; intros a Ha Hb; [simpl in Ha; lia|].
  cbn [flat_map]. destruct a as [|a].
  - cbn [Nat.mul Nat.add nth]. rewrite app_nth1 by (rewrite length_map; exact Hb).
    rewrite nth_indep with (d' := f x 0) by (rewrite length_map; exact Hb).
    apply (map_nth (fun j => f x j)).
  - rewrite app_nth2 by (rewrite length_map; lia).
    rewrite length_map.
    replace (S a * length js + b - length js) with (a * length js + b) by lia.
    cbn [nth]. apply IH; [simpl in Ha; lia | exact Hb].
Qed.

Lemma pair_list_length {A : Type} (n : nat) (f : nat -> nat -> A) :
  length (pair_list n f) = n * n.
Proof.
  unfold pair_list, range. rewrite flat_map_rows_length, length_seq. reflexivity.
Qed.

Lemma pair_list_nth {A : Type} (n : nat) (f : nat -> nat -> A) (i j : nat) (d : A) :
  i < n -> j < n -> nth (i * n + j) (pair_list n f) d = f i j.
Proof.
  intros Hi Hj. unfold pair_list, range.
  pose proof (@flat_map_rows_nth A f (seq 0 n) (seq 0 n) i j d) as H.
  rewrite length_seq in H. rewrite H by assumption.
  rewrite !seq_nth by assumption. reflexivity.
Qed.

Lemma flatten_pairs_at (n : nat) (d : Array4) (i j : nat) :
  j < n -> flatten_pairs n d (i * n + j) = d i j.
Proof.
  intros Hj. unfold flatten_pairs.
  rewrite Nat.div_add_l, Nat.div_small, Nat.add_0_r by lia.
  rewrite Nat.add_comm, Nat.Div0.mod_add, Nat.mod_small by lia.
  reflexivity.
Qed.

(** [calculate_dvec_spatial] computes the D-vector. *)
Lemma _calculate_dvec_spatial_with_coeff_entry (self : FqeData) (c : Array2)
    (i j P Q : nat) :
  i < norb self -> j < norb self ->
  _calculate_dvec_spatial_with_coeff self c i j P Q
  = dvec_entry c (alpha_map self) (beta_map self) i j P Q.
Proof.
  intros Hi Hj. unfold _calculate_dvec_spatial_with_coeff, unflatten_pairs.
  unfold lib._make_dvec at 1.
  rewrite pair_list_nth by assumption.
  rewrite for_each_sum
    with (G := fun e =>
                 if Q =? target_of e
                 then (c P (source_of e) * C_of_Z (parity_of e))%C else 0%C)
    by (intros [[s t] par] o; rewrite accumulate_at; reflexivity).
  unfold lib._make_dvec.
  rewrite pair_list_nth by assumption.
  rewrite for_each_sum
    with (G := fun e =>
                 if P =? target_of e
                 then (c (source_of e) Q * C_of_Z (parity_of e))%C else 0%C)
    by (intros [[s t] par] o; rewrite accumulate_at; reflexivity).
  rewrite flatten_pairs_at by exact Hj.
  unfold zeros4, dvec_entry. ring.
Qed.

(** The kernel that folds a D-vector back, as a sum. *)
Lemma _make_coeff_sum (dvec : Array3) (out : Array2) (maps : list ExcMap)
    (la lb : nat) (alpha : bool) (P Q : nat) :
  lib._make_coeff dvec out maps la lb alpha P Q
  = (out P Q
     + sum_n (length maps) (fun k =>
         sum_list (nth k maps []) (fun e =>
           if (if alpha then P else Q) =? source_of e
           then lib.line alpha (dvec k) (target_of e) (if alpha then Q else P)
                * C_of_Z (parity_of e)
           else 0)))%C.
Proof.
  unfold lib._make_coeff.
  rewrite for_each_sum
    with (G := fun km : nat * ExcMap =>
                 sum_list (snd km) (fun e =>
                   if (if alpha then P else Q) =? source_of e
                   then (lib.line alpha (dvec (fst km)) (target_of e)
                           (if alpha then Q else P)
                         * C_of_Z (parity_of e))%C
                   else 0%C)).
  - rewrite (sum_list_enumerate (@nil Entry)). reflexivity.
  - intros [k m] o. cbn [fst snd].
    apply for_each_sum. intros [[s t] par] o'.
    rewrite accumulate_at. reflexivity.
Qed.

Lemma _calculate_coeff_spatial_with_dvec_entry (self : FqeData) (d : Array4)
    (P Q : nat) :
  _calculate_coeff_spatial_with_dvec self d P Q
  = sum_n (norb self) (fun i => sum_n (norb self) (fun j =>
      (sum_list (alpha_map self j i) (fun e =>
         if P =? source_of e
         then d i j (target_of e) Q * C_of_Z (parity_of e) else 0)
       + sum_list (beta_map self j i) (fun e =>
           if Q =? source_of e
           then d i j P (target_of e) * C_of_Z (parity_of e) else 0))%C)).
Proof.
  unfold _calculate_coeff_spatial_with_dvec.
  rewrite !_make_coeff_sum, !pair_list_length, !sum_n_mul.
  unfold zeros2.
  match goal with
  | |- (0 + ?a + ?b)%C = _ => transitivity (a + b)%C; [ring|]
  end.
  rewrite <- sum_n_add. apply sum_n_ext. intros i Hi.
  rewrite <- sum_n_add. apply sum_n_ext. intros j Hj.
  rewrite !pair_list_nth, !flatten_pairs_at by assumption.
  reflexivity.
Qed.

Lemma diagonal_action_back (strs : list N) (i t : nat) (X : nat -> complex) :
  List.NoDup strs -> t < length strs ->
  sum_list (FciGraph.build_mapping strs i i) (fun e =>
    if t =? source_of e then (X (target_of e) * C_of_Z (parity_of e))%C else 0%C)
  = if bitstring.get_bit (nth t strs 0%N) i then X t else 0%C.
Proof.
  intros Hnd Ht. rewrite build_mapping_diagonal by exact Hnd.
  unfold target_of, source_of, parity_of. cbn [fst snd].
  rewrite sum_n_ext
    with (g := fun p => if t =? p
                        then (if bitstring.get_bit (nth p strs 0%N) i
                              then X p else 0%C)
                        else 0%C).
  - rewrite sum_n_single.
    replace (t <? length strs) with true by (symmetry; apply Nat.ltb_lt; exact Ht).
    reflexivity.
  - intros p _. rewrite C_of_Z_1.
    destruct (bitstring.get_bit (nth p strs 0%N) i), (t =? p);
      try reflexivity; ring.
Qed.

(** Folding the D-vector back with the identity as weights multiplies every
    coefficient by the sum over the orbitals of the squared occupation of
    the determinant pair. *)
Lemma dvec_round_trip_value (self : FqeData) (p q : nat) :
  p < lena self -> q < lenb self ->
  dvec_round_trip self identity_matrix p q
  = (C_of_nat (nalpha self + nbeta self + 2 * doubly_occupied self p q)
     * coeff self p q)%C.
Proof.
  intros Hp Hq. unfold dvec_round_trip.
  rewrite _calculate_coeff_spatial_with_dvec_entry.
  pose (occ_a := fun i =>
          bitstring.get_bit (FciGraph.string_alpha (_core self) p) i).
  pose (occ_b := fun i =>
          bitstring.get_bit (FciGraph.string_beta (_core self) q) i).
  pose (c := coeff self p q).
  rewrite sum_n_ext
    with (g := fun i =>
                 ((if occ_a i then c else 0)
                  + (if occ_b i then c else 0)
                  + ((if occ_a i && occ_b i then c else 0)
                     + (if occ_a i && occ_b i then c else 0)))%C).
  - rewrite !sum_n_add, !sum_n_count.
    unfold occ_a, occ_b, doubly_occupied, FciGraph.string_alpha,
      FciGraph.string_beta, FciGraph.strings_alpha, FciGraph.strings_beta.
    rewrite !strings_occupation by assumption.
    match goal with
    | |- context [C_of_nat (?a + ?b + 2 * ?d)] =>
        replace (a + b + 2 * d) with (a + b + (d + d)) by lia
    end.
    rewrite !C_of_nat_add. unfold nalpha, nbeta, norb, c. ring.
  - intros i Hi.
    rewrite sum_n_ext
      with (g := fun j =>
        if i =? j
        then (((if occ_a i then c else 0) + (if occ_b i then c else 0)
               + ((if occ_a i && occ_b i then c else 0)
                  + (if occ_a i && occ_b i then c else 0))))%C
        else 0%C).
    + rewrite sum_n_single.
      replace (i <? norb self) with true by (symmetry; apply Nat.ltb_lt; exact Hi).
      reflexivity.
    + intros j Hj. unfold weight_pairs, identity_matrix, calculate_dvec_spatial.
      destruct (Nat.eqb_spec i j) as [<-|Hne].
      * unfold alpha_map, beta_map, FciGraph.alpha_map, FciGraph.beta_map.
        rewrite (@diagonal_action_back _ i p
                   (fun x => (1 * _calculate_dvec_spatial_with_coeff self
                                    (coeff self) i i x q)%C))
          by (first [apply strings_NoDup | exact Hp]).
        rewrite (@diagonal_action_back _ i q
                   (fun x => (1 * _calculate_dvec_spatial_with_coeff self
                                    (coeff self) i i p x)%C))
          by (first [apply strings_NoDup | exact Hq]).
        rewrite _calculate_dvec_spatial_with_coeff_entry by assumption.
        unfold alpha_map, beta_map.
        rewrite dvec_entry_diagonal by assumption.
        unfold occ_a, occ_b, FciGraph.string_alpha, FciGraph.string_beta.
        destruct (bitstring.get_bit (nth p _ _) i),
          (bitstring.get_bit (nth q _ _) i); cbn [andb]; unfold c; ring.
      * match goal with
        | |- (?a + ?b)%C = _ =>
            assert (Ha : a = 0%C); [| assert (Hb : b = 0%C);
                                      [| rewrite Ha, Hb; ring]]
        end;
          (apply sum_list_zero; intros e _;
           match goal with |- context [?x =? source_of e] =>
             destruct (x =? source_of e) end; [ring | reflexivity]).
Qed.

(** ** Excitation strings on one determinant *)


Lemma mem_rev (i : nat) (l : list nat) : mem i (rev l) = mem i l.
Proof.
  unfold mem. induction l as [|x l IH]; [reflexivity|].
  cbn [rev existsb]. rewrite existsb_app, IH. cbn [existsb].
  rewrite orb_false_r. apply orb_comm.
Qed.

Lemma get_bit_set (s : N) (i k : nat) :
  bitstring.get_bit (bitstring.set_bit s i) k
  = (k =? i) || bitstring.get_bit s k.
Proof.
  unfold bitstring.get_bit, bitstring.set_bit. rewrite N.setbit_eqb.
  f_equal. destruct (N.eqb_spec (N.of_nat i) (N.of_nat k)) as [E|E],
    (Nat.eqb_spec k i); try reflexivity; try lia.
Qed.

Lemma get_bit_unset (s : N) (i k : nat) :
  bitstring.get_bit (bitstring.unset_bit s i) k
  = bitstring.get_bit s k && negb (k =? i).
Proof.
  unfold bitstring.get_bit, bitstring.unset_bit. rewrite N.clearbit_eqb.
  f_equal. f_equal. destruct (N.eqb_spec (N.of_nat i) (N.of_nat k)) as [E|E],
    (Nat.eqb_spec k i); try reflexivity; try lia.
Qed.

Lemma toggle_all_unset_bits (ops : list nat) (st : nat * N) (k : nat) :
  bitstring.get_bit (snd (toggle_all bitstring.unset_bit ops st)) k
  = bitstring.get_bit (snd st) k && negb (mem k ops).
Proof.
  unfold toggle_all. rewrite <- (mem_rev k ops).
  generalize (rev ops) as l. intros l. revert st.
  induction l as [|x l IH]; intros [par cur].
  - cbn. rewrite andb_true_r. reflexivity.
  - change (for_each (x :: l) ?f (par, cur))
      with (for_each l f (par + bitstring.count_bits_above cur x,
                          bitstring.unset_bit cur x)).
    rewrite IH. cbn [snd]. rewrite get_bit_unset. unfold mem. cbn [existsb].
    rewrite negb_orb, andb_assoc. reflexivity.
Qed.

Lemma toggle_all_set_bits (ops : list nat) (st : nat * N) (k : nat) :
  bitstring.get_bit (snd (toggle_all bitstring.set_bit ops st)) k
  = bitstring.get_bit (snd st) k || mem k ops.
Proof.
  unfold toggle_all. rewrite <- (mem_rev k ops).
  generalize (rev ops) as l. intros l. revert st.
  induction l as [|x l IH]; intros [par cur].
  - cbn. rewrite orb_false_r. reflexivity.
  - change (for_each (x :: l) ?f (par, cur))
      with (for_each l f (par + bitstring.count_bits_above cur x,
                          bitstring.set_bit cur x)).
    rewrite IH. cbn [snd]. rewrite get_bit_set. unfold mem. cbn [existsb].
    rewrite orb_assoc. f_equal. apply orb_comm.
Qed.

Lemma string_image_bits (dag undag : list nat) (s : N) (k : nat) :
  bitstring.get_bit (string_image dag undag s) k
  = (bitstring.get_bit s k && negb (mem k undag)) || mem k dag.
Proof.
  unfold string_image.
  rewrite toggle_all_set_bits, toggle_all_unset_bits. reflexivity.
Qed.

Lemma get_bit_inj (s t : N) :
  (forall k, bitstring.get_bit s k = bitstring.get_bit t k) -> s = t.
Proof.
  intros H. apply N.bits_inj. intros k.
  specialize (H (N.to_nat k)). unfold bitstring.get_bit in H.
  rewrite N2Nat.id in H. exact H.
Qed.

Lemma mem_true (i : nat) (l : list nat) : mem i l = true <-> In i l.
Proof.
  unfold mem. rewrite existsb_exists. split.
  - intros [x [Hx E]]. apply Nat.eqb_eq in E. subst. exact Hx.
  - intros H. exists i. split; [exact H | apply Nat.eqb_refl].
Qed.

Lemma string_applies_spec (dag undag : list nat) (s : N) :
  string_applies dag undag s = true <->
  (forall i, In i undag -> bitstring.get_bit s i = true)
  /\ (forall i, In i dag -> mem i undag = true \/ bitstring.get_bit s i = false).
Proof.
  unfold string_applies. rewrite andb_true_iff, !forallb_forall.
  split; intros [H1 H2]; split; auto; intros i Hi; specialize (H2 i Hi).
  - apply orb_true_iff in H2. destruct H2 as [H2|H2]; [left; exact H2|].
    right. apply negb_true_iff. exact H2.
  - apply orb_true_iff. destruct H2 as [H2|H2]; [left; exact H2|].
    right. apply negb_true_iff. exact H2.
Qed.

(** The inverse string acts on the image of a determinant ... *)
Lemma string_image_applies (dag undag : list nat) (s : N) :
  string_applies dag undag s = true ->
  string_applies undag dag (string_image dag undag s) = true.
Proof.
  intros H. apply string_applies_spec in H. destruct H as [H1 H2].
  apply string_applies_spec. split; intros i Hi; rewrite string_image_bits.
  - apply mem_true in Hi. rewrite Hi. apply orb_true_r.
  - destruct (mem i dag) eqn:Hd; [left; reflexivity|].
    right. apply mem_true in Hi. rewrite Hi. cbn.
    rewrite andb_false_r. reflexivity.
Qed.

(** ... and takes it back. *)
Lemma string_image_inverse (dag undag : list nat) (s : N) :
  string_applies dag undag s = true ->
  string_image undag dag (string_image dag undag s) = s.
Proof.
  intros H. apply string_applies_spec in H. destruct H as [H1 H2].
  apply get_bit_inj. intros k. rewrite !string_image_bits.
  destruct (mem k undag) eqn:Hu.
  - rewrite orb_true_r. symmetry. apply H1. apply mem_true. exact Hu.
  - rewrite orb_false_r. cbn [negb]. rewrite andb_true_r.
    destruct (mem k dag) eqn:Hd.
    + cbn. destruct (H2 k) as [E|E]; [apply mem_true; exact Hd | congruence |].
      rewrite E. reflexivity.
    + cbn. rewrite orb_false_r, andb_true_r. reflexivity.
Qed.

(** ** The maps of an excitation string *)

Lemma find_index_Some (strs : list N) (x : N) (a t : nat) :
  FciGraph.find_index strs x a = Some t ->
  a <= t /\ t - a < length strs /\ nth (t - a) strs 0%N = x.
Proof.
  revert a. induction strs as [|y l IH]; intros a H; [discriminate|].
  cbn [FciGraph.find_index] in H.
  destruct (N.eqb_spec y x) as [->|Hne].
  - inversion H; subst. rewrite Nat.sub_diag. cbn [nth length].
    split; [lia | split; [lia | reflexivity]].
  - apply IH in H. destruct H as [H1 [H2 H3]].
    replace (t - a) with (S (t - S a)) by lia. cbn [nth length].
    split; [lia | split; [lia | exact H3]].
Qed.


Lemma make_mapping_each_steps (self : FqeData) (alpha : bool)
    (daga undaga dagb undagb : list nat) :
  make_mapping_each self alpha daga undaga dagb undagb
  = for_each
      (range (length (if alpha then FciGraph.strings_alpha (_core self)
                      else FciGraph.strings_beta (_core self))))
      (mapping_step
         (if alpha then FciGraph.strings_alpha (_core self)
          else FciGraph.strings_beta (_core self))
         (if alpha then daga else dagb) (if alpha then undaga else undagb))
      (Ok []).
Proof.
  unfold make_mapping_each.
  destruct alpha; apply for_each_ext; intros index acc;
    unfold mapping_step, string_image, string_sign,
      FciGraph.string_alpha, FciGraph.string_beta,
      FciGraph.index_alpha, FciGraph.index_beta;
    destruct acc as [m|e]; cbn [rbind]; try reflexivity;
    destruct (string_applies _ _ _); try reflexivity;
    destruct (toggle_all _ _ _) as [par cur]; cbn [fst snd];
    destruct (FciGraph.find_index _ _ 0); reflexivity.
Qed.


Lemma mapping_steps_spec (strs : list N) (dag undag : list nat) (k : nat)
    (m : ExcMap) :
  for_each (seq 0 k) (mapping_step strs dag undag) (Ok []) = Ok m ->
  mapping_of strs dag undag k m.
Proof.
  revert m. induction k as [|k IH]; intros m H.
  - cbn in H. inversion H; subst. split.
    + intros idx Hidx. lia.
    + intros e [].
  - rewrite seq_S, for_each_app in H. cbn [Nat.add] in H.
    destruct (for_each (seq 0 k) (mapping_step strs dag undag) (Ok []))
      as [m'|e] eqn:Hprev; [|discriminate].
    specialize (IH m' eq_refl). destruct IH as [IH1 IH2].
    cbn [for_each fold_left] in H. unfold mapping_step in H. cbn [rbind] in H.
    destruct (string_applies dag undag (nth k strs 0%N)) eqn:Happ.
    + destruct (FciGraph.find_index strs _ 0) as [t|] eqn:Hfind; [|discriminate].
      inversion H; subst m. clear H. split.
      * intros idx Hidx Ha.
        destruct (Nat.eq_dec idx k) as [->|Hne].
        -- exists t. split; [exact Hfind|]. apply in_or_app. right. left. reflexivity.
        -- destruct (IH1 idx) as [t' [Ht' Hin]]; [lia | exact Ha |].
           exists t'. split; [exact Ht'|]. apply in_or_app. left. exact Hin.
      * intros e Hin. apply in_app_or in Hin. destruct Hin as [Hin|[<-|[]]].
        -- destruct (IH2 e Hin) as [H1 H2]. split; [lia | exact H2].
        -- unfold source_of, target_of, parity_of. cbn [fst snd].
           repeat split; auto.
    + inversion H; subst m. clear H. split.
      * intros idx Hidx Ha.
        destruct (Nat.eq_dec idx k) as [->|Hne]; [congruence|].
        apply IH1; [lia | exact Ha].
      * intros e Hin. destruct (IH2 e Hin) as [H1 H2]. split; [lia | exact H2].
Qed.

Lemma make_mapping_each_spec (self : FqeData) (alpha : bool)
    (daga undaga dagb undagb : list nat) (m : ExcMap) :
  make_mapping_each self alpha daga undaga dagb undagb = Ok m ->
  mapping_of
    (if alpha then FciGraph.strings_alpha (_core self)
     else FciGraph.strings_beta (_core self))
    (if alpha then daga else dagb) (if alpha then undaga else undagb)
    (length (if alpha then FciGraph.strings_alpha (_core self)
             else FciGraph.strings_beta (_core self)))
    m.
Proof.
  rewrite make_mapping_each_steps. apply mapping_steps_spec.
Qed.

(** ** The assignment through index vectors *)


Lemma last_with_target_snoc (m : ExcMap) (e : Entry) (t : nat) :
  last_with_target (m ++ [e]) t
  = if target_of e =? t then Some e else last_with_target m t.
Proof. unfold last_with_target. rewrite rev_unit. reflexivity. Qed.

Lemma for_each_snoc {A S : Type} (l : list A) (e : A) (f : A -> S -> S) (s : S) :
  for_each (l ++ [e]) f s = f e (for_each l f s).
Proof. rewrite for_each_app. reflexivity. Qed.

Lemma assign_row (bmap : ExcMap) (ta : nat) (W : Entry -> complex)
    (oc : Array2) (P Q : nat) :
  for_each bmap (fun eb oc' => set2 oc' ta (target_of eb) (W eb)) oc P Q
  = if P =? ta
    then match last_with_target bmap Q with
         | Some eb => W eb
         | None => oc P Q
         end
    else oc P Q.
Proof.
  induction bmap as [|e l IH] using rev_ind.
  - cbn. destruct (P =? ta); reflexivity.
  - rewrite for_each_snoc. unfold set2 at 1.
    rewrite IH, last_with_target_snoc.
    rewrite (Nat.eqb_sym (target_of e) Q).
    destruct (P =? ta), (Q =? target_of e); reflexivity.
Qed.

Lemma assign_loops (amap bmap : ExcMap) (V : Entry -> Entry -> complex)
    (init : Array2) (P Q : nat) :
  for_each amap
    (fun ea oc =>
       for_each bmap
         (fun eb oc' => set2 oc' (target_of ea) (target_of eb) (V ea eb)) oc)
    init P Q
  = match last_with_target amap P, last_with_target bmap Q with
    | Some ea, Some eb => V ea eb
    | _, _ => init P Q
    end.
Proof.
  induction amap as [|e l IH] using rev_ind.
  - cbn. reflexivity.
  - rewrite for_each_snoc.
    rewrite assign_row, last_with_target_snoc.
    rewrite (Nat.eqb_sym (target_of e) P).
    rewrite IH.
    destruct (P =? target_of e); [|reflexivity].
    destruct (last_with_target bmap Q); [reflexivity|].
    destruct (last_with_target l P); reflexivity.
Qed.

Lemma last_with_target_Some (m : ExcMap) (t : nat) (e : Entry) :
  last_with_target m t = Some e -> In e m /\ target_of e = t.
Proof.
  unfold last_with_target. intros H. apply find_some in H.
  destruct H as [Hin Ht]. split.
  - apply in_rev. exact Hin.
  - apply Nat.eqb_eq. exact Ht.
Qed.

Lemma last_with_target_None (m : ExcMap) (t : nat) (e : Entry) :
  last_with_target m t = None -> In e m -> target_of e <> t.
Proof.
  unfold last_with_target. intros H Hin.
  apply in_rev in Hin. apply (find_none _ _ H) in Hin.
  apply Nat.eqb_neq. exact Hin.
Qed.

Lemma nth_NoDup_inj (strs : list N) (i j : nat) :
  List.NoDup strs -> i < length strs -> j < length strs ->
  nth i strs 0%N = nth j strs 0%N -> i = j.
Proof.
  intros Hnd Hi Hj H.
  apply (proj1 (List.NoDup_nth strs 0%N) Hnd i j Hi Hj H).
Qed.

Section Trip.
(** One species: the map of a string and the map of its inverse. *)
Variables (strs : list N) (dag undag : list nat) (m1 m2 : ExcMap).
Hypothesis Hnd : List.NoDup strs.
Hypothesis Hm1 : mapping_of strs dag undag (length strs) m1.
Hypothesis Hm2 : mapping_of strs undag dag (length strs) m2.

(** An entry of the first map whose target is the source of an entry of the
    inverse map: the inverse entry leads back to the source of the first. *)
Lemma trip_closes (e1 e2 : Entry) :
  In e1 m1 -> In e2 m2 -> target_of e1 = source_of e2 ->
  target_of e2 = source_of e1.
Proof using Hnd Hm1 Hm2.
  intros H1 H2 E.
  destruct (proj2 Hm1 e1 H1) as [Ha [Happ [Hfind _]]].
  destruct (proj2 Hm2 e2 H2) as [Hu [Happ' [Hfind' _]]].
  apply find_index_Some in Hfind. destruct Hfind as [_ [Ht Himg]].
  rewrite Nat.sub_0_r in Ht, Himg.
  rewrite <- E, Himg, string_image_inverse in Hfind' by exact Happ.
  rewrite (@find_index_nth _ _ 0 Hnd Ha) in Hfind'. inversion Hfind'. reflexivity.
Qed.

(** On a determinant on which the string acts, the inverse map has one entry
    that comes back to it, from the image the first map sends it to. *)
Lemma trip_on_support (p : nat) :
  p < length strs -> string_applies dag undag (nth p strs 0%N) = true ->
  exists e1 e2,
    last_with_target m2 p = Some e2
    /\ last_with_target m1 (source_of e2) = Some e1
    /\ source_of e1 = p
    /\ parity_of e1 = string_sign dag undag (nth p strs 0%N)
    /\ parity_of e2
       = string_sign undag dag (string_image dag undag (nth p strs 0%N)).
Proof using Hnd Hm1 Hm2.
  intros Hp Happ.
  destruct (proj1 Hm1 p Hp Happ) as [t [Hfind Hin1]].
  pose proof (@find_index_Some _ _ _ _ Hfind) as [_ [Ht Himg]].
  rewrite Nat.sub_0_r in Ht, Himg.
  assert (Happ' : string_applies undag dag (nth t strs 0%N) = true)
    by (rewrite Himg; apply string_image_applies; exact Happ).
  destruct (proj1 Hm2 t Ht Happ') as [u [Hfind' Hin2]].
  assert (u = p) as ->.
  { rewrite Himg, string_image_inverse in Hfind' by exact Happ.
    rewrite (@find_index_nth _ _ 0 Hnd Hp) in Hfind'. inversion Hfind'. reflexivity. }
  destruct (last_with_target m2 p) as [e2|] eqn:L2.
  2:{ exfalso. apply (@last_with_target_None _ _ _ L2 Hin2). reflexivity. }
  destruct (@last_with_target_Some _ _ _ L2) as [He2 Ht2].
  destruct (proj2 Hm2 e2 He2) as [Hu [Happ2 [Hfind2 Hpar2]]].
  (* the source of e2 is t *)
  assert (Hsrc2 : source_of e2 = t).
  { pose proof (@find_index_Some _ _ _ _ Hfind2) as [_ [_ Himg2]].
    rewrite Nat.sub_0_r, Ht2 in Himg2.
    apply (@nth_NoDup_inj _ _ _ Hnd Hu Ht).
    rewrite <- (@string_image_inverse _ _ _ Happ2), <- Himg2, Himg.
    reflexivity. }
  destruct (last_with_target m1 (source_of e2)) as [e1|] eqn:L1.
  2:{ exfalso. rewrite Hsrc2 in L1.
      apply (@last_with_target_None _ _ _ L1 Hin1). reflexivity. }
  destruct (@last_with_target_Some _ _ _ L1) as [He1 Ht1].
  pose proof (@trip_closes _ _ He1 He2 Ht1) as Hclose.
  rewrite Ht2 in Hclose.
  destruct (proj2 Hm1 e1 He1) as [_ [_ [_ Hpar1]]].
  exists e1, e2. repeat split; auto.
  - rewrite Hpar1, <- Hclose. reflexivity.
  - rewrite Hpar2, Hsrc2, Himg. reflexivity.
Qed.

(** Off the support nothing comes back. *)
Lemma trip_off_support (p : nat) (e1 e2 : Entry) :
  string_applies dag undag (nth p strs 0%N) = false ->
  last_with_target m2 p = Some e2 ->
  last_with_target m1 (source_of e2) = Some e1 -> False.
Proof using Hnd Hm1 Hm2.
  intros Happ L2 L1.
  destruct (@last_with_target_Some _ _ _ L2) as [He2 Ht2].
  destruct (@last_with_target_Some _ _ _ L1) as [He1 Ht1].
  pose proof (@trip_closes _ _ He1 He2 Ht1) as Hclose.
  destruct (proj2 Hm1 e1 He1) as [_ [Happ1 _]].
  rewrite <- Hclose, Ht2 in Happ1. congruence.
Qed.

End Trip.

(** ** [apply_individual_nbody] and the inverse string *)

Lemma __deepcopy___core (self out : FqeData) :
  __deepcopy__ self = Ok out -> _core out = _core self.
Proof.
  unfold __deepcopy__, __init__.
  destruct (validate_config _ _ _); cbn [rbind]; [|discriminate].
  match goal with |- context [if ?b then _ else _] => destruct b end;
    cbn [rbind]; [discriminate|].
  intros H. inversion H. reflexivity.
Qed.

Lemma last_with_target_nil (t : nat) : last_with_target [] t = None.
Proof. reflexivity. Qed.

(** The coefficients [apply_individual_nbody] returns. *)
Lemma apply_individual_nbody_value (self out : FqeData) (c : complex)
    (daga undaga dagb undagb : list nat) :
  apply_individual_nbody self c daga undaga dagb undagb = Ok out ->
  exists ma mb,
    make_mapping_each self true daga undaga dagb undagb = Ok ma
    /\ make_mapping_each self false daga undaga dagb undagb = Ok mb
    /\ _core out = _core self
    /\ forall P Q,
         coeff out P Q
         = match last_with_target ma P, last_with_target mb Q with
           | Some ea, Some eb =>
               (c * C_of_Z (parity_of ea)
                * (coeff self (source_of ea) (source_of eb)
                   * C_of_Z (parity_of eb)))%C
           | _, _ => 0%C
           end.
Proof.
  unfold apply_individual_nbody.
  destruct (assert_ _); cbn [rbind]; [|discriminate].
  destruct (make_mapping_each self true _ _ _ _) as [ma|]; cbn [rbind];
    [|discriminate].
  destruct (make_mapping_each self false _ _ _ _) as [mb|]; cbn [rbind];
    [|discriminate].
  destruct (__deepcopy__ self) as [o|] eqn:Hcopy; cbn [rbind]; [|discriminate].
  apply __deepcopy___core in Hcopy.
  intros H. exists ma, mb. repeat split.
  - destruct ((length ma =? 0) || (length mb =? 0));
      inversion H; subst; exact Hcopy.
  - intros P Q.
    destruct ((length ma =? 0) || (length mb =? 0)) eqn:Hempty;
      inversion H; subst out; clear H; cbn [coeff with_coeff].
    + apply orb_true_iff in Hempty. destruct Hempty as [E|E];
        apply Nat.eqb_eq in E; apply length_zero_iff_nil in E; subst.
      * reflexivity.
      * rewrite last_with_target_nil.
        destruct (last_with_target ma P); reflexivity.
    + unfold coeff_of. cbn [coeff with_coeff].
      rewrite for_each_ext
        with (g := fun ea oc =>
               for_each mb
                 (fun eb oc' =>
                    set2 oc' (target_of ea) (target_of eb)
                      (c * C_of_Z (parity_of ea)
                       * (coeff self (source_of ea) (source_of eb)
                          * C_of_Z (parity_of eb)))%C) oc).
      * rewrite assign_loops. reflexivity.
      * intros [[sa ta] pa] oc. apply for_each_ext.
        intros [[sb tb] pb] oc'. reflexivity.
Qed.

Lemma individual_nbody_round_trip_value (self out1 out2 : FqeData)
    (c1 c2 : complex) (daga undaga dagb undagb : list nat) (p q : nat) :
  apply_individual_nbody self c1 daga undaga dagb undagb = Ok out1 ->
  apply_individual_nbody out1 c2 undaga daga undagb dagb = Ok out2 ->
  p < lena self -> q < lenb self ->
  coeff out2 p q
  = if on_support self daga undaga dagb undagb p q
    then (c1 * c2
          * (pair_sign self daga undaga dagb undagb p q
             * pair_sign_back self daga undaga dagb undagb p q)
          * coeff self p q)%C
    else 0%C.
Proof.
  intros H1 H2 Hp Hq.
  apply apply_individual_nbody_value in H1.
  destruct H1 as [m1a [m1b [Ha1 [Hb1 [Hcore1 Hv1]]]]].
  apply apply_individual_nbody_value in H2.
  destruct H2 as [m2a [m2b [Ha2 [Hb2 [_ Hv2]]]]].
  apply make_mapping_each_spec in Ha1, Hb1, Ha2, Hb2.
  rewrite Hcore1 in Ha2, Hb2.
  pose proof (strings_NoDup (FciGraph.norb (_core self))
                (FciGraph.nalpha (_core self))) as Hnda.
  pose proof (strings_NoDup (FciGraph.norb (_core self))
                (FciGraph.nbeta (_core self))) as Hndb.
  rewrite Hv2. unfold on_support, FciGraph.string_alpha, FciGraph.string_beta.
  destruct (string_applies daga undaga
              (nth p (FciGraph.strings_alpha (_core self)) 0%N)) eqn:Sa.
  - destruct (string_applies dagb undagb
                (nth q (FciGraph.strings_beta (_core self)) 0%N)) eqn:Sb.
    + destruct (@trip_on_support _ _ _ _ _ Hnda Ha1 Ha2 p Hp Sa)
        as [ea [fa [La2 [La1 [Sea [Pea Pfa]]]]]].
      destruct (@trip_on_support _ _ _ _ _ Hndb Hb1 Hb2 q Hq Sb)
        as [eb [fb [Lb2 [Lb1 [Seb [Peb Pfb]]]]]].
      rewrite La2, Lb2, Hv1, La1, Lb1, Sea, Seb, Pea, Peb, Pfa, Pfb.
      cbn [andb]. unfold pair_sign, pair_sign_back,
        FciGraph.string_alpha, FciGraph.string_beta,
        FciGraph.strings_alpha, FciGraph.strings_beta. ring.
    + cbn [andb].
      destruct (last_with_target m2a p) as [fa|]; [|reflexivity].
      destruct (last_with_target m2b q) as [fb|] eqn:Lb2; [|reflexivity].
      rewrite Hv1.
      destruct (last_with_target m1a (source_of fa)); [|ring].
      destruct (last_with_target m1b (source_of fb)) eqn:Lb1; [|ring].
      exfalso. exact (@trip_off_support _ _ _ _ _ Hndb Hb1 Hb2 q _ _ Sb Lb2 Lb1).
  - cbn [andb].
    destruct (last_with_target m2a p) as [fa|] eqn:La2; [|reflexivity].
    destruct (last_with_target m2b q) as [fb|]; [|reflexivity].
    rewrite Hv1.
    destruct (last_with_target m1a (source_of fa)) eqn:La1; [|ring].
    exfalso. exact (@trip_off_support _ _ _ _ _ Hnda Ha1 Ha2 p _ _ Sa La2 La1).
Qed.

(** ** [apply_inplace] *)

Lemma apply_inplace_outcome {K : Contractions} (self : FqeData)
    (array : list Tensor) :
  (exists e, apply_inplace array self = (Err e, self))
  \/ (exists c, routine_output self array c
               /\ apply_inplace array self = (Ok tt, with_coeff self c)).
Proof.
  unfold apply_inplace, m_bind, lift, get_self, set_coeff, m_ret, dim, item.
  destruct array as [|a0 [|a1 [|a2 [|a3 [|a4 rest]]]]];
    cbn [length Nat.ltb Nat.leb Nat.eqb andb assert_ nth_error].
  1, 6: left; eexists; reflexivity.
  all: destruct (shape a0) as [|d0 dims];
    [left; eexists; reflexivity|].
  all: destruct (d0 =? norb self).
  all: match goal with
       | |- context [match ?r with Ok _ => _ | Err _ => _ end] =>
           destruct r as [c|e] eqn:Hr
       end.
  all: try (left; eexists; reflexivity).
  all: right; exists c; (split; [cbn [routine_output]; auto | reflexivity]).
Qed.

Lemma apply_inplace_length {K : Contractions} (self : FqeData)
    (array : list Tensor) :
  length array = 0 \/ 5 <= length array ->
  apply_inplace array self = (Err AssertionError, self).
Proof.
  intros H. unfold apply_inplace, m_bind, lift.
  replace ((length array <? 5) && (0 <? length array)) with false; [reflexivity|].
  symmetry. apply andb_false_iff.
  destruct H as [H|H]; [right | left]; apply Nat.ltb_ge; lia.
Qed.

Lemma apply_inplace_shape {K : Contractions} (self : FqeData) (h1e : Tensor) :
  shape h1e <> [norb self; norb self] ->
  shape h1e <> [norb self * 2; norb self * 2] ->
  exists e, apply_inplace [h1e] self = (Err e, self).
Proof.
  intros H1 H2.
  destruct (shape h1e) as [|d0 rest] eqn:Hs.
  - exists IndexError. unfold apply_inplace, m_bind, lift, get_self, dim, item.
    cbn [length Nat.ltb Nat.leb Nat.eqb andb assert_ nth_error].
    rewrite Hs. reflexivity.
  - rewrite (@apply_inplace_1body K self h1e d0 rest Hs).
    unfold _apply_array_spatial1, _apply_array_spin1, shape_eqb.
    rewrite Hs, !bool_decide_eq_false_2 by assumption.
    cbn [assert_ rbind].
    exists AssertionError. destruct (d0 =? norb self); reflexivity.
Qed.

Lemma apply_inplace_2body {K : Contractions} (self : FqeData)
    (h1e h2e : Tensor) (d0 : nat) (rest : list nat) :
  shape h1e = d0 :: rest ->
  apply_inplace [h1e; h2e] self
  = match (if d0 =? norb self then _apply_array_spatial12 self h1e h2e
           else _apply_array_spin12 self h1e h2e) with
    | Ok c => (Ok tt, with_coeff self c)
    | Err e => (Err e, self)
    end.
Proof.
  intros Hs. unfold apply_inplace, m_bind, lift, get_self, set_coeff, dim, item.
  cbn [length Nat.ltb Nat.leb andb assert_ nth_error Nat.eqb].
  rewrite Hs. cbn [nth_error].
  destruct (d0 =? norb self);
    match goal with
    | |- context [match ?r with Ok _ => _ | Err _ => _ end] => destruct r
    end; reflexivity.
Qed.

Lemma apply_inplace_shape2 {K : Contractions} (self : FqeData)
    (h1e h2e : Tensor) :
  shape h1e <> [norb self; norb self] ->
  shape h1e <> [norb self * 2; norb self * 2] ->
  exists e, apply_inplace [h1e; h2e] self = (Err e, self).
Proof.
  intros H1 H2.
  destruct (shape h1e) as [|d0 rest] eqn:Hs.
  - exists IndexError. unfold apply_inplace, m_bind, lift, get_self, dim, item.
    cbn [length Nat.ltb Nat.leb Nat.eqb andb assert_ nth_error].
    rewrite Hs. reflexivity.
  - rewrite (@apply_inplace_2body K self h1e h2e d0 rest Hs).
    unfold _apply_array_spatial12, _apply_array_spin12, shape_eqb.
    rewrite Hs, (bool_decide_eq_false_2 _ H1), (bool_decide_eq_false_2 _ H2).
    cbn [assert_ rbind].
    exists AssertionError. destruct (d0 =? norb self); reflexivity.
Qed.

(** ** The dispatch on the filling *)

Lemma Qltb_lt (x y : Q) : Qltb x y = true <-> (x < y)%Q.
Proof.
  unfold Qltb. rewrite negb_true_iff. split.
  - intros H. apply Qnot_le_lt. intros Hle.
    apply Qle_bool_iff in Hle. congruence.
  - intros H. apply not_true_is_false. intros Hle.
    apply Qle_bool_iff in Hle. apply (Qlt_not_le _ _ H Hle).
Qed.

Lemma below_threshold_low_filling (self : FqeData) :
  _low_thresh self = (3 # 10) ->
  below_threshold self = true <-> low_filling self.
Proof.
  intros Ht. unfold below_threshold, low_filling.
  rewrite Ht, andb_true_iff, !Qltb_lt.
  rewrite (Qmult_comm (Q_of_nat (norb self)) (3 # 10)). reflexivity.
Qed.

(** ** [ax_plus_y] *)

(** The statements about [__hash__] are declared without inferred implicit
    arguments: inferring them normalises the hash of a symbolic tuple. *)
Unset Implicit Arguments.

Lemma ax_plus_y_assertion (self other : FqeData) (sval : complex) :
  __hash__ self = __hash__ other ->
  fst (ax_plus_y sval other self) <> Err AssertionError.
Proof.
  intros H. unfold ax_plus_y, m_bind, get_self, lift, set_coeff.
  rewrite H, Z.eqb_refl. clear H. cbn [assert_].
  unfold broadcast_to.
  match goal with |- context [if ?b then Ok _ else _] => destruct b end;
    cbn [fst]; intros E; discriminate E.
Qed.

Lemma __hash___of_counts (self other : FqeData) :
  class_invariant self -> class_invariant other ->
  nalpha self + nbeta self = nalpha other + nbeta other ->
  (Z.of_nat (nalpha self) - Z.of_nat (nbeta self)
   = Z.of_nat (nalpha other) - Z.of_nat (nbeta other))%Z ->
  __hash__ self = __hash__ other.
Proof.
  intros [_ [Hn1 Hm1]] [_ [Hn2 Hm2]] Hn Hm. unfold __hash__.
  rewrite Hn1, Hm1, Hn2, Hm2, Hm. f_equal. f_equal. lia.
Qed.

Set Implicit Arguments.

(** ** Copies in the store *)

Lemma alloc_spec (h : store.heap) (o : store.object) :
  h !! fst (store.alloc h o) = None
  /\ snd (store.alloc h o) = <[fst (store.alloc h o) := o]> h.
Proof.
  unfold store.alloc. cbn [fst snd]. split; [|reflexivity].
  apply not_elem_of_dom. apply is_fresh.
Qed.

Lemma new_with_graph (h : store.heap) (c : store.ref) (g : FciGraph.t) :
  valid_config g -> h !! c = Some (store.Graph g) ->
  exists l1 l2,
    store.new (Z.of_nat (FciGraph.nalpha g)) (Z.of_nat (FciGraph.nbeta g))
      (Z.of_nat (FciGraph.norb g)) (Some c) h
    = Ok (l2,
          <[l2 := store.Instance
                    (store.mkInstance c (3 # 10)
                       (Z.of_nat (FciGraph.nalpha g) + Z.of_nat (FciGraph.nbeta g))
                       (Z.of_nat (FciGraph.nalpha g) - Z.of_nat (FciGraph.nbeta g))
                       l1)]>
            (<[l1 := store.NdArray zeros2]> h))
    /\ h !! l1 = None /\ h !! l2 = None /\ l1 <> l2.
Proof.
  intros Hv Hc. unfold store.new, store.get_graph. rewrite Hc. cbn [rbind].
  rewrite __init___same_graph by exact Hv. cbn [rbind _core coeff _low_thresh _nele _m_s].
  destruct (alloc_spec h (store.NdArray zeros2)) as [F1 E1].
  destruct (store.alloc h (store.NdArray zeros2)) as [l1 h1] eqn:A1.
  cbn [fst snd] in F1, E1. subst h1.
  match goal with
  | |- context [store.alloc ?hh ?oo] =>
      destruct (alloc_spec hh oo) as [F2 E2];
      destruct (store.alloc hh oo) as [l2 h2] eqn:A2
  end.
  cbn [fst snd] in F2, E2. subst h2.
  exists l1, l2. split; [reflexivity|].
  assert (l1 <> l2).
  { intros ->. rewrite lookup_insert_eq in F2. discriminate. }
  split; [exact F1|]. split; [|assumption].
  rewrite lookup_insert_ne in F2 by assumption. exact F2.
Qed.

(** Rewriting the lookups of a store built by insertions. *)
Ltac lookups :=
  repeat first
    [ rewrite lookup_insert_eq
    | rewrite lookup_insert_ne by congruence
    | progress unfold store.set_low_thresh, store.set_coeff_ref
    | progress cbn [rbind store.coeff_ref store.core_ref store.low_thresh
                    store.nele store.m_s fst snd]
    | match goal with
      | H : ?h !! ?l = Some _ |- context [?h !! ?l] => rewrite H
      end ].

(** An instance whose coefficient array is another object than the one of
    [self], while its graph reference is the same. *)
Lemma shares_graph_only_intro (h h' : store.heap) (self new : store.ref)
    (o o' : store.instance) (a a' : Array2) :
  h !! self = Some (store.Instance o) ->
  h !! store.coeff_ref o = Some (store.NdArray a) ->
  h' !! self = Some (store.Instance o) ->
  h' !! store.coeff_ref o = Some (store.NdArray a) ->
  h' !! new = Some (store.Instance o') ->
  h' !! store.coeff_ref o' = Some (store.NdArray a') ->
  store.core_ref o' = store.core_ref o ->
  store.coeff_ref o' <> store.coeff_ref o ->
  shares_graph_only h self new h'.
Proof.
  intros Hself Hcoeff Hself' Hcoeff' Hnew Hnewc Hcore Hne.
  assert (N1 : store.coeff_ref o' <> self) by congruence.
  assert (N2 : store.coeff_ref o' <> new) by congruence.
  exists a, (store.core_ref o).
  unfold store.coeff, store.get_fcigraph, store.fill, store.setitem,
    store.get_instance, store.get_array.
  lookups. rewrite Hcore.
  split; [reflexivity|]. split; [reflexivity|]. split; [reflexivity|].
  split; [reflexivity|]. split.
  - intros v. eexists. split; [reflexivity|]. lookups. split; reflexivity.
  - intros p q v. eexists. split; [reflexivity|]. lookups. reflexivity.
Qed.

Lemma __copy___shares_graph_only (h : store.heap) (self : store.ref) :
  allocated h self ->
  exists new h',
    store.__copy__ self h = Ok (new, h')
    /\ shares_graph_only h self new h'
    /\ same_coefficients h self new h'.
Proof.
  intros [o [g [a [Hself [Hcore [Hcoeff Hv]]]]]].
  destruct (new_with_graph h (store.core_ref o) Hv Hcore)
    as [l1 [l2 [Hnew [F1 [F2 Hne]]]]].
  unfold store.__copy__, store.get_instance, store.get_graph, store.get_array.
  lookups. rewrite Hnew. lookups.
  eexists _, _. split; [reflexivity|].
  assert (Hs1 : self <> l1) by congruence.
  assert (Hs2 : self <> l2) by congruence.
  assert (Hc1 : store.coeff_ref o <> l1) by congruence.
  assert (Hc2 : store.coeff_ref o <> l2) by congruence.
  split.
  - eapply (@shares_graph_only_intro h _ self l2 o _ a _).
    all: lookups; try reflexivity.
    all: lookups; try reflexivity; congruence.
  - eexists _, _. unfold store.value_of, store.coeff, store.get_instance,
      store.get_graph, store.get_array.
    lookups.
    split; [reflexivity|]. split; [reflexivity|].
    intros p q Hp Hq. unfold assign_all. cbn [coeff].
    unfold lena, lenb in Hp, Hq. cbn [_core] in Hp, Hq.
    replace (p <? FciGraph.lena g) with true by (symmetry; apply Nat.ltb_lt; exact Hp).
    replace (q <? FciGraph.lenb g) with true by (symmetry; apply Nat.ltb_lt; exact Hq).
    reflexivity.
Qed.

(** What [__deepcopy__] leaves in the store. *)
Lemma __deepcopy___store (h : store.heap) (self : store.ref)
    (o : store.instance) (g : FciGraph.t) (a : Array2) :
  h !! self = Some (store.Instance o) ->
  h !! store.core_ref o = Some (store.Graph g) ->
  h !! store.coeff_ref o = Some (store.NdArray a) ->
  valid_config g ->
  exists new h' o',
    store.__deepcopy__ self h = Ok (new, h')
    /\ h' !! self = Some (store.Instance o)
    /\ h' !! store.core_ref o = Some (store.Graph g)
    /\ h' !! store.coeff_ref o = Some (store.NdArray a)
    /\ h' !! new = Some (store.Instance o')
    /\ h' !! store.coeff_ref o' = Some (store.NdArray a)
    /\ store.core_ref o' = store.core_ref o
    /\ store.coeff_ref o' <> store.coeff_ref o
    /\ new <> self.
Proof.
  intros Hself Hcore Hcoeff Hv.
  destruct (new_with_graph h (store.core_ref o) Hv Hcore)
    as [l1 [l2 [Hnew [F1 [F2 Hne]]]]].
  unfold store.__deepcopy__, store.get_instance, store.get_graph, store.get_array.
  lookups. rewrite Hnew. lookups.
  match goal with
  | |- context [store.alloc ?hh ?oo] =>
      destruct (alloc_spec hh oo) as [F3 E3];
      destruct (store.alloc hh oo) as [l3 h3] eqn:A3
  end.
  cbn [fst snd] in F3, E3. subst h3.
  assert (N32 : l3 <> l2) by (intros ->; rewrite lookup_insert_eq in F3; discriminate).
  rewrite lookup_insert_ne in F3 by congruence.
  rewrite lookup_insert_ne in F3 by congruence.
  assert (N31 : l1 <> l3) by (intros ->; rewrite lookup_insert_eq in F3; discriminate).
  rewrite lookup_insert_ne in F3 by assumption.
  eexists l2, _, _. split; [reflexivity|].
  split; [|split; [|split; [|split; [|split; [|split; [|split]]]]]].
  all: lookups; try reflexivity.
  all: lookups; try reflexivity; congruence.
Qed.

Lemma __deepcopy___shares_graph_only (h : store.heap) (self : store.ref) :
  allocated h self ->
  exists new h',
    store.__deepcopy__ self h = Ok (new, h')
    /\ shares_graph_only h self new h'
    /\ same_coefficients h self new h'.
Proof.
  intros [o [g [a [Hself [Hcore [Hcoeff Hv]]]]]].
  destruct (__deepcopy___store h self Hself Hcore Hcoeff Hv)
    as [new [h' [o' [Hcopy [S1 [S2 [S3 [S4 [S5 [S6 [S7 S8]]]]]]]]]]].
  exists new, h'. split; [exact Hcopy|]. split.
  - exact (@shares_graph_only_intro h h' self new o o' a a
             Hself Hcoeff S1 S3 S4 S5 S6 S7).
  - exists (mkFqeData g (store.low_thresh o) (store.nele o) (store.m_s o) a), a.
    unfold store.value_of, store.coeff, store.get_instance, store.get_graph,
      store.get_array.
    lookups. split; [reflexivity|]. split; [reflexivity|].
    intros p q _ _. reflexivity.
Qed.

Lemma apply_shares_graph_only {K : Contractions} (h : store.heap)
    (self : store.ref) (array : list Tensor) (new : store.ref)
    (h' : store.heap) :
  allocated h self ->
  store.apply self array h = Ok (new, h') ->
  shares_graph_only h self new h'.
Proof.
  intros [o [g [a [Hself [Hcore [Hcoeff Hv]]]]]] Happly.
  destruct (__deepcopy___store h self Hself Hcore Hcoeff Hv)
    as [out [h1 [o' [Hcopy [S1 [S2 [S3 [S4 [S5 [S6 [S7 S8]]]]]]]]]]].
  unfold store.apply in Happly. rewrite Hcopy in Happly. cbn [rbind] in Happly.
  unfold store.apply_inplace, store.value_of, store.get_instance,
    store.get_graph, store.get_array in Happly.
  rewrite S4 in Happly. cbn [rbind] in Happly.
  rewrite S6, S2 in Happly. cbn [rbind] in Happly.
  rewrite S5 in Happly. cbn [rbind] in Happly.
  destruct (apply_inplace array _) as [[[]|e] v'] eqn:Hrun;
    [|cbn [rbind] in Happly; discriminate].
  match type of Happly with
  | context [store.alloc ?hh ?oo] =>
      destruct (alloc_spec hh oo) as [F E];
      destruct (store.alloc hh oo) as [l h2] eqn:A
  end.
  cbn [fst snd] in F, E. subst h2. cbn [rbind snd] in Happly.
  inversion Happly; subst new h'. clear Happly.
  assert (Ns : self <> l) by congruence.
  assert (Nc : store.coeff_ref o <> l) by congruence.
  assert (No : out <> l) by congruence.
  assert (Nco : out <> store.coeff_ref o) by congruence.
  eapply (@shares_graph_only_intro h _ self out o (store.set_coeff_ref o' l) a _).
  all: lookups; try reflexivity.
  all: lookups; try reflexivity; congruence.
Qed.

(* ===================================================================== *)
(** * The properties of the specification *)
(* ===================================================================== *)

(** ** C1: [apply] with the scaled identity *)

(** C1, as stated, fails: on the Hartree-Fock determinant of two orbitals
    with one electron of each species, [apply] with twice the identity
    returns [coeff[0, 0] = 4], not [2]. *)
Lemma apply_identity_is_not_a_scaling : ~ spec_apply_identity.
Proof.
  intros H.
  assert (Hv : valid_config (_core hartree_fock_2)) by (split; cbn; lia).
  destruct (H not_available hartree_fock_2 (C_of_Z 2) 2 Hv (or_introl eq_refl))
    as [out [Hout Heq]].
  destruct (@apply_scaled_identity_value not_available hartree_fock_2
              (C_of_Z 2) 2 Hv (or_introl eq_refl))
    as [out' [Hout' [_ Heq']]].
  rewrite Hout in Hout'. inversion Hout'; subst out'. clear Hout'.
  assert (Hp : 0 < lena hartree_fock_2) by (vm_compute; lia).
  assert (Hq : 0 < lenb hartree_fock_2) by (vm_compute; lia).
  specialize (Heq 0 0 Hp Hq). specialize (Heq' 0 0 Hp Hq).
  rewrite Heq in Heq'. apply Ceqb_eq in Heq'. vm_compute in Heq'. discriminate.
Qed.

(** C1, amended: for every sector state of a valid configuration and every
    scalar [s], [apply] with the single tensor [s] times the identity, of
    size [norb] (spatial) or [2 * norb] (spin-orbital), returns a state on
    the same graph whose coefficients are [s * (nalpha + nbeta)] times the
    original ones: the identity 1-body operator is the particle-number
    operator. *)
Theorem apply_scaled_identity (K : Contractions) (self : FqeData)
    (s : complex) (n : nat) :
  valid_config (_core self) ->
  n = norb self \/ n = 2 * norb self ->
  exists out,
    apply self [scaled_identity n s] = Ok out
    /\ _core out = _core self
    /\ eq_on2 (lena self) (lenb self) (coeff out)
         (fun p q =>
            (s * C_of_nat (nalpha self + nbeta self) * coeff self p q)%C).
Proof. apply apply_scaled_identity_value. Qed.

Lemma apply_scaled_identity_witness :
  valid_config (_core hartree_fock_2)
  /\ (4 = norb hartree_fock_2 \/ 4 = 2 * norb hartree_fock_2)
  /\ exists out,
       @apply not_available hartree_fock_2 [scaled_identity 4 (C_of_Z 2)] = Ok out
       /\ _core out = _core hartree_fock_2
       /\ eq_on2 (lena hartree_fock_2) (lenb hartree_fock_2) (coeff out)
            (fun p q =>
               (C_of_Z 2 * C_of_nat (nalpha hartree_fock_2 + nbeta hartree_fock_2)
                * coeff hartree_fock_2 p q)%C).
Proof.
  assert (Hv : valid_config (_core hartree_fock_2)) by (split; cbn; lia).
  assert (Hn : 4 = norb hartree_fock_2 \/ 4 = 2 * norb hartree_fock_2)
    by (right; reflexivity).
  split; [exact Hv|]. split; [exact Hn|].
  exact (@apply_scaled_identity not_available hartree_fock_2 (C_of_Z 2) 4 Hv Hn).
Defined.

(** ** C3: the dispatch on the filling *)

(** C3: with the threshold the constructor sets (0.3), the 2-body [apply]
    routines (spatial and spin-orbital, once their shape assertions pass)
    and [rdm12] run the low-filling routine when both occupations are
    strictly below [0.3 * norb], and the half-filling routine otherwise,
    whatever the routines compute. *)
Theorem dispatch_on_filling (K : Contractions) (self : FqeData)
    (h1e h2e : Tensor) (bradata : option FqeData) :
  _low_thresh self = (3 # 10) ->
  (low_filling self ->
     (shape h1e = [norb self; norb self] ->
      shape h2e = [norb self; norb self; norb self; norb self] ->
      _apply_array_spatial12 self h1e h2e
      = _apply_array_spatial12_lowfilling self h1e h2e)
     /\ (shape h1e = [norb self * 2; norb self * 2] ->
         shape h2e = [norb self * 2; norb self * 2; norb self * 2; norb self * 2] ->
         _apply_array_spin12 self h1e h2e
         = _apply_array_spin12_lowfilling self h1e h2e)
     /\ rdm12 self bradata = _rdm12_lowfilling self bradata)
  /\ (~ low_filling self ->
        (shape h1e = [norb self; norb self] ->
         shape h2e = [norb self; norb self; norb self; norb self] ->
         _apply_array_spatial12 self h1e h2e
         = _apply_array_spatial12_halffilling self h1e h2e)
        /\ (shape h1e = [norb self * 2; norb self * 2] ->
            shape h2e = [norb self * 2; norb self * 2; norb self * 2; norb self * 2] ->
            _apply_array_spin12 self h1e h2e
            = _apply_array_spin12_halffilling self h1e h2e)
        /\ rdm12 self bradata = Ok (_rdm12_halffilling self bradata)).
Proof.
  intros Ht.
  pose proof (below_threshold_low_filling self Ht) as Hlow.
  unfold _apply_array_spatial12, _apply_array_spin12, rdm12.
  split; intros H.
  - apply Hlow in H. rewrite H.
    repeat split; try reflexivity; intros -> ->;
      rewrite !shape_eqb_refl; reflexivity.
  - assert (Hb : below_threshold self = false).
    { destruct (below_threshold self); [exfalso; apply H, Hlow; reflexivity|].
      reflexivity. }
    rewrite Hb.
    repeat split; try reflexivity; intros -> ->;
      rewrite !shape_eqb_refl; reflexivity.
Qed.


Lemma dispatch_on_filling_witness :
  _low_thresh (state_of 1 1 4 []) = (3 # 10)
  /\ low_filling (state_of 1 1 4 [])
  /\ @rdm12 not_available (state_of 1 1 4 []) None
     = @_rdm12_lowfilling not_available (state_of 1 1 4 []) None.
Proof.
  assert (Ht : _low_thresh (state_of 1 1 4 []) = (3 # 10)) by reflexivity.
  assert (Hl : low_filling (state_of 1 1 4 []))
    by (split; vm_compute; reflexivity).
  split; [exact Ht|]. split; [exact Hl|].
  exact (proj2 (proj2
           (proj1 (@dispatch_on_filling not_available (state_of 1 1 4 [])
                     (scaled_identity 4 0%C) (scaled_identity 4 0%C) None Ht)
              Hl))).
Defined.

(** ** C4: the trace of the 1-RDM *)

(** C4: for every sector state whose coefficients have norm 1, the trace of
    the matrix [rdm1] returns is [nalpha + nbeta]. *)
Theorem rdm1_trace (self : FqeData) :
  norm_sq self = 1%C ->
  trace (norb self) (rdm1 self None) = C_of_nat (nalpha self + nbeta self).
Proof.
  intros H. rewrite rdm1_trace_value, H.
  replace (Cconj 1) with 1%C by (apply Ceqb_eq; reflexivity). ring.
Qed.

Lemma rdm1_trace_witness :
  norm_sq one_electron_complex = 1%C
  /\ trace (norb one_electron_complex) (rdm1 one_electron_complex None)
     = C_of_nat (nalpha one_electron_complex + nbeta one_electron_complex).
Proof.
  assert (H : norm_sq one_electron_complex = 1%C)
    by (apply Ceqb_eq; vm_compute; reflexivity).
  split; [exact H|].
  exact (rdm1_trace one_electron_complex H).
Defined.

(** ** C5: the partial trace of the 2-RDM *)

(** C5 at a normalized state with a complex 1-RDM (two orbitals, one alpha
    electron, amplitudes [3/5] and [4j/5]): [rdm12] runs the half-filling
    code, and the partial trace of the 2-RDM it returns has the entry
    [-48j/25] at [(0, 1)], where [(nalpha + nbeta - 1)] times the 1-RDM is
    zero.  The code adds the 1-RDM to [rdm2[:, i, i, :]] before transposing
    it. *)
Theorem rdm12_partial_trace_at_complex_state (K : Contractions) :
  norm_sq one_electron_complex = 1%C
  /\ rdm12 one_electron_complex None
     = Ok (_rdm12_halffilling one_electron_complex None)
  /\ partial_trace (norb one_electron_complex)
       (snd (_rdm12_halffilling one_electron_complex None)) 0 1
     = C_of 0 (Qc_of (-48) 25)
  /\ (C_of_nat (nalpha one_electron_complex + nbeta one_electron_complex - 1)
      * fst (_rdm12_halffilling one_electron_complex None) 0%nat 1%nat)%C
     = 0%C
  /\ fst (_rdm12_halffilling one_electron_complex None) 0 1
     = C_of 0 (Qc_of 12 25).
Proof.
  split; [apply Ceqb_eq; vm_compute; reflexivity|].
  split; [reflexivity|].
  repeat split; apply Ceqb_eq; vm_compute; reflexivity.
Qed.

(** ** C6: the round trip through the D-vector *)

(** C6, as stated, fails: on the Hartree-Fock determinant of two orbitals
    with one electron of each species the round trip returns
    [coeff[0, 0] = 4], whether the identity weights the orbital pairs or the
    D-vector is folded back as it is. *)
Lemma round_trip_does_not_reproduce : ~ spec_round_trip.
Proof.
  intros H.
  assert (Hv : valid_config (_core hartree_fock_2)) by (split; cbn; lia).
  assert (Hp : 0 < lena hartree_fock_2) by (vm_compute; lia).
  assert (Hq : 0 < lenb hartree_fock_2) by (vm_compute; lia).
  destruct (H hartree_fock_2 Hv) as [E|E];
    specialize (E 0 0 Hp Hq); apply Ceqb_eq in E; vm_compute in E; discriminate.
Qed.

(** C6, amended: building the D-vector, weighting every orbital pair with
    the identity and folding back through
    [_calculate_coeff_spatial_with_dvec] multiplies the coefficient of every
    determinant pair by [nalpha + nbeta] plus twice the number of orbitals
    occupied in both of its strings. *)
Theorem dvec_round_trip_identity (self : FqeData) (p q : nat) :
  p < lena self -> q < lenb self ->
  dvec_round_trip self identity_matrix p q
  = (C_of_nat (nalpha self + nbeta self + 2 * doubly_occupied self p q)
     * coeff self p q)%C.
Proof. apply dvec_round_trip_value. Qed.

Lemma dvec_round_trip_identity_witness :
  0 < lena hartree_fock_2 /\ 0 < lenb hartree_fock_2
  /\ dvec_round_trip hartree_fock_2 identity_matrix 0 0
     = (C_of_nat (nalpha hartree_fock_2 + nbeta hartree_fock_2
                  + 2 * doubly_occupied hartree_fock_2 0 0)
        * coeff hartree_fock_2 0%nat 0%nat)%C.
Proof.
  assert (Hp : 0 < lena hartree_fock_2) by (vm_compute; lia).
  assert (Hq : 0 < lenb hartree_fock_2) by (vm_compute; lia).
  split; [exact Hp|]. split; [exact Hq|].
  exact (@dvec_round_trip_identity hartree_fock_2 0 0 Hp Hq).
Defined.

(** ** C7: an excitation string and its inverse *)

(** C7, as stated, fails: on the state with one alpha electron in two
    orbitals and the amplitudes 3 and 5, the string that moves the electron
    from orbital 0 to orbital 1 (coefficient 2) followed by its inverse
    (coefficient 7) returns the amplitudes 42 and 0: the amplitude 5 of the
    determinant the string does not act on is lost, whatever the sign. *)
Lemma inverse_string_loses_amplitudes : ~ spec_inverse_string.
Proof.
  intros H.
  assert (E1 : apply_individual_nbody one_electron_35 (C_of_Z 2) [1] [0] [] []
               = Ok moved_35) by reflexivity.
  assert (E2 : apply_individual_nbody moved_35 (C_of_Z 7) [0] [1] [] []
               = Ok moved_back_35) by reflexivity.
  assert (Hp : 1 < lena one_electron_35) by (vm_compute; lia).
  assert (Hq : 0 < lenb one_electron_35) by (vm_compute; lia).
  destruct (H _ _ _ _ _ _ _ _ _ E1 E2 1 0 Hp Hq) as [sign [[-> | ->] Heq]];
    apply Ceqb_eq in Heq; vm_compute in Heq; discriminate.
Qed.

(** C7, amended: when [apply_individual_nbody] with a string and then with
    the inverse string (creation and annihilation lists swapped per species)
    both return, the result has, at every determinant pair the string acts
    on, the original coefficient times the two scalar coefficients and the
    signs of the two calls, and zero at every other pair. *)
Theorem individual_nbody_round_trip (self out1 out2 : FqeData)
    (c1 c2 : complex) (daga undaga dagb undagb : list nat) (p q : nat) :
  apply_individual_nbody self c1 daga undaga dagb undagb = Ok out1 ->
  apply_individual_nbody out1 c2 undaga daga undagb dagb = Ok out2 ->
  p < lena self -> q < lenb self ->
  coeff out2 p q
  = if on_support self daga undaga dagb undagb p q
    then (c1 * c2
          * (pair_sign self daga undaga dagb undagb p q
             * pair_sign_back self daga undaga dagb undagb p q)
          * coeff self p q)%C
    else 0%C.
Proof. apply individual_nbody_round_trip_value. Qed.

Lemma individual_nbody_round_trip_witness :
  apply_individual_nbody one_electron_35 (C_of_Z 2) [1] [0] [] [] = Ok moved_35
  /\ apply_individual_nbody moved_35 (C_of_Z 7) [0] [1] [] [] = Ok moved_back_35
  /\ 0 < lena one_electron_35 /\ 0 < lenb one_electron_35
  /\ coeff moved_back_35 0 0
     = if on_support one_electron_35 [1] [0] [] [] 0 0
       then (C_of_Z 2 * C_of_Z 7
             * (pair_sign one_electron_35 [1%nat] [0%nat] [] [] 0%nat 0%nat
                * pair_sign_back one_electron_35 [1%nat] [0%nat] [] []
                    0%nat 0%nat)
             * coeff one_electron_35 0%nat 0%nat)%C
       else 0%C.
Proof.
  assert (E1 : apply_individual_nbody one_electron_35 (C_of_Z 2) [1] [0] [] []
               = Ok moved_35) by reflexivity.
  assert (E2 : apply_individual_nbody moved_35 (C_of_Z 7) [0] [1] [] []
               = Ok moved_back_35) by reflexivity.
  assert (Hp : 0 < lena one_electron_35) by (vm_compute; lia).
  assert (Hq : 0 < lenb one_electron_35) by (vm_compute; lia).
  split; [exact E1|]. split; [exact E2|]. split; [exact Hp|]. split; [exact Hq|].
  exact (@individual_nbody_round_trip one_electron_35 moved_35 moved_back_35
           (C_of_Z 2) (C_of_Z 7) [1] [0] [] [] 0 0 E1 E2 Hp Hq).
Defined.

(** ** C8: [apply_inplace] fails before it assigns *)

(** C8: on every sector state and every tuple of tensors, [apply_inplace]
    either fails and leaves the instance as it was, or succeeds and leaves
    the instance with only [coeff] rebound to the array that the routine for
    the tuple returned, computed from the instance as it was.  A tuple of no
    tensor or of more than four fails the length assertion; a first tensor
    whose shape is neither [(norb, norb)] nor [(2 norb, 2 norb)] fails, in a
    1-body and in a 2-body call. *)
Theorem apply_inplace_all_or_nothing (K : Contractions) (self : FqeData)
    (array : list Tensor) :
  ((exists e, apply_inplace array self = (Err e, self))
   \/ (exists c, routine_output self array c
                 /\ apply_inplace array self = (Ok tt, with_coeff self c)))
  /\ (length array = 0 \/ 5 <= length array ->
      apply_inplace array self = (Err AssertionError, self))
  /\ (forall h1e rest,
        array = h1e :: rest -> length rest <= 1 ->
        shape h1e <> [norb self; norb self] ->
        shape h1e <> [norb self * 2; norb self * 2] ->
        exists e, apply_inplace array self = (Err e, self)).
Proof.
  split; [apply apply_inplace_outcome|].
  split; [apply apply_inplace_length|].
  intros h1e rest -> Hlen H1 H2.
  destruct rest as [|h2e [|h3e rest]].
  - apply apply_inplace_shape; assumption.
  - apply apply_inplace_shape2; assumption.
  - cbn [length] in Hlen. lia.
Qed.

Lemma apply_inplace_all_or_nothing_witness :
  (length (@nil Tensor) = 0 \/ 5 <= length (@nil Tensor))
  /\ @apply_inplace not_available [] hartree_fock_2
     = (Err AssertionError, hartree_fock_2).
Proof.
  assert (H : length (@nil Tensor) = 0 \/ 5 <= length (@nil Tensor))
    by (left; reflexivity).
  split; [exact H|].
  exact (proj1 (proj2 (@apply_inplace_all_or_nothing not_available
                         hartree_fock_2 [])) H).
Defined.

(** ** C9: the assertion of [ax_plus_y] *)

Unset Implicit Arguments.

(** C9: for every pair of sector states with the same [nalpha + nbeta] and
    the same [nalpha - nbeta], the two hashes are equal and [ax_plus_y] does
    not fail its assertion; and there is such a pair with different orbital
    counts and different coefficient shapes, on which the call gets past the
    assertion and fails in the addition instead. *)
Theorem ax_plus_y_checks_counts_only :
  (forall (self other : FqeData) (sval : complex),
     class_invariant self -> class_invariant other ->
     nalpha self + nbeta self = nalpha other + nbeta other ->
     (Z.of_nat (nalpha self) - Z.of_nat (nbeta self)
      = Z.of_nat (nalpha other) - Z.of_nat (nbeta other))%Z ->
     __hash__ self = __hash__ other
     /\ fst (ax_plus_y sval other self) <> Err AssertionError)
  /\ (exists self other : FqeData,
        class_invariant self /\ class_invariant other
        /\ nalpha self + nbeta self = nalpha other + nbeta other
        /\ (Z.of_nat (nalpha self) - Z.of_nat (nbeta self)
            = Z.of_nat (nalpha other) - Z.of_nat (nbeta other))%Z
        /\ norb self <> norb other
        /\ (lena self, lenb self) <> (lena other, lenb other)
        /\ fst (ax_plus_y 1%C other self) = Err ValueError).
Proof.
  split.
  - intros self other sval Hs Ho Hn Hm.
    pose proof (__hash___of_counts self other Hs Ho Hn Hm) as Hh.
    split; [exact Hh|]. apply ax_plus_y_assertion. exact Hh.
  - exists (state_of 1 0 2 []), (state_of 1 0 3 []).
    split; [repeat split; cbn; lia|].
    split; [repeat split; cbn; lia|].
    split; [reflexivity|]. split; [reflexivity|].
    split; [cbn; lia|].
    split; [vm_compute; intros E; discriminate E|].
    vm_compute. reflexivity.
Qed.

Lemma ax_plus_y_checks_counts_only_witness :
  class_invariant (state_of 1 0 2 []) /\ class_invariant (state_of 1 0 3 [])
  /\ __hash__ (state_of 1 0 2 []) = __hash__ (state_of 1 0 3 [])
  /\ fst (ax_plus_y 1%C (state_of 1 0 3 []) (state_of 1 0 2 []))
     <> Err AssertionError.
Proof.
  assert (Hs : class_invariant (state_of 1 0 2 [])) by (repeat split; cbn; lia).
  assert (Ho : class_invariant (state_of 1 0 3 [])) by (repeat split; cbn; lia).
  split; [exact Hs|]. split; [exact Ho|].
  exact (proj1 ax_plus_y_checks_counts_only (state_of 1 0 2 [])
           (state_of 1 0 3 []) 1%C Hs Ho eq_refl eq_refl).
Defined.

Set Implicit Arguments.

(** ** C10: what a copy shares *)

(** C10: for an instance in the store, [__copy__] and [__deepcopy__] return
    a new instance with the coefficients of the original whose
    [get_fcigraph] returns the same graph object as the original's, and
    writing the coefficients of the new instance, all at once or one entry,
    leaves the coefficients of the original as they were; every instance
    [apply] returns shares the graph object in the same way. *)
Theorem copies_share_graph_only (h : store.heap) (self : store.ref) :
  allocated h self ->
  (exists new h',
     store.__copy__ self h = Ok (new, h')
     /\ shares_graph_only h self new h'
     /\ same_coefficients h self new h')
  /\ (exists new h',
        store.__deepcopy__ self h = Ok (new, h')
        /\ shares_graph_only h self new h'
        /\ same_coefficients h self new h')
  /\ (forall (K : Contractions) (array : list Tensor) new h',
        store.apply self array h = Ok (new, h') ->
        shares_graph_only h self new h').
Proof.
  intros H. split; [|split].
  - apply __copy___shares_graph_only. exact H.
  - apply __deepcopy___shares_graph_only. exact H.
  - intros K array new h' Happly.
    exact (@apply_shares_graph_only K h self array new h' H Happly).
Qed.

Lemma copies_share_graph_only_witness :
  allocated (snd fresh_store) (fst fresh_store)
  /\ exists new h',
       store.__copy__ (fst fresh_store) (snd fresh_store) = Ok (new, h')
       /\ shares_graph_only (snd fresh_store) (fst fresh_store) new h'
       /\ same_coefficients (snd fresh_store) (fst fresh_store) new h'.
Proof.
  assert (H : allocated (snd fresh_store) (fst fresh_store)).
  { eexists _, _, _. split; [vm_compute; reflexivity|].
    split; [vm_compute; reflexivity|].
    split; [vm_compute; reflexivity|].
    split; cbn; lia. }
  split; [exact H|].
  exact (proj1 (@copies_share_graph_only (snd fresh_store) (fst fresh_store) H)).
Defined.

(* ===================================================================== *)
(** * Further properties of the code *)
(* ===================================================================== *)

(** ** Access by determinant *)

Lemma index_of_string (strs : list N) (p : nat) :
  List.NoDup strs -> p < length strs ->
  FciGraph.find_index strs (nth p strs 0%N) 0 = Some p.
Proof. intros Hnd Hp. rewrite (find_index_nth 0 Hnd Hp). reflexivity. Qed.

Lemma string_of_index (strs : list N) (s : N) (k : nat) :
  FciGraph.find_index strs s 0 = Some k ->
  k < length strs /\ nth k strs 0%N = s.
Proof.
  intros H. apply find_index_Some in H. destruct H as [_ [H1 H2]].
  rewrite Nat.sub_0_r in H1, H2. split; assumption.
Qed.

Lemma index_alpha_Ok (g : FciGraph.t) (s : N) (k : nat) :
  FciGraph.index_alpha g s = Ok k <->
  k < FciGraph.lena g /\ FciGraph.string_alpha g k = s.
Proof.
  unfold FciGraph.index_alpha, FciGraph.lena, FciGraph.string_alpha,
    FciGraph.strings_alpha.
  split.
  - destruct (FciGraph.find_index _ s 0) as [k'|] eqn:E; [|discriminate].
    intros H. inversion H; subst k'. apply string_of_index. exact E.
  - intros [Hk <-]. rewrite index_of_string; [reflexivity| |exact Hk].
    apply strings_NoDup.
Qed.

Lemma index_beta_Ok (g : FciGraph.t) (s : N) (k : nat) :
  FciGraph.index_beta g s = Ok k <->
  k < FciGraph.lenb g /\ FciGraph.string_beta g k = s.
Proof.
  unfold FciGraph.index_beta, FciGraph.lenb, FciGraph.string_beta,
    FciGraph.strings_beta.
  split.
  - destruct (FciGraph.find_index _ s 0) as [k'|] eqn:E; [|discriminate].
    intros H. inversion H; subst k'. apply string_of_index. exact E.
  - intros [Hk <-]. rewrite index_of_string; [reflexivity| |exact Hk].
    apply strings_NoDup.
Qed.

(** X1: [__setitem__] either fails with the error [__getitem__] gives for
    the key and leaves the instance as it was, or succeeds, and then
    [__getitem__] returns the value at the key and what it returned before
    at every other key. *)
Theorem setitem_getitem (self : FqeData) (key : N * N) (value : complex) :
  match __setitem__ key value self with
  | (Ok _, self') =>
      __getitem__ self' key = Ok value
      /\ (forall key', key' <> key ->
            __getitem__ self' key' = __getitem__ self key')
  | (Err e, self') => self' = self /\ __getitem__ self key = Err e
  end.
Proof.
  unfold __setitem__, __getitem__, m_bind, get_self, lift, set_coeff.
  destruct (FciGraph.index_alpha (_core self) (fst key)) as [ia|e] eqn:Ea;
    cbn [rbind]; [|split; reflexivity].
  destruct (FciGraph.index_beta (_core self) (snd key)) as [ib|e] eqn:Eb;
    cbn [rbind]; [|split; reflexivity].
  cbn [with_coeff _core coeff]. rewrite Ea, Eb. cbn [rbind]. split.
  - unfold set2. rewrite !Nat.eqb_refl. reflexivity.
  - intros [a' b'] Hne. cbn [fst snd].
    destruct (FciGraph.index_alpha (_core self) a') as [ia'|e] eqn:Ea';
      cbn [rbind]; [|reflexivity].
    destruct (FciGraph.index_beta (_core self) b') as [ib'|e] eqn:Eb';
      cbn [rbind]; [|reflexivity].
    unfold set2.
    destruct (ia' =? ia) eqn:Ha; [|reflexivity].
    destruct (ib' =? ib) eqn:Hb; [|reflexivity].
    exfalso. apply Hne.
    apply Nat.eqb_eq in Ha, Hb. subst ia' ib'.
    apply index_alpha_Ok in Ea, Ea'. apply index_beta_Ok in Eb, Eb'.
    destruct key as [a b]. cbn [fst snd] in *.
    destruct Ea as [_ <-], Ea' as [_ <-], Eb as [_ <-], Eb' as [_ <-].
    reflexivity.
Qed.

(** X2: [generator] yields exactly the triples [(a, b, c)] for which
    [__getitem__] returns [c] at the key [(a, b)], one for every pair of
    indices. *)
Theorem generator_getitem (self : FqeData) :
  (forall a b c,
     In (a, b, c) (generator self) <-> __getitem__ self (a, b) = Ok c)
  /\ length (generator self) = lena self * lenb self.
Proof.
  split.
  - intros a b c. unfold generator, __getitem__. cbn [fst snd].
    rewrite in_flat_map. split.
    + intros [inda [Ha Hin]]. apply in_map_iff in Hin.
      destruct Hin as [indb [Heq Hb]]. inversion Heq; subst a b c.
      apply in_seq in Ha, Hb.
      assert (Ea : FciGraph.index_alpha (_core self)
                     (FciGraph.string_alpha (_core self) inda) = Ok inda)
        by (apply index_alpha_Ok; split; [lia|reflexivity]).
      assert (Eb : FciGraph.index_beta (_core self)
                     (FciGraph.string_beta (_core self) indb) = Ok indb)
        by (apply index_beta_Ok; split; [lia|reflexivity]).
      rewrite Ea. cbn [rbind]. rewrite Eb. reflexivity.
    + destruct (FciGraph.index_alpha (_core self) a) as [ia|e] eqn:Ea;
        cbn [rbind]; [|discriminate].
      destruct (FciGraph.index_beta (_core self) b) as [ib|e] eqn:Eb;
        cbn [rbind]; [|discriminate].
      intros H. inversion H; subst c.
      apply index_alpha_Ok in Ea. apply index_beta_Ok in Eb.
      destruct Ea as [Ha <-], Eb as [Hb <-].
      exists ia. split; [apply in_seq; lia|].
      apply in_map_iff. exists ib. split; [reflexivity|apply in_seq; lia].
  - unfold generator, lena, lenb, range.
    rewrite (flat_map_rows_length
               (fun inda indb =>
                  (FciGraph.string_alpha (_core self) inda,
                   FciGraph.string_beta (_core self) indb,
                   coeff self inda indb))).
    rewrite !length_seq. reflexivity.
Qed.

(** ** The constructor *)

(** X3: an instance that [__init__] returns has the counts it was called
    with, [_nele] and [_m_s] their sum and difference, the threshold 0.3,
    all coefficients zero, and the graph that was supplied, if one was. *)
Theorem __init___result (na nb no : Z) (fcigraph : option FciGraph.t)
    (self : FqeData) :
  __init__ na nb no fcigraph = Ok self ->
  Z.of_nat (nalpha self) = na /\ Z.of_nat (nbeta self) = nb
  /\ Z.of_nat (norb self) = no
  /\ _nele self = (na + nb)%Z /\ _m_s self = (na - nb)%Z
  /\ _low_thresh self = (3 # 10)
  /\ (forall p q, coeff self p q = 0%C)
  /\ (forall g, fcigraph = Some g -> _core self = g).
Proof.
  unfold __init__, validate_config.
  destruct ((na <? 0)%Z || (nb <? 0)%Z || (no <? 0)%Z) eqn:Hneg;
    [discriminate|].
  destruct ((no <? na)%Z || (no <? nb)%Z); [discriminate|].
  cbn [rbind].
  apply orb_false_iff in Hneg. destruct Hneg as [Hneg Hno].
  apply orb_false_iff in Hneg. destruct Hneg as [Hna Hnb].
  apply Z.ltb_ge in Hna, Hnb, Hno.
  destruct fcigraph as [g|].
  - destruct (negb (na =? Z.of_nat (FciGraph.nalpha g))%Z
              || negb (nb =? Z.of_nat (FciGraph.nbeta g))%Z
              || negb (no =? Z.of_nat (FciGraph.norb g))%Z) eqn:Hm;
      [discriminate|].
    apply orb_false_iff in Hm. destruct Hm as [Hm H3].
    apply orb_false_iff in Hm. destruct Hm as [H1 H2].
    apply negb_false_iff, Z.eqb_eq in H1, H2, H3.
    intros H. inversion H; subst self. clear H.
    unfold nalpha, nbeta, norb. cbn [_core _nele _m_s _low_thresh coeff].
    repeat split; congruence.
  - intros H. inversion H; subst self. clear H.
    unfold nalpha, nbeta, norb.
    cbn [_core _nele _m_s _low_thresh coeff FciGraph.nalpha FciGraph.nbeta
         FciGraph.norb].
    rewrite !Z2Nat.id by assumption.
    repeat split; try reflexivity. intros g Hg. discriminate Hg.
Qed.

Lemma __init___result_witness :
  __init__ 1 1 2 None = Ok hartree_fock_2_zero
  /\ _nele hartree_fock_2_zero = (1 + 1)%Z.
Proof.
  assert (H : __init__ 1 1 2 None = Ok hartree_fock_2_zero) by reflexivity.
  split; [exact H|].
  exact (proj1 (proj2 (proj2 (proj2 (@__init___result 1 1 2 None _ H))))).
Defined.

(** X4: called with a graph whose counts or orbital number differ from the
    arguments, [__init__] raises [ValueError] once the configuration has
    been validated. *)
Theorem __init___graph_mismatch (na nb no : Z) (g : FciGraph.t) :
  validate_config na nb no = Ok tt ->
  na <> Z.of_nat (FciGraph.nalpha g) \/ nb <> Z.of_nat (FciGraph.nbeta g)
  \/ no <> Z.of_nat (FciGraph.norb g) ->
  __init__ na nb no (Some g) = Err ValueError.
Proof.
  intros Hv Hm. unfold __init__. rewrite Hv. cbn [rbind].
  replace (negb (na =? Z.of_nat (FciGraph.nalpha g))%Z
           || negb (nb =? Z.of_nat (FciGraph.nbeta g))%Z
           || negb (no =? Z.of_nat (FciGraph.norb g))%Z) with true;
    [reflexivity|].
  symmetry. rewrite !orb_true_iff, !negb_true_iff, !Z.eqb_neq. tauto.
Qed.

Lemma __init___graph_mismatch_witness :
  validate_config 1 1 2 = Ok tt
  /\ __init__ 1 1 2 (Some (FciGraph.mk 1 1 3)) = Err ValueError.
Proof.
  assert (Hv : validate_config 1 1 2 = Ok tt) by reflexivity.
  split; [exact Hv|].
  apply (@__init___graph_mismatch 1 1 2 (FciGraph.mk 1 1 3) Hv).
  right; right. cbn. lia.
Defined.

(** ** [apply_diagonal_inplace] *)

Lemma sum_n_le (m n : nat) (f : nat -> complex) :
  m <= n -> (forall i, m <= i -> i < n -> f i = 0%C) ->
  sum_n n f = sum_n m f.
Proof.
  intros Hmn Hz. replace n with (m + (n - m)) by lia.
  rewrite sum_n_shift.
  rewrite (@sum_n_ext (n - m) (fun j => f (m + j)) (fun _ => 0%C))
    by (intros i Hi; apply Hz; lia).
  rewrite sum_n_zero. ring.
Qed.

Lemma get_bit_above (s : N) (n i : nat) :
  (s < 2 ^ N.of_nat n)%N -> n <= i -> bitstring.get_bit s i = false.
Proof.
  intros Hs Hi. unfold bitstring.get_bit.
  destruct (N.eq_dec s 0%N) as [->|Hne]; [apply N.bits_0|].
  apply N.bits_above_log2.
  assert (N.log2 s < N.of_nat n)%N by (apply N.log2_lt_pow2; lia).
  lia.
Qed.

Lemma size_bound (s : N) : (s < 2 ^ N.of_nat (N.to_nat (N.size s)))%N.
Proof. rewrite N2Nat.id. apply N.size_gt. Qed.

Lemma for_each_sum_list {A : Type} (l : list A) (g : A -> complex)
    (acc : complex) :
  for_each l (fun a d => (d + g a)%C) acc = (acc + sum_list l g)%C.
Proof. unfold for_each. apply sum_list_from. Qed.

(** The inner loop of [apply_diagonal_inplace] adds up the entries at the
    occupied orbitals. *)
Lemma integer_index_sum (s : N) (n : nat) (g : nat -> complex) :
  (s < 2 ^ N.of_nat n)%N ->
  for_each (integer_index s) (fun ind d => (d + g ind)%C) 0%C
  = occupation_sum g n s.
Proof.
  intros Hs. rewrite for_each_sum_list. unfold integer_index, occupation_sum.
  rewrite sum_list_filter, sum_list_range.
  set (f := fun i => if bitstring.get_bit s i then g i else 0%C).
  change (0 + sum_n (N.to_nat (N.size s)) f = sum_n n f)%C.
  destruct (Nat.le_ge_cases (N.to_nat (N.size s)) n) as [Hle|Hge].
  - rewrite (@sum_n_le (N.to_nat (N.size s)) n f Hle); [ring|].
    intros i Hi _. unfold f.
    rewrite (@get_bit_above s (N.to_nat (N.size s)) i (size_bound s) Hi).
    reflexivity.
  - rewrite (@sum_n_le n (N.to_nat (N.size s)) f Hge); [ring|].
    intros i Hi _. unfold f.
    rewrite (@get_bit_above s n i Hs Hi). reflexivity.
Qed.

Lemma diagonal_sums_steps (array : Vector) (ptr : nat) (string_of : nat -> N)
    (n : nat) :
  diagonal_sums array ptr string_of n
  = map (fun cnf =>
           for_each (integer_index (string_of cnf))
             (fun ind d => (d + ventry array (ptr + ind))%C) 0%C)
      (range n).
Proof.
  unfold diagonal_sums, range.
  induction n as [|n IH]; [reflexivity|].
  rewrite seq_S, for_each_snoc, map_app, IH. reflexivity.
Qed.

Lemma diagonal_sums_nth (array : Vector) (ptr norb : nat) (strs : list N)
    (k : nat) :
  (forall s, In s strs -> (s < 2 ^ N.of_nat norb)%N) ->
  k < length strs ->
  nth k (diagonal_sums array ptr (fun cnf => nth cnf strs 0%N) (length strs))
    0%C
  = occupation_sum (fun i => ventry array (ptr + i)) norb (nth k strs 0%N).
Proof.
  intros Hb Hk. rewrite diagonal_sums_steps.
  set (f := fun cnf =>
              for_each (integer_index (nth cnf strs 0%N))
                (fun ind d => (d + ventry array (ptr + ind))%C) 0%C).
  rewrite nth_indep with (d' := f 0)
    by (rewrite length_map; unfold range; rewrite length_seq; exact Hk).
  rewrite map_nth. unfold range. rewrite seq_nth by exact Hk. cbn [Nat.add].
  unfold f. apply integer_index_sum. apply Hb. apply nth_In. exact Hk.
Qed.

(** Two nested loops that update every cell of a block once, each from its
    own old value. *)
Lemma update_row (a cols : nat) (F : nat -> nat -> complex) (c : Array2)
    (p q : nat) :
  for_each (range cols) (fun b c2 => set2 c2 a b (c2 a b * F a b)%C) c p q
  = if (p =? a) && (q <? cols) then (c p q * F p q)%C else c p q.
Proof.
  revert p q. unfold range. induction cols as [|n IH]; intros p q.
  - cbn. rewrite andb_false_r. reflexivity.
  - rewrite seq_S, for_each_snoc. cbn [Nat.add]. unfold set2 at 1.
    rewrite !IH, Nat.eqb_refl.
    replace (n <? n) with false by (symmetry; apply Nat.ltb_ge; lia).
    cbn [andb].
    destruct (Nat.eqb_spec p a) as [->|Hpa]; cbn [andb]; [|reflexivity].
    destruct (Nat.eqb_spec q n) as [->|Hqn].
    + replace (n <? S n) with true by (symmetry; apply Nat.ltb_lt; lia).
      reflexivity.
    + destruct (Nat.ltb_spec q n), (Nat.ltb_spec q (S n));
        try reflexivity; lia.
Qed.

(** Two nested loops that update every cell of a block once, each from its
    own old value. *)
Lemma update_cells (rows cols : nat) (F : nat -> nat -> complex)
    (c : Array2) (p q : nat) :
  for_each (range rows)
    (fun a c1 =>
       for_each (range cols)
         (fun b c2 => set2 c2 a b (c2 a b * F a b)%C) c1)
    c p q
  = if (p <? rows) && (q <? cols) then (c p q * F p q)%C else c p q.
Proof.
  unfold range at 1. induction rows as [|rows IH].
  - reflexivity.
  - rewrite seq_S, for_each_snoc. cbn [Nat.add]. rewrite update_row.
    rewrite IH.
    destruct (Nat.eqb_spec p rows) as [->|Hpr]; cbn [andb].
    + replace (rows <? rows) with false by (symmetry; apply Nat.ltb_ge; lia).
      replace (rows <? S rows) with true by (symmetry; apply Nat.ltb_lt; lia).
      cbn [andb]. reflexivity.
    + destruct (Nat.ltb_spec p rows), (Nat.ltb_spec p (S rows));
        try reflexivity; lia.
Qed.

Lemma strings_bound (norb nele : nat) (s : N) :
  In s (FciGraph.strings norb nele) -> (s < 2 ^ N.of_nat norb)%N.
Proof. intros H. apply strings_spec in H. apply H. Qed.

(** X5: an array whose size is neither [norb] nor [2 * norb] makes
    [apply_diagonal_inplace] raise [ValueError] and leaves the instance as
    it was. *)
Theorem apply_diagonal_inplace_size (self : FqeData) (array : Vector) :
  vsize array <> norb self -> vsize array <> 2 * norb self ->
  apply_diagonal_inplace array self = (Err ValueError, self).
Proof.
  intros H1 H2. unfold apply_diagonal_inplace, m_bind, get_self, lift.
  replace (vsize array =? 2 * norb self) with false
    by (symmetry; apply Nat.eqb_neq; exact H2).
  replace (vsize array =? norb self) with false
    by (symmetry; apply Nat.eqb_neq; exact H1).
  reflexivity.
Qed.

Lemma apply_diagonal_inplace_size_witness :
  vsize (mkVector 3 (fun _ => 1%C)) <> norb hartree_fock_2
  /\ vsize (mkVector 3 (fun _ => 1%C)) <> 2 * norb hartree_fock_2
  /\ apply_diagonal_inplace (mkVector 3 (fun _ => 1%C)) hartree_fock_2
     = (Err ValueError, hartree_fock_2).
Proof.
  assert (H1 : vsize (mkVector 3 (fun _ => 1%C)) <> norb hartree_fock_2)
    by (cbn; lia).
  assert (H2 : vsize (mkVector 3 (fun _ => 1%C)) <> 2 * norb hartree_fock_2)
    by (cbn; lia).
  split; [exact H1|]. split; [exact H2|].
  exact (@apply_diagonal_inplace_size hartree_fock_2 _ H1 H2).
Defined.

Lemma apply_diagonal_inplace_value (self : FqeData) (array : Vector) :
  vsize array = norb self \/ vsize array = 2 * norb self ->
  exists self',
    apply_diagonal_inplace array self = (Ok tt, self')
    /\ _core self' = _core self
    /\ forall p q, p < lena self -> q < lenb self ->
         coeff self' p q
         = (coeff self p q
            * (occupation_sum (ventry array) (norb self)
                 (FciGraph.string_alpha (_core self) p)
               + occupation_sum
                   (fun i =>
                      ventry array
                        ((if vsize array =? 2 * norb self
                          then norb self else 0) + i))
                   (norb self) (FciGraph.string_beta (_core self) q)))%C.
Proof.
  intros Hsize. unfold apply_diagonal_inplace, m_bind, get_self, lift, set_coeff.
  set (ptr := if vsize array =? 2 * norb self then norb self else 0).
  assert (Hptr : (if vsize array =? 2 * norb self then Ok (norb self)
                  else if negb (vsize array =? norb self)
                       then Err ValueError else Ok 0) = Ok ptr).
  { unfold ptr. destruct (vsize array =? 2 * norb self) eqn:E2; [reflexivity|].
    destruct Hsize as [H|H]; [|apply Nat.eqb_neq in E2; contradiction].
    rewrite H, Nat.eqb_refl. reflexivity. }
  rewrite Hptr. eexists. split; [reflexivity|]. split; [reflexivity|].
  intros p q Hp Hq. cbn [coeff with_coeff].
  rewrite update_cells.
  unfold lena, lenb in Hp, Hq.
  replace (p <? FciGraph.lena (_core self)) with true
    by (symmetry; apply Nat.ltb_lt; exact Hp).
  replace (q <? FciGraph.lenb (_core self)) with true
    by (symmetry; apply Nat.ltb_lt; exact Hq).
  cbn [andb]. unfold FciGraph.lena, FciGraph.lenb in *.
  unfold FciGraph.string_alpha, FciGraph.string_beta.
  rewrite (@diagonal_sums_nth array 0 (norb self)
             (FciGraph.strings_alpha (_core self)) p)
    by (try exact Hp; intros s Hs; exact (strings_bound _ _ _ Hs)).
  rewrite (@diagonal_sums_nth array ptr (norb self)
             (FciGraph.strings_beta (_core self)) q)
    by (try exact Hq; intros s Hs; exact (strings_bound _ _ _ Hs)).
  reflexivity.
Qed.

(** The contraction of the single excitations of a species with a diagonal
    1-body matrix. *)
Lemma diagonal_contraction (strs : list N) (n t : nat) (d : nat -> complex)
    (h : Array2) (X : nat -> complex) :
  List.NoDup strs -> t < length strs ->
  (forall i j, i < n -> j < n -> h i j = if i =? j then d i else 0%C) ->
  sum_n n (fun i => sum_n n (fun j =>
    sum_list (FciGraph.build_mapping strs i j) (fun e =>
      if t =? target_of e
      then (h i j * (X (source_of e) * C_of_Z (parity_of e)))%C
      else 0%C)))
  = (occupation_sum d n (nth t strs 0%N) * X t)%C.
Proof.
  intros Hnd Ht Hh.
  transitivity
    (sum_n n (fun i =>
       ((if bitstring.get_bit (nth t strs 0%N) i then d i else 0) * X t)%C)).
  - apply sum_n_ext. intros i Hi.
    transitivity
      (sum_n n (fun j =>
         if i =? j
         then ((if bitstring.get_bit (nth t strs 0%N) j then d j else 0)
               * X t)%C
         else 0%C)).
    + apply sum_n_ext. intros j Hj.
      rewrite Hh by assumption.
      destruct (Nat.eqb_spec i j) as [<-|Hne].
      * rewrite sum_list_ext
          with (g := fun e =>
                  (d i * (if t =? target_of e
                          then X (source_of e) * C_of_Z (parity_of e)
                          else 0))%C)
          by (intros e _; destruct (t =? target_of e); ring).
        rewrite sum_list_scale, diagonal_action by assumption.
        destruct (bitstring.get_bit (nth t strs 0%N) i); ring.
      * apply sum_list_zero. intros e _.
        destruct (t =? target_of e); [ring | reflexivity].
    + rewrite sum_n_single.
      replace (i <? n) with true by (symmetry; apply Nat.ltb_lt; exact Hi).
      reflexivity.
  - unfold occupation_sum.
    rewrite sum_n_ext
      with (g := fun i =>
              (X t * (if bitstring.get_bit (nth t strs 0%N) i then d i else 0))%C)
      by (intros i _; ring).
    rewrite sum_n_scale. ring.
Qed.

Lemma diagonal_tensor_entry (n : nat) (d : nat -> complex) (i j : nat) :
  matrix_of (diagonal_tensor n d) i j = if i =? j then d i else 0%C.
Proof. reflexivity. Qed.

Lemma _lm_apply_array1_diagonal (strs : list N) (n : nat)
    (coeff h : Array2) (d : nat -> complex) (la lb : nat) (alpha : bool)
    (out : option Array2) (p q : nat) :
  List.NoDup strs ->
  (forall i j, i < n -> j < n -> h i j = if i =? j then d i else 0%C) ->
  (if alpha then p else q) < length strs ->
  lib._lm_apply_array1 coeff h (FciGraph.build_mapping strs) la lb n alpha out p q
  = ((match out with Some o => o | None => zeros2 end) p q
     + occupation_sum d n (nth (if alpha then p else q) strs 0%N) * coeff p q)%C.
Proof.
  intros Hnd Hh Ht.
  rewrite _lm_apply_array1_sum. f_equal.
  rewrite (@diagonal_contraction strs n (if alpha then p else q) d h
             (fun x => lib.line alpha coeff x (if alpha then q else p)))
    by assumption.
  destruct alpha; reflexivity.
Qed.

(** The spatial 1-body routine on a diagonal matrix. *)
Lemma _apply_array_spatial1_diagonal (self : FqeData) (d : nat -> complex) :
  exists c,
    _apply_array_spatial1 self (diagonal_tensor (norb self) d) = Ok c
    /\ forall p q, p < lena self -> q < lenb self ->
         c p q
         = (coeff self p q
            * (occupation_sum d (norb self)
                 (FciGraph.string_alpha (_core self) p)
               + occupation_sum d (norb self)
                   (FciGraph.string_beta (_core self) q)))%C.
Proof.
  unfold _apply_array_spatial1. cbn [shape diagonal_tensor].
  rewrite shape_eqb_refl. cbn [assert_ rbind].
  destruct (scan_columns _ _ 0 0) as [ncol jorb].
  eexists. split; [destruct (1 <? ncol); reflexivity|].
  intros p q Hp Hq. unfold add2, transpose, FciGraph._dexca, FciGraph._dexcb,
    FciGraph.alpha_map, FciGraph.beta_map.
  rewrite (@_lm_apply_array1_diagonal _ (norb self) _ _ d)
    by (try apply strings_NoDup; try exact Hp;
        intros; apply diagonal_tensor_entry).
  rewrite (@_lm_apply_array1_diagonal _ (norb self) _ _ d)
    by (try apply strings_NoDup; try exact Hq;
        intros; apply diagonal_tensor_entry).
  unfold zeros2, FciGraph.string_alpha, FciGraph.string_beta. ring.
Qed.

(** X6: called with an array of [norb] or of [2 * norb] entries,
    [apply_diagonal_inplace] multiplies the coefficient of every determinant
    pair by the sum of the entries at the orbitals its alpha string
    occupies plus the sum of the entries at those its beta string occupies,
    read from the second half of the array when it has [2 * norb] entries. *)
Theorem apply_diagonal_inplace_occupied (self : FqeData) (array : Vector) :
  vsize array = norb self \/ vsize array = 2 * norb self ->
  exists self',
    apply_diagonal_inplace array self = (Ok tt, self')
    /\ _core self' = _core self
    /\ forall p q, p < lena self -> q < lenb self ->
         coeff self' p q
         = (coeff self p q
            * (occupation_sum (ventry array) (norb self)
                 (FciGraph.string_alpha (_core self) p)
               + occupation_sum
                   (fun i =>
                      ventry array
                        ((if vsize array =? 2 * norb self
                          then norb self else 0) + i))
                   (norb self) (FciGraph.string_beta (_core self) q)))%C.
Proof. apply apply_diagonal_inplace_value. Qed.

Lemma apply_diagonal_inplace_occupied_witness :
  (vsize (mkVector 2 (fun _ => 1%C)) = norb hartree_fock_2
   \/ vsize (mkVector 2 (fun _ => 1%C)) = 2 * norb hartree_fock_2)
  /\ exists self',
       apply_diagonal_inplace (mkVector 2 (fun _ => 1%C)) hartree_fock_2
       = (Ok tt, self').
Proof.
  assert (H : vsize (mkVector 2 (fun _ => 1%C)) = norb hartree_fock_2
              \/ vsize (mkVector 2 (fun _ => 1%C)) = 2 * norb hartree_fock_2)
    by (left; reflexivity).
  split; [exact H|].
  destruct (@apply_diagonal_inplace_occupied hartree_fock_2 _ H)
    as [self' [Hrun _]].
  exists self'. exact Hrun.
Defined.

(** X7: [apply_diagonal_inplace] with the [norb] entries [d] and the spatial
    1-body routine with the diagonal matrix of [d] give the same
    coefficients. *)
Theorem apply_diagonal_agrees_with_1body (self : FqeData)
    (d : nat -> complex) :
  exists c self',
    _apply_array_spatial1 self (diagonal_tensor (norb self) d) = Ok c
    /\ apply_diagonal_inplace (mkVector (norb self) d) self = (Ok tt, self')
    /\ eq_on2 (lena self) (lenb self) c (coeff self').
Proof.
  destruct (_apply_array_spatial1_diagonal self d) as [c [Hc Hv]].
  destruct (@apply_diagonal_inplace_value self (mkVector (norb self) d))
    as [self' [Hrun [_ Hv']]]; [left; reflexivity|].
  exists c, self'. split; [exact Hc|]. split; [exact Hrun|].
  intros p q Hp Hq. rewrite Hv, Hv' by assumption.
  cbn [vsize ventry].
  destruct (Nat.eqb_spec (norb self) (2 * norb self)) as [E|_];
    [|reflexivity].
  replace (norb self) with 0 by lia. reflexivity.
Qed.

(** ** D-vectors *)

Lemma _make_dvec_entry (dvec : Array3) (c : Array2) (maps : list ExcMap)
    (la lb : nat) (alpha : bool) (k P Q : nat) :
  lib._make_dvec dvec c maps la lb alpha k P Q
  = (dvec k P Q
     + sum_list (nth k maps []) (fun e =>
         if (if alpha then P else Q) =? target_of e
         then lib.line alpha c (source_of e) (if alpha then Q else P)
              * C_of_Z (parity_of e)
         else 0))%C.
Proof.
  unfold lib._make_dvec.
  apply for_each_sum. intros [[s t] par] o. rewrite accumulate_at.
  reflexivity.
Qed.

Lemma range_map_nth {A : Type} (f : nat -> A) (n i : nat) (d : A) :
  i < n -> nth i (map f (range n)) d = f i.
Proof.
  intros Hi. rewrite nth_indep with (d' := f 0)
    by (rewrite length_map; unfold range; rewrite length_seq; exact Hi).
  rewrite map_nth. unfold range. rewrite seq_nth by exact Hi. reflexivity.
Qed.

Lemma calculate_dvec_spin_entry (self : FqeData) (i j P Q : nat) :
  i < norb self -> j < norb self ->
  fst (calculate_dvec_spin self) i j P Q
  = sum_list (alpha_map self i j) (fun e =>
      if P =? target_of e
      then (coeff self (source_of e) Q * C_of_Z (parity_of e))%C else 0%C)
  /\ snd (calculate_dvec_spin self) i j P Q
     = sum_list (beta_map self i j) (fun e =>
         if Q =? target_of e
         then (coeff self P (source_of e) * C_of_Z (parity_of e))%C else 0%C).
Proof.
  intros Hi Hj. unfold calculate_dvec_spin, _calculate_dvec_spin_with_coeff.
  cbn [fst snd]. unfold unflatten_pairs.
  rewrite !_make_dvec_entry, !pair_list_nth, !flatten_pairs_at by assumption.
  unfold zeros4, lib.line. split; ring.
Qed.

(** X8: the D-vector of [calculate_dvec_spatial] is the sum of the two
    D-vectors of [calculate_dvec_spin], entry by entry. *)
Theorem calculate_dvec_spatial_is_sum_of_spin (self : FqeData)
    (i j P Q : nat) :
  i < norb self -> j < norb self ->
  calculate_dvec_spatial self i j P Q
  = (fst (calculate_dvec_spin self) i j P Q
     + snd (calculate_dvec_spin self) i j P Q)%C.
Proof.
  intros Hi Hj.
  destruct (calculate_dvec_spin_entry self P Q Hi Hj) as [-> ->].
  unfold calculate_dvec_spatial.
  rewrite _calculate_dvec_spatial_with_coeff_entry by assumption.
  reflexivity.
Qed.

Lemma calculate_dvec_spatial_is_sum_of_spin_witness :
  0 < norb hartree_fock_2 /\ 1 < norb hartree_fock_2
  /\ calculate_dvec_spatial hartree_fock_2 0 1 0 0
     = (fst (calculate_dvec_spin hartree_fock_2) 0%nat 1%nat 0%nat 0%nat
        + snd (calculate_dvec_spin hartree_fock_2) 0%nat 1%nat 0%nat 0%nat)%C.
Proof.
  assert (H0 : 0 < norb hartree_fock_2) by (cbn; lia).
  assert (H1 : 1 < norb hartree_fock_2) by (cbn; lia).
  split; [exact H0|]. split; [exact H1|].
  exact (@calculate_dvec_spatial_is_sum_of_spin hartree_fock_2 0 1 0 0 H0 H1).
Defined.

(** X9: for an orbital [jorb] of the sector, [calculate_dvec_spatial_fixed_j]
    returns the slices [[i, jorb]] of the D-vector of
    [calculate_dvec_spatial]; for a negative [jorb] or one that is not below
    [norb] it fails its assertion. *)
Theorem calculate_dvec_spatial_fixed_j_slice (self : FqeData) (jorb : Z) :
  ((0 <= jorb < Z.of_nat (norb self))%Z ->
   exists d,
     calculate_dvec_spatial_fixed_j self jorb = Ok d
     /\ forall i P Q, i < norb self ->
          d i P Q = calculate_dvec_spatial self i (Z.to_nat jorb) P Q)
  /\ ((jorb < 0 \/ Z.of_nat (norb self) <= jorb)%Z ->
      calculate_dvec_spatial_fixed_j self jorb = Err AssertionError).
Proof.
  unfold calculate_dvec_spatial_fixed_j,
    _calculate_dvec_spatial_with_coeff_fixed_j.
  split.
  - intros [H0 H1].
    replace ((jorb <? Z.of_nat (norb self))%Z && (0 <=? jorb)%Z) with true
      by (symmetry; apply andb_true_iff; split;
          [apply Z.ltb_lt | apply Z.leb_le]; assumption).
    cbn [assert_ rbind]. eexists. split; [reflexivity|].
    intros i P Q Hi.
    assert (Hj : Z.to_nat jorb < norb self) by lia.
    unfold calculate_dvec_spatial.
    rewrite _calculate_dvec_spatial_with_coeff_entry by assumption.
    rewrite !_make_dvec_entry, !range_map_nth by exact Hi.
    unfold zeros3, dvec_entry, lib.line. ring.
  - intros H.
    replace ((jorb <? Z.of_nat (norb self))%Z && (0 <=? jorb)%Z) with false;
      [reflexivity|].
    symmetry. apply andb_false_iff.
    destruct H as [H|H]; [right; apply Z.leb_gt | left; apply Z.ltb_ge];
      exact H.
Qed.

Lemma calculate_dvec_spatial_fixed_j_slice_witness :
  (0 <= 1 < Z.of_nat (norb hartree_fock_2))%Z
  /\ exists d,
       calculate_dvec_spatial_fixed_j hartree_fock_2 1 = Ok d
       /\ forall i P Q, i < norb hartree_fock_2 ->
            d i P Q = calculate_dvec_spatial hartree_fock_2 i (Z.to_nat 1) P Q.
Proof.
  assert (H : (0 <= 1 < Z.of_nat (norb hartree_fock_2))%Z) by (cbn; lia).
  split; [exact H|].
  exact (proj1 (@calculate_dvec_spatial_fixed_j_slice hartree_fock_2 1) H).
Defined.

(** The slices of [calculate_dvec_spin_fixed_j]. *)
Lemma calculate_dvec_spin_fixed_j_value (self : FqeData) (jorb : nat) :
  (jorb < norb self ->
   exists d,
     calculate_dvec_spin_fixed_j self jorb = Ok d
     /\ forall i P Q, i < norb self ->
          d i P Q = fst (calculate_dvec_spin self) i jorb P Q)
  /\ (norb self <= jorb < 2 * norb self ->
      exists d,
        calculate_dvec_spin_fixed_j self jorb = Ok d
        /\ forall i P Q, i < norb self ->
             d i P Q = snd (calculate_dvec_spin self) i (jorb - norb self) P Q)
  /\ (2 * norb self <= jorb ->
      calculate_dvec_spin_fixed_j self jorb = Err AssertionError).
Proof.
  unfold calculate_dvec_spin_fixed_j, _calculate_dvec_spin_with_coeff_fixed_j.
  split; [|split].
  - intros Hj.
    replace (jorb <? norb self * 2) with true
      by (symmetry; apply Nat.ltb_lt; lia).
    replace (jorb <? norb self) with true
      by (symmetry; apply Nat.ltb_lt; lia).
    cbn [assert_ rbind]. eexists. split; [reflexivity|].
    intros i P Q Hi.
    destruct (calculate_dvec_spin_entry self P Q Hi Hj) as [-> _].
    rewrite _make_dvec_entry, range_map_nth by exact Hi.
    unfold zeros3, lib.line. ring.
  - intros [Hj1 Hj2].
    replace (jorb <? norb self * 2) with true
      by (symmetry; apply Nat.ltb_lt; lia).
    replace (jorb <? norb self) with false
      by (symmetry; apply Nat.ltb_ge; lia).
    cbn [assert_ rbind]. eexists. split; [reflexivity|].
    intros i P Q Hi.
    assert (Hj : jorb - norb self < norb self) by lia.
    destruct (calculate_dvec_spin_entry self P Q Hi Hj) as [_ ->].
    rewrite _make_dvec_entry, range_map_nth by exact Hi.
    unfold zeros3, lib.line. ring.
  - intros Hj.
    replace (jorb <? norb self * 2) with false
      by (symmetry; apply Nat.ltb_ge; lia).
    reflexivity.
Qed.

(** X10: [calculate_dvec_spin_fixed_j] returns the slices [[i, jorb]] of the
    alpha D-vector of [calculate_dvec_spin] for [jorb] below [norb], the
    slices [[i, jorb - norb]] of the beta D-vector for [jorb] from [norb] up
    to [2 * norb], and fails its assertion from [2 * norb] on. *)
Theorem calculate_dvec_spin_fixed_j_slice (self : FqeData) (jorb : nat) :
  (jorb < norb self ->
   exists d,
     calculate_dvec_spin_fixed_j self jorb = Ok d
     /\ forall i P Q, i < norb self ->
          d i P Q = fst (calculate_dvec_spin self) i jorb P Q)
  /\ (norb self <= jorb < 2 * norb self ->
      exists d,
        calculate_dvec_spin_fixed_j self jorb = Ok d
        /\ forall i P Q, i < norb self ->
             d i P Q = snd (calculate_dvec_spin self) i (jorb - norb self) P Q)
  /\ (2 * norb self <= jorb ->
      calculate_dvec_spin_fixed_j self jorb = Err AssertionError).
Proof. exact (calculate_dvec_spin_fixed_j_value self jorb). Qed.

Lemma calculate_dvec_spin_fixed_j_slice_witness :
  norb hartree_fock_2 <= 3 < 2 * norb hartree_fock_2
  /\ exists d,
       calculate_dvec_spin_fixed_j hartree_fock_2 3 = Ok d
       /\ forall i P Q, i < norb hartree_fock_2 ->
            d i P Q
            = snd (calculate_dvec_spin hartree_fock_2) i
                (3 - norb hartree_fock_2) P Q.
Proof.
  assert (H : norb hartree_fock_2 <= 3 < 2 * norb hartree_fock_2)
    by (cbn; lia).
  split; [exact H|].
  exact (proj1 (proj2 (@calculate_dvec_spin_fixed_j_slice hartree_fock_2 3)) H).
Defined.

(** ** The compressed D-vector *)

Lemma for_each_read {E S : Type} (l : list E) (body : E -> S -> S)
    (read : S -> complex) (G : E -> complex) (s : S) :
  (forall e o, read (body e o) = (read o + G e)%C) ->
  read (for_each l body s) = (read s + sum_list l G)%C.
Proof.
  intros H. revert s. induction l as [|e l IH]; intros s.
  - cbn [for_each fold_left]. rewrite sum_list_nil. ring.
  - change (for_each (e :: l) body s) with (for_each l body (body e s)).
    rewrite IH, H, sum_list_cons. ring.
Qed.

Lemma triangle_S (m : nat) : S m * (S m + 1) / 2 = m * (m + 1) / 2 + S m.
Proof.
  replace (S m * (S m + 1)) with (m * (m + 1) + S m * 2) by lia.
  apply Nat.div_add. lia.
Qed.

Lemma triangle_gap (m m' : nat) :
  m < m' -> m * (m + 1) / 2 + m < m' * (m' + 1) / 2.
Proof.
  intros H. induction m' as [|k IH]; [lia|].
  rewrite triangle_S.
  destruct (Nat.eq_dec m k) as [->|Hne]; [lia|].
  assert (m < k) by lia. specialize (IH H0). lia.
Qed.

Lemma pair_index_inj (i j i0 j0 : nat) :
  pair_index i j = pair_index i0 j0 ->
  (i = i0 /\ j = j0) \/ (i = j0 /\ j = i0).
Proof.
  unfold pair_index. intros H.
  assert (Hmax : Nat.max i j = Nat.max i0 j0).
  { destruct (Nat.lt_trichotomy (Nat.max i j) (Nat.max i0 j0)) as [L|[E|L]];
      [|exact E|].
    - pose proof (triangle_gap L). lia.
    - pose proof (triangle_gap L). lia. }
  rewrite Hmax in H.
  assert (Hmin : Nat.min i j = Nat.min i0 j0) by lia.
  lia.
Qed.

Lemma sum_n_single2_rect (n m a b : nat) (G : nat -> nat -> complex) :
  a < n -> b < m ->
  sum_n n (fun i => sum_n m (fun j =>
    if (i =? a) && (j =? b) then G i j else 0%C))
  = G a b.
Proof.
  intros Ha Hb.
  rewrite sum_n_ext
    with (g := fun i => if a =? i then G i b else 0%C).
  - rewrite sum_n_single.
    replace (a <? n) with true by (symmetry; apply Nat.ltb_lt; exact Ha).
    reflexivity.
  - intros i _.
    rewrite sum_n_ext
      with (g := fun j => if b =? j then (if i =? a then G i j else 0%C)
                          else 0%C).
    + rewrite sum_n_single.
      replace (b <? m) with true by (symmetry; apply Nat.ltb_lt; exact Hb).
      rewrite (Nat.eqb_sym a i). reflexivity.
    + intros j _. rewrite (Nat.eqb_sym b j).
      destruct (i =? a), (j =? b); reflexivity.
Qed.

Lemma calculate_dvec_spatial_compressed_entry (self : FqeData) (k P Q : nat) :
  calculate_dvec_spatial_compressed self k P Q
  = sum_n (norb self) (fun i => sum_n (norb self) (fun j =>
      if pair_index i j =? k
      then dvec_entry (coeff self) (alpha_map self) (beta_map self) i j P Q
      else 0%C)).
Proof.
  unfold calculate_dvec_spatial_compressed.
  rewrite (@for_each_read _ _ _ _ (fun d : Array3 => d k P Q)
             (fun i => sum_n (norb self) (fun j =>
                if pair_index i j =? k
                then dvec_entry (coeff self) (alpha_map self) (beta_map self)
                       i j P Q
                else 0%C))).
  - rewrite sum_list_range. unfold zeros3. ring.
  - intros i o.
    rewrite (@for_each_read _ _ _ _ (fun d : Array3 => d k P Q)
               (fun j =>
                  if pair_index i j =? k
                  then dvec_entry (coeff self) (alpha_map self)
                         (beta_map self) i j P Q
                  else 0%C)).
    + rewrite sum_list_range. reflexivity.
    + intros j o'. cbv zeta. fold (pair_index i j).
      rewrite (@for_each_read _ _ _ _ (fun d : Array3 => d k P Q)
                 (fun e =>
                    if pair_index i j =? k
                    then (if Q =? target_of e
                          then coeff self P (source_of e) * C_of_Z (parity_of e)
                          else 0)%C
                    else 0%C)).
      * rewrite (@for_each_read _ _ _ _ (fun d : Array3 => d k P Q)
                   (fun e =>
                      if pair_index i j =? k
                      then (if P =? target_of e
                            then coeff self (source_of e) Q
                                 * C_of_Z (parity_of e)
                            else 0)%C
                      else 0%C)).
        -- unfold dvec_entry.
           rewrite (Nat.eqb_sym (pair_index i j) k).
           destruct (k =? pair_index i j).
           ++ ring.
           ++ rewrite !sum_list_zero by reflexivity. ring.
        -- intros [[s t] par] d. unfold add_line3.
           rewrite (Nat.eqb_sym (pair_index i j) k).
           destruct (k =? pair_index i j); [|ring].
           rewrite accumulate_at. reflexivity.
      * intros [[s t] par] d. unfold add_line3.
        rewrite (Nat.eqb_sym (pair_index i j) k).
        destruct (k =? pair_index i j); [|ring].
        rewrite accumulate_at. reflexivity.
Qed.

(** X11: in the D-vector of [calculate_dvec_spatial_compressed], the slice
    of the unordered orbital pair [{i, j}] holds the slice [[i, i]] of the
    D-vector of [calculate_dvec_spatial] when [i = j], and the sum of its
    slices [[i, j]] and [[j, i]] otherwise. *)
Theorem calculate_dvec_spatial_compressed_pairs (self : FqeData)
    (i j P Q : nat) :
  i < norb self -> j < norb self ->
  calculate_dvec_spatial_compressed self (pair_index i j) P Q
  = if i =? j then calculate_dvec_spatial self i i P Q
    else (calculate_dvec_spatial self i j P Q
          + calculate_dvec_spatial self j i P Q)%C.
Proof.
  intros Hi Hj. rewrite calculate_dvec_spatial_compressed_entry.
  unfold calculate_dvec_spatial.
  rewrite !_calculate_dvec_spatial_with_coeff_entry by assumption.
  set (G := dvec_entry (coeff self) (alpha_map self) (beta_map self)).
  destruct (Nat.eqb_spec i j) as [<-|Hne].
  - rewrite <- (@sum_n_single2_rect (norb self) (norb self) i i (fun a b => G a b P Q))
      by assumption.
    apply sum_n_ext. intros a _. apply sum_n_ext. intros b _.
    destruct (Nat.eqb_spec (pair_index a b) (pair_index i i)) as [E|E].
    + apply pair_index_inj in E.
      replace ((a =? i) && (b =? i)) with true; [reflexivity|].
      symmetry. apply andb_true_iff. rewrite !Nat.eqb_eq. tauto.
    + destruct (Nat.eqb_spec a i) as [->|_]; [|reflexivity].
      destruct (Nat.eqb_spec b i) as [->|_]; [|reflexivity].
      contradiction.
  - rewrite <- (@sum_n_single2_rect (norb self) (norb self) i j (fun a b => G a b P Q))
      by assumption.
    rewrite <- (@sum_n_single2_rect (norb self) (norb self) j i (fun a b => G a b P Q))
      by assumption.
    rewrite <- sum_n_add. apply sum_n_ext. intros a _.
    rewrite <- sum_n_add. apply sum_n_ext. intros b _.
    destruct (Nat.eqb_spec (pair_index a b) (pair_index i j)) as [E|E].
    + apply pair_index_inj in E. destruct E as [[-> ->]|[-> ->]].
      * rewrite !Nat.eqb_refl. cbn [andb].
        replace (i =? j) with false by (symmetry; apply Nat.eqb_neq; exact Hne).
        cbn [andb]. ring.
      * rewrite !Nat.eqb_refl. cbn [andb].
        replace (j =? i) with false
          by (symmetry; apply Nat.eqb_neq; intros E; apply Hne; symmetry; exact E).
        cbn [andb]. ring.
    + destruct (Nat.eqb_spec a i) as [->|Ha]; cbn [andb].
      * destruct (Nat.eqb_spec b j) as [->|Hb]; [contradiction|].
        destruct (Nat.eqb_spec i j) as [X|_]; [contradiction|].
        cbn [andb]. ring.
      * destruct (Nat.eqb_spec a j) as [->|Ha']; cbn [andb]; [|ring].
        destruct (Nat.eqb_spec b i) as [->|Hb]; [|ring].
        exfalso. apply E. unfold pair_index.
        rewrite (Nat.min_comm j i), (Nat.max_comm j i). reflexivity.
Qed.

Lemma calculate_dvec_spatial_compressed_pairs_witness :
  0 < norb hartree_fock_2 /\ 1 < norb hartree_fock_2
  /\ calculate_dvec_spatial_compressed hartree_fock_2 (pair_index 0 1) 0 0
     = if 0 =? 1 then calculate_dvec_spatial hartree_fock_2 0 0 0 0
       else (calculate_dvec_spatial hartree_fock_2 0%nat 1%nat 0%nat 0%nat
             + calculate_dvec_spatial hartree_fock_2 1%nat 0%nat 0%nat 0%nat)%C.
Proof.
  assert (H0 : 0 < norb hartree_fock_2) by (cbn; lia).
  assert (H1 : 1 < norb hartree_fock_2) by (cbn; lia).
  split; [exact H0|]. split; [exact H1|].
  exact (@calculate_dvec_spatial_compressed_pairs hartree_fock_2 0 1 0 0 H0 H1).
Defined.

(** ** Density matrices *)

Lemma get_spin_opdm_entry (self : FqeData) (i j : nat) :
  i < norb self -> j < norb self ->
  fst (get_spin_opdm self) i j
  = sum_n (lena self) (fun P => sum_n (lenb self) (fun Q =>
      (sum_list (alpha_map self i j) (fun e =>
         if P =? target_of e
         then coeff self (source_of e) Q * C_of_Z (parity_of e) else 0)
       * Cconj (coeff self P Q))%C))
  /\ snd (get_spin_opdm self) i j
     = sum_n (lena self) (fun P => sum_n (lenb self) (fun Q =>
         (sum_list (beta_map self i j) (fun e =>
            if Q =? target_of e
            then coeff self P (source_of e) * C_of_Z (parity_of e) else 0)
          * Cconj (coeff self P Q))%C)).
Proof.
  intros Hi Hj. unfold get_spin_opdm.
  destruct (calculate_dvec_spin self) as [dveca dvecb] eqn:E.
  cbn [fst snd]. unfold tensordot42, conj2. split.
  - apply sum_n_ext. intros P _. apply sum_n_ext. intros Q _.
    destruct (calculate_dvec_spin_entry self P Q Hi Hj) as [H _].
    rewrite E in H. cbn [fst] in H. rewrite H. reflexivity.
  - apply sum_n_ext. intros P _. apply sum_n_ext. intros Q _.
    destruct (calculate_dvec_spin_entry self P Q Hi Hj) as [_ H].
    rewrite E in H. cbn [snd] in H. rewrite H. reflexivity.
Qed.

(** X12: the traces of the two matrices of [get_spin_opdm] are the number of
    alpha electrons and the number of beta electrons, each times the squared
    norm of the coefficients. *)
Theorem get_spin_opdm_trace (self : FqeData) :
  trace (norb self) (fst (get_spin_opdm self))
  = (C_of_nat (nalpha self) * norm_sq self)%C
  /\ trace (norb self) (snd (get_spin_opdm self))
     = (C_of_nat (nbeta self) * norm_sq self)%C.
Proof.
  pose (w := fun P Q => (coeff self P Q * Cconj (coeff self P Q))%C).
  assert (Hnorm : forall k : nat,
    sum_n (lena self) (fun P => sum_n (lenb self) (fun Q =>
      (C_of_nat k * w P Q)%C))
    = (C_of_nat k * norm_sq self)%C).
  { intros k. unfold norm_sq. fold w.
    rewrite sum_n_ext
      with (g := fun P => (C_of_nat k * sum_n (lenb self) (fun Q => w P Q))%C)
      by (intros P _; apply sum_n_scale).
    apply sum_n_scale. }
  unfold trace. split.
  - rewrite sum_n_ext
      with (g := fun i =>
        sum_n (lena self) (fun P => sum_n (lenb self) (fun Q =>
          if bitstring.get_bit (FciGraph.string_alpha (_core self) P) i
          then w P Q else 0%C))).
    + rewrite sum_n_swap. rewrite <- Hnorm.
      apply sum_n_ext. intros P HP. rewrite sum_n_swap.
      apply sum_n_ext. intros Q _. rewrite sum_n_count.
      unfold FciGraph.string_alpha, FciGraph.strings_alpha.
      rewrite strings_occupation by exact HP. reflexivity.
    + intros i Hi.
      destruct (get_spin_opdm_entry self Hi Hi) as [-> _].
      apply sum_n_ext. intros P HP. apply sum_n_ext. intros Q _.
      unfold alpha_map, FciGraph.alpha_map.
      rewrite (@diagonal_action (FciGraph.strings_alpha (_core self)) i P
                 (fun s => coeff self s Q))
        by (try apply strings_NoDup; exact HP).
      unfold FciGraph.string_alpha, w.
      destruct (bitstring.get_bit _ i); ring.
  - rewrite sum_n_ext
      with (g := fun i =>
        sum_n (lena self) (fun P => sum_n (lenb self) (fun Q =>
          if bitstring.get_bit (FciGraph.string_beta (_core self) Q) i
          then w P Q else 0%C))).
    + rewrite sum_n_swap. rewrite <- Hnorm.
      apply sum_n_ext. intros P _. rewrite sum_n_swap.
      apply sum_n_ext. intros Q HQ. rewrite sum_n_count.
      unfold FciGraph.string_beta, FciGraph.strings_beta.
      rewrite strings_occupation by exact HQ. reflexivity.
    + intros i Hi.
      destruct (get_spin_opdm_entry self Hi Hi) as [_ ->].
      apply sum_n_ext. intros P _. apply sum_n_ext. intros Q HQ.
      unfold beta_map, FciGraph.beta_map.
      rewrite (@diagonal_action (FciGraph.strings_beta (_core self)) i Q
                 (fun s => coeff self P s))
        by (try apply strings_NoDup; exact HQ).
      unfold FciGraph.string_beta, w.
      destruct (bitstring.get_bit _ i); ring.
Qed.

(** X13: the matrix of [rdm1] is the conjugate transpose of the sum of the
    two matrices of [get_spin_opdm]. *)
Theorem rdm1_from_spin_opdm (self : FqeData) (i j : nat) :
  i < norb self -> j < norb self ->
  rdm1 self None i j
  = Cconj (fst (get_spin_opdm self) j i + snd (get_spin_opdm self) j i).
Proof.
  intros Hi Hj. unfold rdm1. rewrite _rdm1_blocked_entry by lia.
  destruct (get_spin_opdm_entry self Hj Hi) as [-> ->].
  f_equal. rewrite <- sum_n_add. apply sum_n_ext. intros P _.
  rewrite <- sum_n_add. apply sum_n_ext. intros Q _.
  unfold dvec_entry. ring.
Qed.

Lemma rdm1_from_spin_opdm_witness :
  0 < norb one_electron_complex /\ 1 < norb one_electron_complex
  /\ rdm1 one_electron_complex None 0 1
     = Cconj (fst (get_spin_opdm one_electron_complex) 1%nat 0%nat
              + snd (get_spin_opdm one_electron_complex) 1%nat 0%nat).
Proof.
  assert (H0 : 0 < norb one_electron_complex) by (cbn; lia).
  assert (H1 : 1 < norb one_electron_complex) by (cbn; lia).
  split; [exact H0|]. split; [exact H1|].
  exact (@rdm1_from_spin_opdm one_electron_complex 0 1 H0 H1).
Defined.

Lemma _rdm12_halffilling_blocked_fst (self : FqeData) (max_states i j : nat) :
  0 < max_states ->
  fst (_rdm12_halffilling_blocked self None max_states) i j
  = sum_n (lena self) (fun P => sum_n (lenb self) (fun Q =>
      (Cconj (dvec_entry (coeff self) (alpha_map self) (beta_map self) j i P Q)
       * coeff self P Q)%C)).
Proof.
  intros Hm. unfold _rdm12_halffilling_blocked. cbv zeta.
  match goal with
  | |- context [for_each ?l ?body ?init] =>
      pose proof (@for_each_read _ _ l body
                    (fun s : Array2 * Array4 => fst s j i)
                    (fun blk =>
                       tensordot42 (range_len (FciGraph.alpha_range blk))
                         (range_len (FciGraph.beta_range blk))
                         (conj4
                            (dvec_of_block (coeff self) (transpose (coeff self))
                               blk (norb self) (lena self) (lenb self)))
                         (slice2 (coeff self) (fst (FciGraph.alpha_range blk))
                            (fst (FciGraph.beta_range blk))) j i)
                    init) as Hread;
      destruct (for_each l body init) as [r1 r2] eqn:E
  end.
  cbn [fst]. unfold transpose at 1. cbn [fst] in Hread.
  rewrite Hread by (intros blk [o1 o2]; reflexivity).
  unfold zeros2.
  match goal with |- (0 + ?a)%C = _ => transitivity a; [ring|] end.
  apply block_sum; [exact Hm|].
  intros ar br. unfold tensordot42, conj4, slice2.
  cbn [FciGraph.alpha_range FciGraph.beta_range].
  apply sum_n_ext. intros p Hp. apply sum_n_ext. intros q Hq.
  rewrite dvec_of_block_entry by assumption.
  reflexivity.
Qed.

(** X14: the 1-particle matrix that the half-filling code of [rdm12] returns
    is the matrix of [rdm1]. *)
Theorem _rdm12_halffilling_rdm1 (self : FqeData) (i j : nat) :
  fst (_rdm12_halffilling self None) i j = rdm1 self None i j.
Proof.
  unfold _rdm12_halffilling, rdm1.
  rewrite _rdm12_halffilling_blocked_fst, _rdm1_blocked_entry by lia.
  rewrite sum_n_conj. apply sum_n_ext. intros P _.
  rewrite sum_n_conj. apply sum_n_ext. intros Q _.
  rewrite Cconj_mul, Cconj_involutive. reflexivity.
Qed.

(** ** [ax_plus_y] on another shape *)

Unset Implicit Arguments.

Lemma __hash___of_attributes (self other : FqeData) :
  _nele self = _nele other -> _m_s self = _m_s other ->
  (__hash__ self =? __hash__ other)%Z = true.
Proof.
  intros H1 H2. unfold __hash__. rewrite H1, H2. apply Z.eqb_refl.
Qed.

Set Implicit Arguments.

(** X15: when [other] has the electron number and the spin projection of
    [self] and a single determinant pair, [ax_plus_y] passes its assertion
    and adds [sval] times the one amplitude of [other] to every coefficient
    of [self], whatever the shape of [self]. *)
Theorem ax_plus_y_single_pair (self other : FqeData) (sval : complex) :
  _nele self = _nele other -> _m_s self = _m_s other ->
  lena other = 1 -> lenb other = 1 ->
  exists self',
    ax_plus_y sval other self = (Ok tt, self')
    /\ _core self' = _core self
    /\ forall p q, p < lena self -> q < lenb self ->
         coeff self' p q = (coeff self p q + coeff other 0%nat 0%nat * sval)%C.
Proof.
  intros Hn Hm Ha Hb.
  unfold ax_plus_y, m_bind, get_self, lift, set_coeff.
  rewrite (__hash___of_attributes self other Hn Hm). cbn [assert_].
  unfold broadcast_to. rewrite Ha, Hb, Nat.eqb_refl, !orb_true_r.
  cbn [andb]. eexists. split; [reflexivity|]. split; [reflexivity|].
  intros p q Hp Hq. cbn [coeff with_coeff]. unfold add2, scale2.
  destruct (Nat.eqb_spec 1 (lena self)) as [E1|_];
    destruct (Nat.eqb_spec 1 (lenb self)) as [E2|_];
    repeat match goal with
           | H : 1 = _ |- _ => rewrite <- H in *
           end;
    try (replace p with 0 by lia); try (replace q with 0 by lia);
    reflexivity.
Qed.

Lemma ax_plus_y_single_pair_witness :
  _nele hartree_fock_2 = _nele single_pair_5
  /\ _m_s hartree_fock_2 = _m_s single_pair_5
  /\ lena single_pair_5 = 1 /\ lenb single_pair_5 = 1
  /\ exists self',
       ax_plus_y 1%C single_pair_5 hartree_fock_2 = (Ok tt, self')
       /\ _core self' = _core hartree_fock_2
       /\ forall p q, p < lena hartree_fock_2 -> q < lenb hartree_fock_2 ->
            coeff self' p q
            = (coeff hartree_fock_2 p q + coeff single_pair_5 0%nat 0%nat * 1)%C.
Proof.
  assert (Hn : _nele hartree_fock_2 = _nele single_pair_5) by reflexivity.
  assert (Hm : _m_s hartree_fock_2 = _m_s single_pair_5) by reflexivity.
  assert (Ha : lena single_pair_5 = 1) by reflexivity.
  assert (Hb : lenb single_pair_5 = 1) by reflexivity.
  split; [exact Hn|]. split; [exact Hm|]. split; [exact Ha|].
  split; [exact Hb|].
  exact (@ax_plus_y_single_pair hartree_fock_2 single_pair_5 1%C Hn Hm Ha Hb).
Defined.

(** ** [set_wfn] *)

Lemma filter_all {A : Type} (l : list A) :
  List.filter (fun _ => true) l = l.
Proof. induction l as [|a l IH]; cbn; [|rewrite IH]; reflexivity. Qed.

Lemma count_bits_ones (n : nat) :
  bitstring.count_bits (N.ones (N.of_nat n)) = n.
Proof.
  assert (Hb : (N.ones (N.of_nat n) < 2 ^ N.of_nat n)%N).
  { rewrite N.ones_equiv. apply N.lt_pred_l. apply N.pow_nonzero. lia. }
  rewrite <- (@count_occupied n _ Hb).
  rewrite (@filter_ext_in _ (bitstring.get_bit (N.ones (N.of_nat n)))
             (fun _ => true)).
  - rewrite filter_all. unfold range. apply length_seq.
  - intros i Hi. apply in_seq in Hi. unfold bitstring.get_bit.
    apply N.ones_spec_low. lia.
Qed.

Lemma strings_nonempty (norb nele : nat) :
  nele <= norb -> 0 < length (FciGraph.strings norb nele).
Proof.
  intros H.
  assert (Hin : In (N.ones (N.of_nat nele)) (FciGraph.strings norb nele)).
  { unfold FciGraph.strings. apply filter_In. split.
    - assert (Hlt : (N.ones (N.of_nat nele) < 2 ^ N.of_nat norb)%N).
      { rewrite N.ones_equiv.
        apply N.lt_le_trans with (2 ^ N.of_nat nele)%N.
        - apply N.lt_pred_l. apply N.pow_nonzero. lia.
        - apply N.pow_le_mono_r; lia. }
      apply in_map_iff. exists (N.to_nat (N.ones (N.of_nat nele))).
      split; [apply N2Nat.id|].
      apply in_seq. split; [lia|]. cbn [Nat.add].
      replace (2 ^ norb) with (N.to_nat (2 ^ N.of_nat norb)); [lia|].
      rewrite N2Nat.inj_pow, Nat2N.id. reflexivity.
    - apply Nat.eqb_eq. apply count_bits_ones. }
  destruct (FciGraph.strings norb nele); [contradiction|cbn; lia].
Qed.

Lemma strategy_eqb_eq (a b : option string) :
  strategy_eqb a b = true <-> a = b.
Proof.
  destruct a as [x|], b as [y|]; cbn [strategy_eqb];
    try (split; [discriminate | intros H; discriminate H]);
    try (split; reflexivity).
  rewrite String.eqb_eq. split; [intros ->; reflexivity|].
  intros H. inversion H. reflexivity.
Qed.

Lemma strategy_eqb_neq (a b : option string) :
  a <> b -> strategy_eqb a b = false.
Proof.
  intros H. destruct (strategy_eqb a b) eqn:E; [|reflexivity].
  apply strategy_eqb_eq in E. contradiction.
Qed.

(** X16: [set_wfn] raises [ValueError] and leaves the instance as it was
    when the strategy is [None], with or without data, when it is not one
    of the five names, when data comes with a strategy other than
    ['from_data'], and when ['from_data'] comes without data. *)
Theorem set_wfn_rejects (strategy : option string) (raw_data : RawData)
    (rand_wfn : nat -> nat -> Array2) (self : FqeData) :
  strategy = None
  \/ strategy_in strategy
       [Some "ones"; Some "zero"; Some "random"; Some "from_data";
        Some "hartree-fock"]%string = false
  \/ (raw_data <> None /\ strategy <> Some "from_data"%string)
  \/ (raw_data = None /\ strategy = Some "from_data"%string) ->
  set_wfn strategy raw_data rand_wfn self = (Err ValueError, self).
Proof.
  intros H. unfold set_wfn, m_bind, get_self, raise, lift.
  destruct H as [-> | [H | [[Hr Hs] | [-> ->]]]].
  - destruct raw_data as [[[r c] a]|]; reflexivity.
  - destruct (strategy_eqb strategy None && _); [reflexivity|].
    destruct (strategy_eqb strategy (Some "from_data"%string) && _);
      [reflexivity|].
    destruct (negb _ && negb _); [reflexivity|].
    rewrite H. reflexivity.
  - destruct raw_data as [[[r c] a]|]; [|contradiction].
    cbn [andb negb]. rewrite !andb_false_r.
    destruct strategy as [x|]; [|reflexivity].
    unfold strategy_in. cbn [existsb].
    rewrite (strategy_eqb_neq Hs). cbn [strategy_eqb orb negb].
    reflexivity.
  - reflexivity.
Qed.

Lemma set_wfn_rejects_witness :
  (@None string = None
   \/ strategy_in None
        [Some "ones"; Some "zero"; Some "random"; Some "from_data";
         Some "hartree-fock"]%string = false
   \/ (Some (2, 2, zeros2) <> None /\ @None string <> Some "from_data"%string)
   \/ (Some (2, 2, zeros2) = None /\ @None string = Some "from_data"%string))
  /\ set_wfn None (Some (2, 2, zeros2)) (fun _ _ => zeros2) hartree_fock_2
     = (Err ValueError, hartree_fock_2).
Proof.
  assert (H : @None string = None
    \/ strategy_in None
         [Some "ones"; Some "zero"; Some "random"; Some "from_data";
          Some "hartree-fock"]%string = false
    \/ (Some (2, 2, zeros2) <> None /\ @None string <> Some "from_data"%string)
    \/ (Some (2, 2, zeros2) = None /\ @None string = Some "from_data"%string))
    by (left; reflexivity).
  split; [exact H|].
  exact (@set_wfn_rejects None (Some (2, 2, zeros2)) (fun _ _ => zeros2)
           hartree_fock_2 H).
Defined.

(** X17: with the strategy ['from_data'], [set_wfn] takes the data as the
    coefficients when its two lengths are [lena] and [lenb], and raises
    [ValueError], leaving the instance as it was, when they are not. *)
Theorem set_wfn_from_data (rows cols : nat) (a : Array2)
    (rand_wfn : nat -> nat -> Array2) (self : FqeData) :
  set_wfn (Some "from_data"%string) (Some (rows, cols, a)) rand_wfn self
  = if (rows =? lena self) && (cols =? lenb self)
    then (Ok tt, with_coeff self a)
    else (Err ValueError, self).
Proof.
  unfold set_wfn, m_bind, get_self, raise, lift, set_coeff, m_ret.
  cbn [andb negb strategy_in existsb strategy_eqb String.eqb Ascii.eqb
       Bool.eqb orb].
  destruct (rows =? lena self); cbn [negb orb andb]; [|reflexivity].
  destruct (cols =? lenb self); reflexivity.
Qed.

Lemma norm_sq_single (self : FqeData) :
  0 < lena self -> 0 < lenb self ->
  (forall p q, coeff self p q = if (p =? 0) && (q =? 0) then 1%C else 0%C) ->
  norm_sq self = 1%C.
Proof.
  intros Ha Hb Hc. unfold norm_sq.
  rewrite sum_n_ext
    with (g := fun p => sum_n (lenb self) (fun q =>
                 if (p =? 0) && (q =? 0) then 1%C else 0%C)).
  - rewrite (@sum_n_single2_rect (lena self) (lenb self) 0 0 (fun _ _ => 1%C))
      by assumption.
    reflexivity.
  - intros p _. apply sum_n_ext. intros q _. rewrite Hc.
    destruct ((p =? 0) && (q =? 0)); apply Ceqb_eq; reflexivity.
Qed.

(** X18: on a sector of a valid configuration, [set_wfn] with the strategy
    ['hartree-fock'] leaves the coefficient 1 at the first determinant pair
    and 0 elsewhere, a state of norm 1. *)
Theorem set_wfn_hartree_fock (rand_wfn : nat -> nat -> Array2)
    (self : FqeData) :
  valid_config (_core self) ->
  exists self',
    set_wfn (Some "hartree-fock"%string) None rand_wfn self = (Ok tt, self')
    /\ _core self' = _core self
    /\ (forall p q,
          coeff self' p q = if (p =? 0) && (q =? 0) then 1%C else 0%C)
    /\ norm_sq self' = 1%C.
Proof.
  intros [Hva Hvb].
  assert (Ha : 0 < lena self) by (apply strings_nonempty; exact Hva).
  assert (Hb : 0 < lenb self) by (apply strings_nonempty; exact Hvb).
  unfold set_wfn, fill, m_bind, get_self, raise, lift, set_coeff, m_ret.
  cbn [andb negb strategy_in existsb strategy_eqb String.eqb Ascii.eqb
       Bool.eqb orb].
  change (lena (with_coeff self (fun _ _ : nat => 0%C))) with (lena self).
  change (lenb (with_coeff self (fun _ _ : nat => 0%C))) with (lenb self).
  replace (0 <? lena self) with true by (symmetry; apply Nat.ltb_lt; exact Ha).
  replace (0 <? lenb self) with true by (symmetry; apply Nat.ltb_lt; exact Hb).
  cbn [andb]. eexists. split; [reflexivity|]. split; [reflexivity|].
  assert (Hc : forall p q,
    coeff (with_coeff (with_coeff self (fun _ _ => 0%C))
             (set2 (coeff (with_coeff self (fun _ _ => 0%C))) 0 0 1%C)) p q
    = if (p =? 0) && (q =? 0) then 1%C else 0%C) by reflexivity.
  split; [exact Hc|].
  apply norm_sq_single; assumption.
Qed.

Lemma set_wfn_hartree_fock_witness :
  valid_config (_core hartree_fock_2_zero)
  /\ exists self',
       set_wfn (Some "hartree-fock"%string) None (fun _ _ => zeros2)
         hartree_fock_2_zero = (Ok tt, self')
       /\ norm_sq self' = 1%C.
Proof.
  assert (H : valid_config (_core hartree_fock_2_zero)) by (split; cbn; lia).
  split; [exact H|].
  destruct (@set_wfn_hartree_fock (fun _ _ => zeros2) hartree_fock_2_zero H)
    as [self' [Hrun [_ [_ Hnorm]]]].
  exists self'. split; [exact Hrun | exact Hnorm].
Defined.

(** ** Scaling, conjugation and the norm *)

(** X19: [scale] multiplies the squared norm of the coefficients by [sval]
    times its conjugate, and [conj] leaves it as it is. *)
Theorem scale_conj_norm_sq (self : FqeData) (sval : complex) :
  norm_sq (snd (scale sval self))
  = (sval * Cconj sval * norm_sq self)%C
  /\ norm_sq (snd (conj_ self)) = norm_sq self.
Proof.
  unfold scale, conj_, m_bind, get_self, set_coeff. cbn [snd].
  unfold norm_sq, lena, lenb. cbn [_core coeff with_coeff].
  unfold scale2, conj2. split.
  - rewrite <- sum_n_scale. apply sum_n_ext. intros p _.
    rewrite <- sum_n_scale. apply sum_n_ext. intros q _.
    rewrite Cconj_mul. ring.
  - apply sum_n_ext. intros p _. apply sum_n_ext. intros q _.
    rewrite Cconj_involutive. ring.
Qed.

(** ** [apply_inplace_s2] *)

(** X20: on a sector without beta electrons, [apply_inplace_s2] multiplies
    every coefficient by [s (s + 1)], where [s] is half the number of alpha
    electrons. *)
Theorem apply_inplace_s2_high_spin (self : FqeData) :
  nbeta self = 0 ->
  exists self',
    apply_inplace_s2 self = (Ok tt, self')
    /\ _core self' = _core self
    /\ forall p q,
         coeff self' p q
         = (coeff self p q
            * (C_of_nat (nalpha self) * C_of (Qc_of 1 2) 0
               * (C_of_nat (nalpha self) * C_of (Qc_of 1 2) 0 + 1)))%C.
Proof.
  intros Hb. unfold apply_inplace_s2, m_bind, get_self, set_coeff.
  rewrite Hb. cbn [Nat.eqb negb]. rewrite andb_false_r.
  eexists. split; [reflexivity|]. split; [reflexivity|].
  intros p q. cbn [coeff with_coeff]. unfold scale2.
  cbn [Z.of_nat]. rewrite Z.sub_0_r.
  fold (C_of_nat (nalpha self)). rewrite C_of_nat_0. ring.
Qed.

Lemma apply_inplace_s2_high_spin_witness :
  nbeta one_electron_35 = 0
  /\ exists self',
       apply_inplace_s2 one_electron_35 = (Ok tt, self')
       /\ coeff self' 0 0 = (C_of_Z 3 * C_of (Qc_of 3 4) 0)%C.
Proof.
  assert (H : nbeta one_electron_35 = 0) by reflexivity.
  split; [exact H|].
  destruct (@apply_inplace_s2_high_spin one_electron_35 H)
    as [self' [Hrun [_ Hv]]].
  exists self'. split; [exact Hrun|].
  rewrite Hv. apply Ceqb_eq. vm_compute. reflexivity.
Defined.

(** ** Excitation strings that leave the determinants in place *)

Section Fixing.
Variables (strs : list N) (dag undag : list nat) (m : ExcMap).
Hypothesis Hnd : List.NoDup strs.
Hypothesis Hm : mapping_of strs dag undag (length strs) m.
Hypothesis Hfix :
  forall s, string_applies dag undag s = true -> string_image dag undag s = s.

Lemma fixing_source (e : Entry) : In e m -> source_of e = target_of e.
Proof using Hnd Hm Hfix.
  intros Hin. destruct Hm as [_ H2].
  destruct (H2 e Hin) as [Hs [Ha [Hf _]]].
  rewrite (Hfix _ Ha), (index_of_string Hnd Hs) in Hf.
  inversion Hf. reflexivity.
Qed.

Lemma fixing_on (P : nat) :
  P < length strs -> string_applies dag undag (nth P strs 0%N) = true ->
  exists e,
    last_with_target m P = Some e /\ source_of e = P
    /\ parity_of e = string_sign dag undag (nth P strs 0%N).
Proof using Hnd Hm Hfix.
  intros HP Ha. destruct (last_with_target m P) as [e|] eqn:L.
  - exists e. apply last_with_target_Some in L. destruct L as [Hin Ht].
    pose proof (fixing_source e Hin) as Hs. rewrite Ht in Hs.
    split; [reflexivity|]. split; [exact Hs|].
    destruct Hm as [_ H2]. destruct (H2 e Hin) as [_ [_ [_ Hp]]].
    rewrite Hs in Hp. exact Hp.
  - exfalso. destruct Hm as [H1 _].
    destruct (H1 P HP Ha) as [t [Hf Hin]].
    rewrite (Hfix _ Ha), (index_of_string Hnd HP) in Hf.
    inversion Hf; subst t.
    exact (last_with_target_None _ _ L Hin eq_refl).
Qed.

Lemma fixing_off (P : nat) :
  string_applies dag undag (nth P strs 0%N) = false ->
  last_with_target m P = None.
Proof using Hnd Hm Hfix.
  intros Ha. destruct (last_with_target m P) as [e|] eqn:L; [|reflexivity].
  exfalso. apply last_with_target_Some in L. destruct L as [Hin Ht].
  pose proof (fixing_source e Hin) as Hs. rewrite Ht in Hs.
  destruct Hm as [_ H2]. destruct (H2 e Hin) as [_ [Ha' _]].
  rewrite Hs in Ha'. congruence.
Qed.

End Fixing.

Lemma number_string_applies (i : nat) (s : N) :
  string_applies [i] [i] s = bitstring.get_bit s i.
Proof.
  unfold string_applies. cbn [forallb existsb].
  rewrite Nat.eqb_refl. cbn [orb]. rewrite !andb_true_r. reflexivity.
Qed.

Lemma number_string_image (i : nat) (s : N) :
  string_applies [i] [i] s = true -> string_image [i] [i] s = s.
Proof.
  rewrite number_string_applies. intros H.
  unfold string_image, toggle_all. cbn [rev app for_each fold_left snd].
  apply set_unset_bit. exact H.
Qed.

Lemma number_string_sign (i : nat) (s : N) : string_sign [i] [i] s = 1%Z.
Proof.
  unfold string_sign, toggle_all. cbn [rev app for_each fold_left fst snd].
  rewrite count_bits_above_unset. cbn [Nat.add]. apply sign_of_double.
Qed.

Lemma empty_string_image (s : N) :
  string_applies [] [] s = true -> string_image [] [] s = s.
Proof. reflexivity. Qed.

(** X21: the excitation string that creates and annihilates the same alpha
    orbital [i] is the occupation number of [i]: whenever
    [apply_individual_nbody] returns, the coefficient of a determinant pair
    is [coeff] times the original one when the alpha string occupies [i],
    and zero when it does not. *)
Theorem apply_individual_nbody_number (self out : FqeData) (c : complex)
    (i P Q : nat) :
  apply_individual_nbody self c [i] [i] [] [] = Ok out ->
  P < lena self -> Q < lenb self ->
  coeff out P Q
  = if bitstring.get_bit (FciGraph.string_alpha (_core self) P) i
    then (c * coeff self P Q)%C else 0%C.
Proof.
  intros Hrun HP HQ.
  apply apply_individual_nbody_value in Hrun.
  destruct Hrun as [ma [mb [Ha [Hb [_ Hv]]]]].
  apply make_mapping_each_spec in Ha, Hb.
  pose proof (strings_NoDup (FciGraph.norb (_core self))
                (FciGraph.nalpha (_core self))) as Hnda.
  pose proof (strings_NoDup (FciGraph.norb (_core self))
                (FciGraph.nbeta (_core self))) as Hndb.
  rewrite Hv. unfold FciGraph.string_alpha.
  destruct (@fixing_on _ _ _ _ Hndb Hb empty_string_image Q HQ eq_refl)
    as [eb [Lb [Sb Pb]]].
  rewrite Lb, Sb, Pb.
  destruct (bitstring.get_bit (nth P (FciGraph.strings_alpha (_core self)) 0%N) i)
    eqn:Hbit.
  - destruct (@fixing_on _ _ _ _ Hnda Ha (number_string_image i) P HP)
      as [ea [La [Sa Pa]]]; [rewrite number_string_applies; exact Hbit|].
    rewrite La, Sa, Pa, number_string_sign.
    change (string_sign [] [] ?s) with 1%Z. rewrite C_of_Z_1. ring.
  - rewrite (@fixing_off _ _ _ _ Hnda Ha (number_string_image i) P)
      by (rewrite number_string_applies; exact Hbit).
    reflexivity.
Qed.

Lemma apply_individual_nbody_number_witness :
  apply_individual_nbody one_electron_35 (C_of_Z 2) [0] [0] [] []
  = Ok number_35
  /\ 0 < lena one_electron_35 /\ 0 < lenb one_electron_35
  /\ coeff number_35 0 0
     = if bitstring.get_bit
            (FciGraph.string_alpha (_core one_electron_35) 0) 0
       then (C_of_Z 2 * coeff one_electron_35 0%nat 0%nat)%C else 0%C.
Proof.
  assert (E : apply_individual_nbody one_electron_35 (C_of_Z 2) [0] [0] [] []
              = Ok number_35) by reflexivity.
  assert (Hp : 0 < lena one_electron_35) by (vm_compute; lia).
  assert (Hq : 0 < lenb one_electron_35) by (vm_compute; lia).
  split; [exact E|]. split; [exact Hp|]. split; [exact Hq|].
  exact (@apply_individual_nbody_number one_electron_35 number_35 (C_of_Z 2)
           0 0 0 E Hp Hq).
Defined.

(** ** The 1-body routines *)

Lemma sum_list_indicator_scale {E : Type} (l : list E) (h : complex)
    (b : E -> bool) (x : E -> complex) :
  sum_list l (fun e => if b e then (h * x e)%C else 0%C)
  = (h * sum_list l (fun e => if b e then x e else 0%C))%C.
Proof.
  rewrite <- sum_list_scale. apply sum_list_ext. intros e _.
  destruct (b e); ring.
Qed.

(** X22: on a tensor of shape [(norb, norb)], the spatial 1-body routine
    returns the sum over the orbital pairs of the entry [h1e[i, j]] times
    the slice [[i, j]] of the D-vector of [calculate_dvec_spatial]; on any
    other shape it fails its assertion. *)
Theorem _apply_array_spatial1_value (self : FqeData) (h1e : Tensor) :
  (shape h1e = [norb self; norb self] ->
   exists c,
     _apply_array_spatial1 self h1e = Ok c
     /\ forall p q,
          c p q
          = sum_n (norb self) (fun i => sum_n (norb self) (fun j =>
              (matrix_of h1e i j * calculate_dvec_spatial self i j p q)%C)))
  /\ (shape h1e <> [norb self; norb self] ->
      _apply_array_spatial1 self h1e = Err AssertionError).
Proof.
  unfold _apply_array_spatial1. split.
  - intros Hs. rewrite Hs, shape_eqb_refl. cbn [assert_ rbind].
    destruct (scan_columns _ _ 0 0) as [ncol jorb].
    eexists. split; [destruct (1 <? ncol); reflexivity|].
    intros p q. unfold add2, transpose.
    rewrite !_lm_apply_array1_sum. unfold zeros2.
    match goal with |- (0 + ?a + (0 + ?b))%C = _ =>
      transitivity (a + b)%C; [ring|] end.
    rewrite <- sum_n_add. apply sum_n_ext. intros i Hi.
    rewrite <- sum_n_add. apply sum_n_ext. intros j Hj.
    unfold calculate_dvec_spatial.
    rewrite _calculate_dvec_spatial_with_coeff_entry by assumption.
    unfold dvec_entry, FciGraph._dexca, FciGraph._dexcb, alpha_map, beta_map,
      lib.line.
    rewrite !sum_list_indicator_scale. ring.
  - intros Hs. unfold shape_eqb.
    rewrite (bool_decide_eq_false_2 _ Hs). reflexivity.
Qed.

Lemma _apply_array_spatial1_value_witness :
  shape (scaled_identity 2 1%C) = [norb hartree_fock_2; norb hartree_fock_2]
  /\ exists c,
       _apply_array_spatial1 hartree_fock_2 (scaled_identity 2 1%C) = Ok c.
Proof.
  assert (H : shape (scaled_identity 2 1%C)
              = [norb hartree_fock_2; norb hartree_fock_2]) by reflexivity.
  split; [exact H|].
  destruct (proj1 (@_apply_array_spatial1_value hartree_fock_2
                     (scaled_identity 2 1%C)) H) as [c [Hc _]].
  exists c. exact Hc.
Defined.

(** What a scan that ends with at most one populated column has seen. *)
Lemma scan_columns_at_most_one (populated : nat -> bool) (js : list nat)
    (ncol0 jorb0 ncol jorb : nat) :
  scan_columns populated js ncol0 jorb0 = (ncol, jorb) -> ncol <= 1 ->
  ncol0 <= ncol
  /\ ((ncol = ncol0 /\ jorb = jorb0
       /\ forall x, In x js -> populated x = false)
      \/ (ncol0 = 0 /\ ncol = 1 /\ In jorb js
          /\ forall x, In x js -> populated x = true -> x = jorb)).
Proof.
  revert ncol0 jorb0. induction js as [|x rest IH]; intros ncol0 jorb0 H Hn.
  - cbn [scan_columns] in H. inversion H; subst.
    split; [lia|]. left. split; [reflexivity|]. split; [reflexivity|].
    intros y [].
  - cbn [scan_columns] in H. destruct (populated x) eqn:Hx.
    + destruct (Nat.ltb_spec 1 (S ncol0)) as [L|L].
      * inversion H; subst. lia.
      * assert (ncol0 = 0) by lia. subst ncol0.
        destruct (IH _ _ H Hn) as [Hle [[E1 [E2 Hall]]|[E _]]];
          [|discriminate E].
        subst ncol jorb. split; [lia|]. right.
        split; [reflexivity|]. split; [reflexivity|].
        split; [left; reflexivity|].
        intros y [->|Hy] Hy'; [reflexivity|].
        rewrite (Hall y Hy) in Hy'. discriminate Hy'.
    + destruct (Nat.ltb_spec 1 ncol0) as [L|L].
      * inversion H; subst. lia.
      * destruct (IH _ _ H Hn) as [Hle [[E1 [E2 Hall]]|[E1 [E2 [Hin Hall]]]]].
        -- split; [exact Hle|]. left. split; [exact E1|]. split; [exact E2|].
           intros y [->|Hy]; [exact Hx | exact (Hall y Hy)].
        -- split; [exact Hle|]. right. split; [exact E1|]. split; [exact E2|].
           split; [right; exact Hin|].
           intros y [->|Hy] Hy'; [congruence | exact (Hall y Hy Hy')].
Qed.

Lemma any_column_false (rows : nat) (h : Array2) (i j : nat) :
  any_column rows h j = false -> i < rows -> h i j = 0%C.
Proof.
  unfold any_column. intros H Hi.
  destruct (Ceqb (h i j) 0%C) eqn:E; [apply Ceqb_eq; exact E|].
  exfalso. apply not_true_iff_false in H. apply H.
  apply existsb_exists. exists i. split; [apply in_seq; lia|].
  rewrite E. reflexivity.
Qed.

(** X23: on a tensor of shape [(2 norb, 2 norb)], for a sector of at least
    one orbital, the spin-orbital 1-body routine returns, on both of its
    paths (a single populated column or more), the sum over the orbital
    pairs of the entry of the alpha block times the slice of the alpha
    D-vector plus the entry of the beta block times the slice of the beta
    D-vector of [calculate_dvec_spin]. *)
Theorem _apply_array_spin1_value (self : FqeData) (h1e : Tensor) :
  0 < norb self ->
  shape h1e = [norb self * 2; norb self * 2] ->
  exists c,
    _apply_array_spin1 self h1e = Ok c
    /\ forall p q,
         c p q
         = sum_n (norb self) (fun i => sum_n (norb self) (fun j =>
             (matrix_of h1e i j * fst (calculate_dvec_spin self) i j p q
              + matrix_of h1e (norb self + i)%nat (norb self + j)%nat
                * snd (calculate_dvec_spin self) i j p q)%C)).
Proof.
  intros Hn Hs. unfold _apply_array_spin1. cbv zeta.
  rewrite Hs, shape_eqb_refl. cbn [assert_ rbind].
  set (h := matrix_of h1e). set (n := norb self) in *.
  destruct (scan_columns (any_column (n * 2) h) (range (n * 2)) 0 0)
    as [ncol jorb] eqn:Hscan.
  destruct (Nat.ltb_spec 1 ncol) as [Hdense|Hone].
  - eexists. split; [reflexivity|]. intros p q.
    rewrite _lm_apply_array1_sum. cbv beta iota.
    rewrite _lm_apply_array1_sum. unfold zeros2.
    match goal with |- (0 + ?a + ?b)%C = _ =>
      transitivity (a + b)%C; [ring|] end.
    rewrite <- sum_n_add. apply sum_n_ext. intros i Hi.
    rewrite <- sum_n_add. apply sum_n_ext. intros j Hj.
    destruct (calculate_dvec_spin_entry self p q Hi Hj) as [-> ->].
    unfold FciGraph._dexca, FciGraph._dexcb, alpha_map, beta_map, lib.line,
      slice2.
    rewrite !sum_list_indicator_scale. reflexivity.
  - destruct (scan_columns_at_most_one _ _ _ _ Hscan Hone)
      as [_ Hcols].
    assert (Hj : jorb < 2 * n).
    { destruct Hcols as [[_ [-> _]]|[_ [_ [Hin _]]]]; [lia|].
      apply in_seq in Hin. lia. }
    assert (Hzero : forall i x, i < n * 2 -> x < n * 2 -> x <> jorb ->
                      h i x = 0%C).
    { intros i x Hi Hx Hne. apply any_column_false with (rows := n * 2);
        [|exact Hi].
      destruct (any_column (n * 2) h x) eqn:E; [|reflexivity].
      exfalso. apply Hne.
      destruct Hcols as [[_ [_ Hall]]|[_ [_ [_ Hall]]]].
      - rewrite (Hall x) in E by (apply in_seq; lia). discriminate E.
      - apply Hall; [apply in_seq; lia | exact E]. }
    destruct (calculate_dvec_spin_fixed_j_value self jorb)
      as [Hlow [Hhigh _]].
    destruct (Nat.ltb_spec jorb n) as [Hja|Hjb].
    + destruct (Hlow Hja) as [d [Hd Hslice]]. rewrite Hd. cbn [rbind].
      eexists. split; [reflexivity|]. intros p q. unfold tensordot13.
      apply sum_n_ext. intros i Hi. rewrite Hslice by exact Hi.
      rewrite sum_n_ext
        with (g := fun j =>
                if jorb =? j
                then (h i j * fst (calculate_dvec_spin self) i j p q)%C
                else 0%C).
      * rewrite sum_n_single.
        replace (jorb <? n) with true by (symmetry; apply Nat.ltb_lt; exact Hja).
        reflexivity.
      * intros j Hjn.
        rewrite (Hzero (n + i) (n + j)) by lia.
        destruct (Nat.eqb_spec jorb j) as [->|Hne]; [ring|].
        rewrite (Hzero i j) by lia. ring.
    + destruct (Hhigh (conj Hjb Hj)) as [d [Hd Hslice]]. rewrite Hd.
      cbn [rbind]. eexists. split; [reflexivity|]. intros p q.
      unfold tensordot13.
      apply sum_n_ext. intros i Hi. rewrite Hslice by exact Hi.
      rewrite sum_n_ext
        with (g := fun j =>
                if jorb - n =? j
                then (h (n + i)%nat (n + j)%nat
                      * snd (calculate_dvec_spin self) i j p q)%C
                else 0%C).
      * rewrite sum_n_single.
        replace (jorb - n <? n) with true by (symmetry; apply Nat.ltb_lt; lia).
        replace (n + (jorb - n)) with jorb by lia. reflexivity.
      * intros j Hjn.
        rewrite (Hzero i j) by lia.
        destruct (Nat.eqb_spec (jorb - n) j) as [<-|Hne]; [ring|].
        rewrite (Hzero (n + i) (n + j)) by lia. ring.
Qed.

Lemma _apply_array_spin1_value_witness :
  0 < norb hartree_fock_2
  /\ shape (scaled_identity 4 1%C)
     = [norb hartree_fock_2 * 2; norb hartree_fock_2 * 2]
  /\ exists c,
       _apply_array_spin1 hartree_fock_2 (scaled_identity 4 1%C) = Ok c.
Proof.
  assert (Hn : 0 < norb hartree_fock_2) by (cbn; lia).
  assert (H : shape (scaled_identity 4 1%C)
              = [norb hartree_fock_2 * 2; norb hartree_fock_2 * 2])
    by reflexivity.
  split; [exact Hn|]. split; [exact H|].
  destruct (@_apply_array_spin1_value hartree_fock_2 (scaled_identity 4 1%C)
              Hn H) as [c [Hc _]].
  exists c. exact Hc.
Defined.

(** ** The 1-particle matrix is Hermitian *)

Lemma count_bits_above_set (s : N) (i : nat) :
  bitstring.count_bits_above (bitstring.set_bit s i) i
  = bitstring.count_bits_above s i.
Proof.
  unfold bitstring.count_bits_above, bitstring.set_bit. f_equal.
  apply N.bits_inj. intros k.
  rewrite !N.shiftr_spec by apply N.le_0_l.
  rewrite N.setbit_eqb.
  destruct (N.eqb_spec (N.of_nat i) (k + N.of_nat (S i))) as [E|_]; [lia|].
  reflexivity.
Qed.

Lemma sum_n_scale_r (n : nat) (c : complex) (f : nat -> complex) :
  sum_n n (fun i => (f i * c)%C) = (sum_n n f * c)%C.
Proof. induction n as [|n IH]; simpl; [ring|]. rewrite IH. ring. Qed.

Lemma Cmul_comm (a b : complex) : (a * b)%C = (b * a)%C.
Proof. ring. Qed.

Lemma sum_list_conj {A : Type} (l : list A) (f : A -> complex) :
  Cconj (sum_list l f) = sum_list l (fun a => Cconj (f a)).
Proof.
  induction l as [|a l IH].
  - rewrite !sum_list_nil. apply Cconj_0.
  - rewrite !sum_list_cons, Cconj_add, IH. reflexivity.
Qed.

Lemma sum_n_pick (strs : list N) (y : N) (G : nat -> complex) :
  List.NoDup strs ->
  sum_n (length strs) (fun t => if N.eqb (nth t strs 0%N) y then G t else 0%C)
  = match FciGraph.find_index strs y 0 with
    | Some t => G t
    | None => 0%C
    end.
Proof.
  intros Hnd. destruct (FciGraph.find_index strs y 0) as [t0|] eqn:E.
  - apply string_of_index in E. destruct E as [Ht0 Hy].
    rewrite sum_n_ext with (g := fun t => if t0 =? t then G t else 0%C).
    + rewrite sum_n_single.
      replace (t0 <? length strs) with true
        by (symmetry; apply Nat.ltb_lt; exact Ht0).
      reflexivity.
    + intros t Ht. destruct (N.eqb_spec (nth t strs 0%N) y) as [E|E].
      * rewrite <- Hy in E.
        rewrite (nth_NoDup_inj Hnd Ht Ht0 E), Nat.eqb_refl. reflexivity.
      * destruct (Nat.eqb_spec t0 t) as [->|_]; [contradiction|reflexivity].
  - rewrite sum_n_ext with (g := fun _ => 0%C); [apply sum_n_zero|].
    intros t Ht. destruct (N.eqb_spec (nth t strs 0%N) y) as [Ey|_];
      [|reflexivity].
    rewrite <- Ey, (index_of_string Hnd Ht) in E. discriminate E.
Qed.

(** The sum over an excitation map as a sum over the pairs of determinants
    that the excitation connects. *)
Lemma build_mapping_sum_pairs (strs : list N) (i j : nat)
    (F : Entry -> complex) :
  List.NoDup strs ->
  sum_list (FciGraph.build_mapping strs i j) F
  = sum_n (length strs) (fun s => sum_n (length strs) (fun t =>
      if connects strs i j s t
      then F (s, t, excitation_sign (nth s strs 0%N) i j) else 0%C)).
Proof.
  intros Hnd. unfold FciGraph.build_mapping.
  rewrite sum_list_flat_map, (sum_list_enumerate 0%N).
  apply sum_n_ext. intros s Hs. cbn [Nat.add]. unfold connects. cbv zeta.
  destruct (bitstring.get_bit (nth s strs 0%N) j
            && ((i =? j) || negb (bitstring.get_bit (nth s strs 0%N) i))).
  - cbn [andb].
    rewrite (@sum_n_pick strs _
               (fun t => F (s, t, excitation_sign (nth s strs 0%N) i j)) Hnd).
    destruct (FciGraph.find_index strs _ 0) as [t|].
    + rewrite sum_list_cons, sum_list_nil. unfold excitation_sign. ring.
    + apply sum_list_nil.
  - cbn [andb]. rewrite sum_list_nil, sum_n_zero. reflexivity.
Qed.

Lemma connects_swap (strs : list N) (i j s t : nat) :
  connects strs i j s t = true ->
  connects strs j i t s = true
  /\ excitation_sign (nth t strs 0%N) j i
     = excitation_sign (nth s strs 0%N) i j.
Proof.
  unfold connects. cbv zeta.
  set (x := nth s strs 0%N). set (y := nth t strs 0%N).
  intros H. apply andb_true_iff in H. destruct H as [H Hy].
  apply andb_true_iff in H. destruct H as [Hj Hi].
  apply N.eqb_eq in Hy.
  destruct (Nat.eqb_spec i j) as [->|Hne].
  - assert (Eyx : y = x) by (rewrite Hy; apply set_unset_bit; exact Hj).
    rewrite Eyx, Hj, Nat.eqb_refl. cbn [andb orb].
    split; [|reflexivity].
    apply N.eqb_eq. symmetry. apply set_unset_bit. exact Hj.
  - cbn [orb] in Hi. apply negb_true_iff in Hi.
    assert (Hyi : bitstring.get_bit y i = true)
      by (rewrite Hy, get_bit_set, Nat.eqb_refl; reflexivity).
    assert (Hyj : bitstring.get_bit y j = false).
    { rewrite Hy, get_bit_set, get_bit_unset, Nat.eqb_refl.
      replace (j =? i) with false
        by (symmetry; apply Nat.eqb_neq; intros E; apply Hne; symmetry; exact E).
      rewrite andb_false_r. reflexivity. }
    assert (Hu : bitstring.unset_bit y i = bitstring.unset_bit x j).
    { apply get_bit_inj. intros k.
      rewrite Hy, !get_bit_unset, get_bit_set, get_bit_unset.
      destruct (Nat.eqb_spec k i) as [->|Hki]; cbn [orb negb].
      - rewrite Hi. reflexivity.
      - apply andb_true_r. }
    rewrite Hyi, Hyj. cbn [negb andb]. rewrite orb_true_r. cbn [andb].
    split.
    + apply N.eqb_eq. rewrite Hu. symmetry. apply set_unset_bit. exact Hj.
    + unfold excitation_sign. rewrite Hu, count_bits_above_unset.
      rewrite Hy, count_bits_above_set. f_equal. apply Nat.add_comm.
Qed.

Lemma connects_sym (strs : list N) (i j s t : nat) :
  connects strs i j s t = connects strs j i t s.
Proof.
  destruct (connects strs i j s t) eqn:E1.
  - symmetry. apply (connects_swap _ _ _ _ _ E1).
  - destruct (connects strs j i t s) eqn:E2; [|reflexivity].
    apply connects_swap in E2. destruct E2 as [E2 _]. congruence.
Qed.

(** A single excitation and the one in the opposite direction are adjoint
    to each other. *)
Lemma excitation_adjoint (strs : list N) (i j : nat) (X Y : nat -> complex) :
  List.NoDup strs ->
  sum_n (length strs) (fun P =>
    (sum_list (FciGraph.build_mapping strs i j) (fun e =>
       if P =? target_of e
       then X (source_of e) * C_of_Z (parity_of e) else 0)
     * Y P)%C)
  = sum_n (length strs) (fun P =>
      (X P
       * sum_list (FciGraph.build_mapping strs j i) (fun e =>
           if P =? target_of e
           then Y (source_of e) * C_of_Z (parity_of e) else 0))%C).
Proof.
  intros Hnd.
  set (n := length strs).
  set (sg := fun a b s => C_of_Z (excitation_sign (nth s strs 0%N) a b)).
  assert (Hside : forall a b (U V : nat -> complex),
    sum_n n (fun P =>
      (sum_list (FciGraph.build_mapping strs a b) (fun e =>
         if P =? target_of e
         then U (source_of e) * C_of_Z (parity_of e) else 0)
       * V P)%C)
    = sum_n n (fun s => sum_n n (fun t =>
        if connects strs a b s t then (U s * sg a b s * V t)%C else 0%C))).
  { intros a b U V.
    rewrite sum_n_ext
      with (g := fun P => sum_n n (fun s => sum_n n (fun t =>
              if P =? t
              then (if connects strs a b s t
                    then (U s * sg a b s * V t)%C else 0%C)
              else 0%C))).
    - rewrite sum_n_swap. apply sum_n_ext. intros s Hs.
      rewrite sum_n_swap. apply sum_n_ext. intros t Ht.
      rewrite sum_n_ext
        with (g := fun P => if t =? P
                            then (if connects strs a b s t
                                  then (U s * sg a b s * V t)%C else 0%C)
                            else 0%C)
        by (intros P _; rewrite (Nat.eqb_sym t P); reflexivity).
      rewrite sum_n_single.
      replace (t <? n) with true by (symmetry; apply Nat.ltb_lt; exact Ht).
      reflexivity.
    - intros P HP. rewrite build_mapping_sum_pairs by exact Hnd.
      fold n. unfold target_of, source_of, parity_of. cbn [fst snd].
      rewrite <- sum_n_scale_r. apply sum_n_ext. intros s _.
      rewrite <- sum_n_scale_r. apply sum_n_ext. intros t _.
      unfold sg.
      destruct (connects strs a b s t); [|destruct (P =? t); ring].
      destruct (Nat.eqb_spec P t) as [->|_]; ring. }
  rewrite Hside. symmetry.
  rewrite sum_n_ext
    with (g := fun P =>
            (sum_list (FciGraph.build_mapping strs j i) (fun e =>
               if P =? target_of e
               then Y (source_of e) * C_of_Z (parity_of e) else 0)
             * X P)%C)
    by (intros P _; apply Cmul_comm).
  rewrite Hside. rewrite sum_n_swap.
  apply sum_n_ext. intros s _. apply sum_n_ext. intros t _.
  rewrite (connects_sym strs j i t s).
  destruct (connects strs i j s t) eqn:E; [|reflexivity].
  destruct (connects_swap _ _ _ _ _ E) as [_ Hsg].
  unfold sg. rewrite Hsg. ring.
Qed.

(** X24: the matrix of [rdm1] is Hermitian. *)
Theorem rdm1_hermitian (self : FqeData) (i j : nat) :
  rdm1 self None j i = Cconj (rdm1 self None i j).
Proof.
  unfold rdm1. rewrite !_rdm1_blocked_entry by lia.
  rewrite Cconj_involutive.
  rewrite sum_n_conj.
  pose proof (strings_NoDup (FciGraph.norb (_core self))
                (FciGraph.nalpha (_core self))) as Hnda.
  pose proof (strings_NoDup (FciGraph.norb (_core self))
                (FciGraph.nbeta (_core self))) as Hndb.
  transitivity
    (sum_n (lena self) (fun P => sum_n (lenb self) (fun Q =>
       (sum_list (alpha_map self i j) (fun e =>
          if P =? target_of e
          then Cconj (coeff self (source_of e) Q) * C_of_Z (parity_of e)
          else 0)
        * coeff self P Q)%C))
     + sum_n (lena self) (fun P => sum_n (lenb self) (fun Q =>
         (sum_list (beta_map self i j) (fun e =>
            if Q =? target_of e
            then Cconj (coeff self P (source_of e)) * C_of_Z (parity_of e)
            else 0)
          * coeff self P Q)%C)))%C.
  - rewrite <- sum_n_add. apply sum_n_ext. intros P _.
    rewrite sum_n_conj, <- sum_n_add. apply sum_n_ext. intros Q _.
    unfold dvec_entry.
    rewrite Cconj_mul, Cconj_involutive, Cconj_add, !sum_list_conj.
    rewrite (@sum_list_ext _ (alpha_map self i j)
               (fun e => Cconj (if P =? target_of e
                                then coeff self (source_of e) Q
                                     * C_of_Z (parity_of e) else 0))
               (fun e => if P =? target_of e
                         then (Cconj (coeff self (source_of e) Q)
                               * C_of_Z (parity_of e))%C else 0%C))
      by (intros e _; destruct (P =? target_of e);
          [rewrite Cconj_mul, Cconj_of_Z; reflexivity | apply Cconj_0]).
    rewrite (@sum_list_ext _ (beta_map self i j)
               (fun e => Cconj (if Q =? target_of e
                                then coeff self P (source_of e)
                                     * C_of_Z (parity_of e) else 0))
               (fun e => if Q =? target_of e
                         then (Cconj (coeff self P (source_of e))
                               * C_of_Z (parity_of e))%C else 0%C))
      by (intros e _; destruct (Q =? target_of e);
          [rewrite Cconj_mul, Cconj_of_Z; reflexivity | apply Cconj_0]).
    ring.
  - transitivity
      (sum_n (lena self) (fun P => sum_n (lenb self) (fun Q =>
         (Cconj (coeff self P Q)
          * sum_list (alpha_map self j i) (fun e =>
              if P =? target_of e
              then coeff self (source_of e) Q * C_of_Z (parity_of e)
              else 0))%C))
       + sum_n (lena self) (fun P => sum_n (lenb self) (fun Q =>
           (Cconj (coeff self P Q)
            * sum_list (beta_map self j i) (fun e =>
                if Q =? target_of e
                then coeff self P (source_of e) * C_of_Z (parity_of e)
                else 0))%C)))%C.
    + f_equal.
      * rewrite sum_n_swap. symmetry. rewrite sum_n_swap. symmetry.
        apply sum_n_ext. intros Q _.
        exact (@excitation_adjoint (FciGraph.strings_alpha (_core self)) i j
                 (fun P => Cconj (coeff self P Q)) (fun P => coeff self P Q)
                 Hnda).
      * apply sum_n_ext. intros P _.
        exact (@excitation_adjoint (FciGraph.strings_beta (_core self)) i j
                 (fun Q => Cconj (coeff self P Q)) (fun Q => coeff self P Q)
                 Hndb).
    + rewrite <- sum_n_add. apply sum_n_ext. intros P _.
      rewrite <- sum_n_add. apply sum_n_ext. intros Q _.
      unfold dvec_entry. ring.
Qed.
